(** * Chunked, resumable upload coordinator (UploadManager)

    A shallow embedding of the upload core of
    [src/MUI_V1/expandable_eye_rail_mui_data_grid_community.jsx]:
    the chunk planner [buildChunks], the queue actions of [UploadManager]
    ([addFilesToQueue], [pauseUpload], [resumeUpload], [cancelUpload], the
    promotion effect) and the per-file pipeline ([startFileUpload],
    [ensureUploadSession], [uploadChunksSequentiallyWithRetry],
    [finalizeUpload]).

    Conventions.
    - JavaScript numbers that hold byte counts, indices, part numbers, HTTP
      statuses and milliseconds are integers in every run of the program;
      they are modelled as [Z].
    - [Record<string,string>] is a [gmap string string]; arrays are lists.
    - [undefined] in an optional field is [None].
    - Loops whose termination depends on the data carry a [fuel : nat];
      running out of fuel is [None] (or [Running], for an [async] function)
      and stands for a loop that is still running.
    - [uploadsRef.current] is a component of the state of its own: it is
      what the last commit left there, not what [setUploads] has been asked
      for since. *)

From stdpp Require Import gmap strings list pretty sorting.
From Stdlib Require Import Ascii.

Local Open Scope Z_scope.

(** ** Configuration constants (source lines 306-317) *)

Definition MAX_FILES : Z := 100.
Definition MAX_FILE_SIZE_BYTES : Z := 5 * 1024 * 1024 * 1024.
Definition DEFAULT_CHUNK_SIZE : Z := 10 * 1024 * 1024.
Definition MAX_PARALLEL_FILES : Z := 3.
Definition CHUNK_MAX_RETRIES : Z := 4.
Definition BACKOFF_BASE_MS : Z := 800.
Definition BACKOFF_JITTER_MS : Z := 250.

(** ** Types *)

(** [type UploadStatus]: "queued", "uploading", "paused", "done", "error",
    "canceled" and "awaiting-file". *)
Inductive UploadStatus :=
  | Queued
  | Uploading
  | Paused
  | Done
  | Error
  | Canceled
  | AwaitingFile.

#[global] Instance UploadStatus_eq_dec : EqDecision UploadStatus.
Proof. solve_decision. Defined.

(** [interface ChunkMeta]; [end] is a keyword, hence [end_]. *)
Record ChunkMeta := mkChunk {
  index : Z;
  start : Z;
  end_ : Z;
  uploaded : bool;
  etag : option string;
}.

#[global] Instance ChunkMeta_eq_dec : EqDecision ChunkMeta.
Proof. solve_decision. Defined.

(** ** ChunkPlanner: [buildChunks] (source lines 405-427) *)

(** [Array.prototype.includes] on an array of integers. *)
Definition includes (l : list Z) (x : Z) : bool := existsb (Z.eqb x) l.

(** [String(n)] for an integer [n]: its decimal numeral. *)
Definition String_ (n : Z) : string := pretty n.

(** The [for (let start = 0; start < size; start += chunkSize)] loop, with
    the three loop-carried variables [chunks], [index] and [start]. *)
Fixpoint buildChunks_loop (fuel : nat) (size chunkSize : Z)
    (alreadyUploadedParts : list Z) (partsETags : gmap string string)
    (chunks : list ChunkMeta) (index start : Z) : option (list ChunkMeta) :=
  match fuel with
  | O => None
  | S fuel' =>
      if start <? size then
        let end_ := Z.min (start + chunkSize) size in
        let partNumber := index + 1 in
        let uploadedAlready := includes alreadyUploadedParts partNumber in
        let chunks' :=
          chunks ++ [mkChunk index start end_ uploadedAlready
                       (if uploadedAlready
                        then partsETags !! String_ partNumber
                        else None)] in
        buildChunks_loop fuel' size chunkSize alreadyUploadedParts partsETags
          chunks' (index + 1) (start + chunkSize)
      else Some chunks
  end.

Definition buildChunks_fuel (fuel : nat) (size chunkSize : Z)
    (alreadyUploadedParts : list Z) (partsETags : gmap string string)
    : option (list ChunkMeta) :=
  buildChunks_loop fuel size chunkSize alreadyUploadedParts partsETags [] 0 0.

(** [buildChunks] proper.  With [chunkSize >= 1] the loop exits after at most
    [size] iterations, so [S (Z.to_nat size)] tests of the loop condition are
    enough; [buildChunks_fuel_stable] below shows that no other amount of
    fuel can give a different list. *)
Definition buildChunks (size chunkSize : Z)
    (alreadyUploadedParts : list Z) (partsETags : gmap string string)
    : option (list ChunkMeta) :=
  buildChunks_fuel (S (Z.to_nat size)) size chunkSize
    alreadyUploadedParts partsETags.

(** ceil(a / b) for [b > 0] ([Z.div] rounds down). *)
Definition ceil_div (a b : Z) : Z := - ((- a) / b).

(** The [i]-th chunk of a plan, in closed form. *)
Definition plan_chunk (size chunkSize : Z) (alreadyUploadedParts : list Z)
    (partsETags : gmap string string) (i : nat) : ChunkMeta :=
  let partNumber := Z.of_nat i + 1 in
  let uploadedAlready := includes alreadyUploadedParts partNumber in
  mkChunk (Z.of_nat i) (Z.of_nat i * chunkSize)
    (Z.min (Z.of_nat i * chunkSize + chunkSize) size)
    uploadedAlready
    (if uploadedAlready then partsETags !! String_ partNumber else None).

(** How many chunks of a list contain byte offset [b]. *)
Definition covering (chunks : list ChunkMeta) (b : Z) : nat :=
  length (filter (λ c, start c ≤ b < end_ c) chunks).

(** What resume does to one chunk of a fresh plan. *)
Definition mark_uploaded (alreadyUploadedParts : list Z)
    (partsETags : gmap string string) (c : ChunkMeta) : ChunkMeta :=
  if includes alreadyUploadedParts (index c + 1)
  then mkChunk (index c) (start c) (end_ c) true
         (partsETags !! String_ (index c + 1))
  else c.

(** The chunk carries an etag ([etag] is not [undefined]). *)
Definition has_etag (c : ChunkMeta) : bool :=
  match etag c with Some _ => true | None => false end.

(** A list of chunks that tiles [[lo, hi)]: every chunk is non-empty and
    starts where its predecessor ended. *)
Inductive chained : Z → Z → list ChunkMeta → Prop :=
  | chained_nil lo : chained lo lo []
  | chained_cons c hi l :
      start c < end_ c → chained (end_ c) hi l → chained (start c) hi (c :: l).

(** ** Records of the upload queue (source lines 326-362) *)

(** The fields of a browser [File] that the coordinator reads
    ([type] is a keyword, hence [type_]). *)
Module File.
Record t := mk {
  name : string;
  size : Z;
  lastModified : Z;
  type_ : string;
}.
End File.

#[global] Instance File_eq_dec : EqDecision File.t.
Proof. solve_decision. Defined.

(** [interface UploadFileMeta].  [id] is written [id_]; the two fields that
    no claim reads are left out: [progress] (a floating-point percentage
    recomputed from [uploadedBytes] at every write) and [controller] (an
    [AbortController] that is stored but never passed to a request). *)
Record UploadFileMeta := mkMeta {
  id_ : string;
  file : option File.t;
  fileName : string;
  fileSize : Z;
  fileLastModified : option Z;
  status : UploadStatus;
  uploadedBytes : Z;
  uploadId : option string;
  chunkSize : Z;
  chunks : list ChunkMeta;
  error : option string;
  completing : bool;
  fileUrl : option string;
}.

#[global] Instance UploadFileMeta_eq_dec : EqDecision UploadFileMeta.
Proof. solve_decision. Defined.

(** Field updates, the [{ ...u, field: v }] of the source. *)
Definition set_file (v : option File.t) (u : UploadFileMeta) : UploadFileMeta :=
  mkMeta (id_ u) v (fileName u) (fileSize u) (fileLastModified u) (status u)
    (uploadedBytes u) (uploadId u) (chunkSize u) (chunks u) (error u)
    (completing u) (fileUrl u).
Definition set_fileLastModified (v : option Z) (u : UploadFileMeta)
    : UploadFileMeta :=
  mkMeta (id_ u) (file u) (fileName u) (fileSize u) v (status u)
    (uploadedBytes u) (uploadId u) (chunkSize u) (chunks u) (error u)
    (completing u) (fileUrl u).
Definition set_status (v : UploadStatus) (u : UploadFileMeta) : UploadFileMeta :=
  mkMeta (id_ u) (file u) (fileName u) (fileSize u) (fileLastModified u) v
    (uploadedBytes u) (uploadId u) (chunkSize u) (chunks u) (error u)
    (completing u) (fileUrl u).
Definition set_uploadedBytes (v : Z) (u : UploadFileMeta) : UploadFileMeta :=
  mkMeta (id_ u) (file u) (fileName u) (fileSize u) (fileLastModified u)
    (status u) v (uploadId u) (chunkSize u) (chunks u) (error u)
    (completing u) (fileUrl u).
Definition set_uploadId (v : option string) (u : UploadFileMeta)
    : UploadFileMeta :=
  mkMeta (id_ u) (file u) (fileName u) (fileSize u) (fileLastModified u)
    (status u) (uploadedBytes u) v (chunkSize u) (chunks u) (error u)
    (completing u) (fileUrl u).
Definition set_chunkSize (v : Z) (u : UploadFileMeta) : UploadFileMeta :=
  mkMeta (id_ u) (file u) (fileName u) (fileSize u) (fileLastModified u)
    (status u) (uploadedBytes u) (uploadId u) v (chunks u) (error u)
    (completing u) (fileUrl u).
Definition set_chunks (v : list ChunkMeta) (u : UploadFileMeta)
    : UploadFileMeta :=
  mkMeta (id_ u) (file u) (fileName u) (fileSize u) (fileLastModified u)
    (status u) (uploadedBytes u) (uploadId u) (chunkSize u) v (error u)
    (completing u) (fileUrl u).
Definition set_error (v : option string) (u : UploadFileMeta) : UploadFileMeta :=
  mkMeta (id_ u) (file u) (fileName u) (fileSize u) (fileLastModified u)
    (status u) (uploadedBytes u) (uploadId u) (chunkSize u) (chunks u) v
    (completing u) (fileUrl u).
Definition set_completing (v : bool) (u : UploadFileMeta) : UploadFileMeta :=
  mkMeta (id_ u) (file u) (fileName u) (fileSize u) (fileLastModified u)
    (status u) (uploadedBytes u) (uploadId u) (chunkSize u) (chunks u)
    (error u) v (fileUrl u).
Definition set_fileUrl (v : option string) (u : UploadFileMeta)
    : UploadFileMeta :=
  mkMeta (id_ u) (file u) (fileName u) (fileSize u) (fileLastModified u)
    (status u) (uploadedBytes u) (uploadId u) (chunkSize u) (chunks u)
    (error u) (completing u) v.

(** Toasts of [useSnackQueue]; the random [id] of a toast is only a React
    key and is left out. *)
Inductive Severity := SevSuccess | SevInfo | SevWarning | SevError.

Record Snack := mkSnack {
  message : string;
  severity : Severity;
}.

#[global] Instance Severity_eq_dec : EqDecision Severity.
Proof. solve_decision. Defined.
#[global] Instance Snack_eq_dec : EqDecision Snack.
Proof. solve_decision. Defined.

(** An error value as the retry policy inspects it: [err.isAxiosError],
    [err.response?.status] and [err.message]. *)
Record JsError := mkError {
  isAxiosError : bool;
  response_status : option Z;
  err_message : string;
}.

#[global] Instance JsError_eq_dec : EqDecision JsError.
Proof. solve_decision. Defined.

(** [new Error(msg)]. *)
Definition Error_ (msg : string) : JsError := mkError false None msg.

(** The [TypeError] of reading a property of [undefined]. *)
Definition TypeError_ : JsError :=
  mkError false None "Cannot read properties of undefined".

(** JavaScript truthiness of an optional string and an optional number. *)
Definition truthy_string (s : option string) : bool :=
  match s with Some s => negb (bool_decide (s = "")) | None => false end.
Definition truthy_number (n : option Z) : bool :=
  match n with Some n => negb (n =? 0) | None => false end.

(** The state of the [UploadManager] component: the [uploads] array, the
    toast queue (oldest first) and how many record ids [createUUID] has
    handed out so far. *)
Record Manager := mkManager {
  uploads : list UploadFileMeta;
  queue : list Snack;
  uuid_calls : nat;
}.

Definition initial_manager : Manager := mkManager [] [] 0.

(** [uploadsRef.current.find((u) => u.id === id)].  The ref is re-assigned
    from [uploads] by the first effect of every commit; it is modelled as
    the [uploads] state itself. *)
Definition find_upload (id : string) (us : list UploadFileMeta)
    : option UploadFileMeta :=
  List.find (λ u, bool_decide (id_ u = id)) us.

(** [prev.map((u) => (u.id === id ? f(u) : u))]. *)
Definition update_upload (id : string) (f : UploadFileMeta → UploadFileMeta)
    (prev : list UploadFileMeta) : list UploadFileMeta :=
  (λ u, if bool_decide (id_ u = id) then f u else u) <$> prev.

(** [Array.prototype.findIndex], [None] for -1. *)
Fixpoint findIndex {A} (p : A → bool) (l : list A) : option nat :=
  match l with
  | [] => None
  | x :: l' => if p x then Some 0%nat else S <$> findIndex p l'
  end.

(** ** Queue actions (source lines 905-1030) *)

(** The predicate of [next.findIndex] in [addFilesToQueue]. *)
Definition placeholder_matches (file : File.t) (u : UploadFileMeta) : bool :=
  bool_decide (status u = AwaitingFile)
  && bool_decide (fileName u = File.name file)
  && bool_decide (fileSize u = File.size file)
  && (if truthy_number (fileLastModified u)
      then bool_decide (fileLastModified u = Some (File.lastModified file))
      else true).

Definition attach_file (file : File.t) (existing : UploadFileMeta)
    : UploadFileMeta :=
  set_fileLastModified (Some (File.lastModified file))
    (set_error None (set_status Queued (set_file (Some file) existing))).

Definition new_upload (id : string) (file : File.t) : UploadFileMeta :=
  mkMeta id (Some file) (File.name file) (File.size file)
    (Some (File.lastModified file)) Queued 0 None DEFAULT_CHUNK_SIZE []
    None false None.

Definition limit_snack : Snack :=
  mkSnack "Upload limit reached (100 files)" SevWarning.
Definition oversize_snack (file : File.t) : Snack :=
  mkSnack ("⛔ " +:+ File.name file +:+ " exceeds 5GB limit") SevError.
Definition resuming_snack (file : File.t) : Snack :=
  mkSnack ("Resuming " +:+ File.name file +:+ "…") SevInfo.

Section Coordinator.

(** [createUUID()]: the value returned by the [n]-th call that creates a
    record id. *)
Context (createUUID : nat → string).

(** The [for (const file of files)] loop of [addFilesToQueue], returning
    [next], the toasts pushed and the number of ids drawn. *)
Fixpoint addFiles_loop (files : list File.t) (next : list UploadFileMeta)
    (pushed : list Snack) (calls : nat)
    : list UploadFileMeta * list Snack * nat :=
  match files with
  | [] => (next, pushed, calls)
  | file :: files' =>
      if Z.of_nat (length next) >=? MAX_FILES then
        (next, pushed ++ [limit_snack], calls)                    (* break *)
      else if File.size file >? MAX_FILE_SIZE_BYTES then
        addFiles_loop files' next (pushed ++ [oversize_snack file]) calls
      else
        match findIndex (placeholder_matches file) next with
        | Some idx =>
            addFiles_loop files' (alter (attach_file file) idx next)
              (pushed ++ [resuming_snack file]) calls
        | None =>
            addFiles_loop files'
              (next ++ [new_upload (createUUID calls) file]) pushed (S calls)
        end
  end.

Definition addFilesToQueue (files : list File.t) (m : Manager) : Manager :=
  let '(next, pushed, calls) := addFiles_loop files (uploads m) [] (uuid_calls m) in
  mkManager next (queue m ++ pushed) calls.

Definition pauseUpload (id : string) (prev : list UploadFileMeta)
    : list UploadFileMeta :=
  update_upload id
    (λ u, set_status (if bool_decide (status u = Done) then Done else Paused) u)
    prev.

Definition resumeUpload (id : string) (prev : list UploadFileMeta)
    : list UploadFileMeta :=
  (λ u, if bool_decide (id_ u = id) && negb (bool_decide (status u = Done))
        then set_error None (set_status Queued u) else u) <$> prev.

Definition cancelUpload (id : string) (prev : list UploadFileMeta)
    : list UploadFileMeta :=
  update_upload id (set_status Canceled) prev.

(** The [onchange] handler of [recoverMissingFile] for a selected file. *)
Definition recover_mismatch (id : string) (f : File.t) (u : UploadFileMeta)
    : bool :=
  bool_decide (id_ u = id)
  && (negb (bool_decide (fileName u = File.name f))
      || negb (bool_decide (fileSize u = File.size f))).

Definition mismatch_snack : Snack :=
  mkSnack "File doesn't match the original (name/size)" SevError.

Definition recoverMissingFile (id : string) (f : File.t) (m : Manager)
    : Manager :=
  mkManager
    ((λ u, if bool_decide (id_ u = id) && negb (recover_mismatch id f u)
           then set_error None
                  (set_status Queued
                     (set_fileLastModified (Some (File.lastModified f))
                        (set_file (Some f) u)))
           else u) <$> uploads m)
    (queue m
     ++ ((λ _, mismatch_snack)
           <$> filter (λ u, recover_mismatch id f u = true) (uploads m)))
    (uuid_calls m).

(** ** The three [setUploads] calls of [startFileUpload] (lines 1052-1109) *)

Definition startFileUpload_begin (id : string) (prev : list UploadFileMeta)
    : list UploadFileMeta :=
  update_upload id (λ u, set_error None (set_status Uploading u)) prev.

Definition startFileUpload_finish (id : string) (prev : list UploadFileMeta)
    : list UploadFileMeta :=
  (λ u, if bool_decide (id_ u = id)
           && negb (bool_decide (status u = Paused))
           && negb (bool_decide (status u = Canceled))
        then set_completing false (set_status Done u) else u) <$> prev.

Definition startFileUpload_fail (id : string) (msg : string)
    (prev : list UploadFileMeta) : list UploadFileMeta :=
  update_upload id
    (λ u, set_completing false (set_error (Some msg) (set_status Error u)))
    prev.

(** [(err as AxiosError)?.message || (err as Error)?.message || "Upload failed"]. *)
Definition failure_message (err : JsError) : string :=
  if bool_decide (err_message err = "") then "Upload failed"
  else err_message err.

(** The [catch] block of [startFileUpload]: it reads the record's status
    from [current], which is [uploadsRef.current], and acts on the state
    [m]. *)
Definition startFileUpload_catch_at (id : string) (err : JsError)
    (current : list UploadFileMeta) (m : Manager) : Manager :=
  let seen := status <$> find_upload id current in
  let wasPaused := bool_decide (seen = Some Paused) in
  let wasCanceled := bool_decide (seen = Some Canceled) in
  if wasPaused || wasCanceled then m
  else
    let msg := failure_message err in
    mkManager (startFileUpload_fail id msg (uploads m))
      (queue m ++ [mkSnack ("⚠️ " +:+ msg) SevError]) (uuid_calls m).

(** The [catch] block as a step on the manager, when [uploadsRef.current]
    is the state it acts on. *)
Definition startFileUpload_catch (id : string) (err : JsError) (m : Manager)
    : Manager :=
  startFileUpload_catch_at id err (uploads m) m.

(** ** Promotion effect (source lines 1037-1049) *)

Definition nextToStart (current : list UploadFileMeta) : list UploadFileMeta :=
  let uploadingCount :=
    length (filter (λ u, status u = Uploading) current) in
  let capacity := MAX_PARALLEL_FILES - Z.of_nat uploadingCount in
  if capacity <=? 0 then []
  else
    take (Z.to_nat capacity)
      (filter (λ u, status u = Queued ∧ is_Some (file u)) current).

(** The effect calls [startFileUpload(u.id)] for every record of
    [nextToStart]; each call synchronously queues its first [setUploads]. *)
Definition promotion_effect (m : Manager) : Manager :=
  mkManager
    (foldl (λ us u, startFileUpload_begin (id_ u) us) (uploads m)
       (nextToStart (uploads m)))
    (queue m) (uuid_calls m).

(** What can happen to the queue: the user's actions and the two ways a
    running pipeline ends. *)
Inductive Action :=
  | AddFiles (files : list File.t)
  | Pause (id : string)
  | Resume (id : string)
  | Cancel (id : string)
  | Recover (id : string) (f : File.t)
  | PipelineDone (id : string)
  | PipelineFailed (id : string) (err : JsError).

Definition with_uploads (f : list UploadFileMeta → list UploadFileMeta)
    (m : Manager) : Manager :=
  mkManager (f (uploads m)) (queue m) (uuid_calls m).

Definition apply_action (a : Action) (m : Manager) : Manager :=
  match a with
  | AddFiles files => addFilesToQueue files m
  | Pause id => with_uploads (pauseUpload id) m
  | Resume id => with_uploads (resumeUpload id) m
  | Cancel id => with_uploads (cancelUpload id) m
  | Recover id f => recoverMissingFile id f m
  | PipelineDone id => with_uploads (startFileUpload_finish id) m
  | PipelineFailed id err => startFileUpload_catch id err m
  end.

(** One commit and what follows it when nothing comes between: the state
    change, the promotion effect of the re-render, and the first update of
    every pipeline the effect starts.  ([tick] below takes the three
    apart.) *)
Definition dispatch (a : Action) (m : Manager) : Manager :=
  promotion_effect (apply_action a m).

Definition dispatch_all (acts : list Action) (m : Manager) : Manager :=
  foldl (λ m a, dispatch a m) m acts.

(** Every state the manager goes through while [acts] are dispatched, the
    states between a change and its effect included. *)
Fixpoint history (acts : list Action) (m : Manager) : list Manager :=
  match acts with
  | [] => [m]
  | a :: acts' =>
      m :: apply_action a m :: history acts' (dispatch a m)
  end.

(** ** The queue between renders *)

(** [dispatch] lets the update of an action, the read of the promotion
    effect and the first update of every pipeline it starts happen in one
    step.  In the source they are apart: the effect decides on what it
    reads from [uploadsRef.current] (line 1038) and calls
    [startFileUpload], which only asks React for the record to become
    "uploading" (lines 1053-1057, an update that tests no status); the
    update lands at a later render, and other updates and effects can come
    first.  A [Board] is the queue with every update applied that has
    landed, [uploadsRef.current], and the records for which
    [startFileUpload] has been called and whose first update has not landed
    yet, oldest first. *)
Record Board := mkBoard {
  landed : Manager;
  current : list UploadFileMeta;
  starting : list string;
}.

(** What moves a board: the update of an action lands; the effects of a
    commit run (lines 818-820, then 1037-1049); the oldest pending first
    update of a pipeline lands. *)
Inductive Tick :=
  | Does (a : Action)
  | Effects
  | Lands.

Definition tick (t : Tick) (b : Board) : Board :=
  match t with
  | Does a => mkBoard (apply_action a (landed b)) (current b) (starting b)
  | Effects =>
      let current := uploads (landed b) in
      mkBoard (landed b) current (starting b ++ (id_ <$> nextToStart current))
  | Lands =>
      match starting b with
      | [] => b
      | id :: rest =>
          mkBoard (with_uploads (startFileUpload_begin id) (landed b))
            (current b) rest
      end
  end.

Definition ticks (ts : list Tick) (b : Board) : Board :=
  foldl (λ b t, tick t b) b ts.

Definition uploadingCount (m : Manager) : nat :=
  length (filter (λ u, status u = Uploading) (uploads m)).

(** Record ids are pairwise distinct and [createUUID] will not hand out an
    id that is already in use: what "universally unique" promises. *)
Definition ids_distinct (m : Manager) : Prop :=
  NoDup (id_ <$> uploads m)
  ∧ ∀ k : nat, (uuid_calls m ≤ k)%nat → createUUID k ∉ id_ <$> uploads m.


End Coordinator.



(** ** The world a pipeline talks to *)

(** One [onUploadProgress] event: [evt.loaded] and [evt.total]. *)
Record ProgressEvent := mkProgress {
  loaded : Z;
  total : option Z;
}.

(** What one pass through the [try] block of the retry loop meets:
    [apiGetPartUrl] never settles (the axios instance of line 444 has no
    timeout, and the watchdogs of lines 1221-1231 are armed only after this
    request); or it rejects; or [axios.put] reports some progress and then
    rejects, with the watchdog flags as the [catch] block will read them; or
    [axios.put] reports progress and resolves, with the etag the response
    header carries. *)
Inductive Attempt :=
  | PartUrlHangs
  | PartUrlFails (err : JsError)
  | PutFails (progress : list ProgressEvent) (didStall didTimeout : bool)
      (err : JsError)
  | PutResponds (progress : list ProgressEvent) (etagHeader : option string).

(** The body of the [/uploads/initiate] response. *)
Record InitResponse := mkInit {
  init_uploadId : string;
  init_chunkSize : option Z;
  init_alreadyUploadedParts : option (list Z);
  init_partsETags : option (gmap string string);
  init_allowed : option bool;
  init_reason : option string;
  init_remainingBytes : option Z;
}.

(** What a pipeline does that can be observed from outside. *)
Inductive Event :=
  | EvInitiate (fileName mimeType : string) (size : Z)
  | EvAttempt (partNumber attempt : Z)
  | EvPut (index start end_ : Z)
  | EvBytes (uploadedBytes : Z)
  | EvChunkUploaded (index : Z) (etag : string)
  | EvFailed (partNumber attempt : Z) (didStall didTimeout : bool)
      (err : JsError)
  | EvSleep (ms : Z)
  | EvComplete (uploadId : string) (parts : list (Z * string)).

#[global] Instance Event_eq_dec : EqDecision Event.
Proof. solve_decision. Defined.

(** What a running pipeline sees and changes.
    - [mgr] is the component's state with every [setUploads] and [push]
      made so far applied, in the order they were made.
    - [ref] is [uploadsRef.current].  Async code reads the queue only
      through it (lines 1079, 1083, 1113, 1180, 1193, 1235, 1345), and the
      source assigns it in one place, the first effect (line 820), which
      runs after a render is committed.  A [setUploads] therefore does not
      show in [ref] until React has rendered and run its effects, which it
      does not do while a pipeline runs from one request to the next.
    - [log] holds what this pipeline has done, [wire] what all pipelines
      have done, in order. *)
Record PState := mkPState {
  mgr : Manager;
  ref : list UploadFileMeta;
  log : list Event;
  wire : list Event;
}.

(** The places where a pipeline waits for something outside the program,
    and the event loop runs other work in the meantime: the initiate
    request (line 1128), the part-URL request of an attempt (1213), the PUT
    of an attempt (1237; [seen] progress events have been delivered so
    far), the backoff sleep after an attempt (1333), and the complete
    request (1359). *)
Inductive Point :=
  | AtInitiate
  | AtPartUrl (partNumber attempt : Z)
  | AtPut (partNumber attempt : Z) (seen : nat)
  | AtSleep (partNumber attempt : Z)
  | AtComplete.

#[global] Instance Point_eq_dec : EqDecision Point.
Proof. solve_decision. Defined.

(** Everything outside one run of a pipeline that the run depends on: the
    backend's answer to the initiate and to the complete request ([None]:
    the request never settles; these requests have no timeout), what each
    attempt [(partNumber, attempt)] meets, what happens to the component
    while the pipeline waits at a point (re-renders that refresh [ref],
    clicks of the user, the steps of other pipelines), and the numerator
    over [2^53] that [Math.random()] returns for the backoff after an
    attempt. *)
Record World := mkWorld {
  initiate_response : option (JsError + InitResponse);
  attempt_of : Z → Z → Attempt;
  meanwhile : Point → PState → PState;
  Math_random : Z → Z → Z;
  complete_response : option (JsError + string);
}.

(** ** A state-and-exception monad for the [async] functions *)

(** How far an [async] function has got: it has returned, it has thrown,
    or it has not settled (a loop is out of fuel, or a request never
    settles). *)
Inductive Completion (A : Type) :=
  | Normal (a : A)
  | Thrown (err : JsError)
  | Running.
Arguments Normal {A} a.
Arguments Thrown {A} err.
Arguments Running {A}.

Definition Pipe (A : Type) : Type := PState → Completion A * PState.

Definition ret {A} (a : A) : Pipe A := λ s, (Normal a, s).

Definition bind {A B} (m : Pipe A) (k : A → Pipe B) : Pipe B :=
  λ s, match m s with
       | (Normal a, s') => k a s'
       | (Thrown err, s') => (Thrown err, s')
       | (Running, s') => (Running, s')
       end.

Definition throw {A} (err : JsError) : Pipe A := λ s, (Thrown err, s).

Definition running {A} : Pipe A := λ s, (Running, s).

(** [try { m } catch (err) { h(err) }]. *)
Definition try_catch {A} (m : Pipe A) (h : JsError → Pipe A) : Pipe A :=
  λ s, match m s with
       | (Thrown err, s') => h err s'
       | r => r
       end.

Notation "'let*' x := m 'in' k" := (bind m (λ x, k))
  (at level 10, x name, m at level 100, k at level 200,
   format "'[v' 'let*'  x  :=  m  'in'  '/' k ']'").
Notation "m1 ;;; m2" := (bind m1 (λ _, m2))
  (at level 100, right associativity,
   format "'[v' m1  ;;;  '/' m2 ']'").

(** A request goes out. *)
Definition emit (ev : Event) : Pipe unit :=
  λ s, (Normal tt, mkPState (mgr s) (ref s) (log s ++ [ev]) (wire s ++ [ev])).

(** [uploadsRef.current]. *)
Definition getUploads : Pipe (list UploadFileMeta) :=
  λ s, (Normal (ref s), s).

Definition setUploads (f : list UploadFileMeta → list UploadFileMeta)
    : Pipe unit :=
  λ s, (Normal tt, mkPState (with_uploads f (mgr s)) (ref s) (log s) (wire s)).

Definition push (msg : string) (sev : Severity) : Pipe unit :=
  λ s, (Normal tt,
        mkPState (mkManager (uploads (mgr s)) (queue (mgr s) ++ [mkSnack msg sev])
                    (uuid_calls (mgr s)))
          (ref s) (log s) (wire s)).

(** The pipeline waits at [pt]: whatever the world does in the meantime
    happens, to everything but the pipeline's own log. *)
Definition await (w : World) (pt : Point) : Pipe unit :=
  λ s, let s' := meanwhile w pt s in
       (Normal tt, mkPState (mgr s') (ref s') (log s) (wire s')).

(** ** What happens in the meantime *)

(** React renders and runs the first effect (lines 818-820):
    [uploadsRef.current = uploads]. *)
Definition refresh (s : PState) : PState :=
  mkPState (mgr s) (uploads (mgr s)) (log s) (wire s).

(** A click of the user lands. *)
Definition user_does (createUUID : nat → string) (a : Action) (s : PState)
    : PState :=
  mkPState (apply_action createUUID a (mgr s)) (ref s) (log s) (wire s).

(** Several things happen, one after the other. *)
Definition happen (steps : list (PState → PState)) (s : PState) : PState :=
  foldl (λ s step, step s) s steps.

(** ** Retry policy and part transport (source lines 1204-1337) *)

(** The [retriable] expression of the [catch] block. *)
Definition retriable (didStall didTimeout : bool) (err : JsError) : bool :=
  let isAxios := isAxiosError err in
  let status := response_status err in
  didStall
  || didTimeout
  || negb isAxios
  || negb (truthy_number status)
  || (if status is Some s then 500 <=? s else false)
  || bool_decide (status = Some 429)
  || bool_decide (status = Some 408)
  || bool_decide (status = Some 403).

(** [Math.random()] is [r mod 2^53 / 2^53]; this is
    [Math.floor(Math.random() * BACKOFF_JITTER_MS)]. *)
Definition jitter (r : Z) : Z :=
  ((r `mod` 2 ^ 53) * BACKOFF_JITTER_MS) `div` 2 ^ 53.

Definition backoff_delay (attempt r : Z) : Z :=
  BACKOFF_BASE_MS * 2 ^ attempt + jitter r.

(** The [onUploadProgress] callback, run for each event of an attempt. *)
Definition onUploadProgress (id : string) (uploadedBytesBefore : Z)
    (evt : ProgressEvent) : Pipe unit :=
  if negb (truthy_number (total evt)) then ret tt
  else
    let newUploadedBytes := uploadedBytesBefore + loaded evt in
    setUploads (update_upload id (set_uploadedBytes newUploadedBytes)) ;;;
    emit (EvBytes newUploadedBytes).

(** [c.index === chunkMeta.index ? { ...c, uploaded: true, etag } : c]. *)
Definition mark_chunk (chunkMeta : ChunkMeta) (etagClean : string)
    (c : ChunkMeta) : ChunkMeta :=
  if bool_decide (index c = index chunkMeta)
  then mkChunk (index c) (start c) (end_ c) true (Some etagClean)
  else c.

(** The [setUploads] that records a stored part. *)
Definition mark_chunk_done (id : string) (chunkMeta : ChunkMeta)
    (etagClean : string) (uploadedBytesBefore : Z)
    (prev : list UploadFileMeta) : list UploadFileMeta :=
  update_upload id
    (λ u,
       let updatedChunks := mark_chunk chunkMeta etagClean <$> chunks u in
       let finishedBytes := end_ chunkMeta - start chunkMeta in
       let newUploadedBytes := uploadedBytesBefore + finishedBytes in
       set_uploadedBytes newUploadedBytes (set_chunks updatedChunks u))
    prev.

(** The progress events of one PUT: each is delivered in a task of its
    own, so the world moves on before each of them. *)
Fixpoint report_progress (w : World) (id : string) (partNumber attempt : Z)
    (uploadedBytesBefore : Z) (seen : nat) (evts : list ProgressEvent)
    : Pipe unit :=
  match evts with
  | [] => ret tt
  | evt :: evts' =>
      await w (AtPut partNumber attempt seen) ;;;
      onUploadProgress id uploadedBytesBefore evt ;;;
      report_progress w id partNumber attempt uploadedBytesBefore (S seen) evts'
  end.

(** What the [catch] block receives: the watchdog flags [didStall] and
    [didTimeout] as they stand when the error is caught, and the error. *)
Definition Caught : Type := bool * bool * JsError.

(** The [try] block of one attempt.  Its value is [None] when the part was
    stored ([lastErr = null; break]) and the caught failure otherwise. *)
Definition try_block (w : World) (id : string) (meta : UploadFileMeta)
    (chunkMeta : ChunkMeta) (attempt : Z) : Pipe (option Caught) :=
  let partNumber := index chunkMeta + 1 in
  let put (progress : list ProgressEvent) (settle : Z → Pipe (option Caught))
      : Pipe (option Caught) :=
    if file meta is Some _ then
      let* current := getUploads in
      match find_upload id current with
      | Some u =>
          let uploadedBytesBefore := uploadedBytes u in
          emit (EvPut (index chunkMeta) (start chunkMeta) (end_ chunkMeta)) ;;;
          report_progress w id partNumber attempt uploadedBytesBefore 0
            progress ;;;
          await w (AtPut partNumber attempt (length progress)) ;;;
          settle uploadedBytesBefore
      | None => ret (Some (false, false, TypeError_))
      end
    else ret (Some (false, false, TypeError_)) in
  emit (EvAttempt partNumber attempt) ;;;
  await w (AtPartUrl partNumber attempt) ;;;
  match attempt_of w partNumber attempt with
  | PartUrlHangs => running
  | PartUrlFails err => ret (Some (false, false, err))
  | PutFails progress didStall didTimeout err =>
      put progress (λ _, ret (Some (didStall, didTimeout, err)))
  | PutResponds progress etagHeader =>
      put progress
        (λ uploadedBytesBefore,
           if truthy_string etagHeader then
             let etagClean := default "" etagHeader in
             setUploads (mark_chunk_done id chunkMeta etagClean
                           uploadedBytesBefore) ;;;
             emit (EvBytes (uploadedBytesBefore
                            + (end_ chunkMeta - start chunkMeta))) ;;;
             emit (EvChunkUploaded (index chunkMeta) etagClean) ;;;
             ret None
           else
             ret (Some (false, false,
                        Error_ "Missing ETag from storage response")))
  end.

(** The [while (attempt <= CHUNK_MAX_RETRIES)] loop for one chunk: the [try]
    block, then on failure the [catch] block, which either throws or sleeps
    and goes round again.  The value is [lastErr] when the loop is left. *)
Fixpoint retry_loop (fuel : nat) (w : World) (id : string)
    (meta : UploadFileMeta) (chunkMeta : ChunkMeta) (attempt : Z)
    (lastErr : option JsError) : Pipe (option JsError) :=
  match fuel with
  | O => running
  | S fuel' =>
      if attempt <=? CHUNK_MAX_RETRIES then
        let partNumber := index chunkMeta + 1 in
        let* caught := try_block w id meta chunkMeta attempt in
        match caught with
        | None => ret None
        | Some (didStall, didTimeout, err) =>
            emit (EvFailed partNumber attempt didStall didTimeout err) ;;;
            if (attempt >=? CHUNK_MAX_RETRIES)
               || negb (retriable didStall didTimeout err)
            then throw err
            else
              let delay :=
                backoff_delay attempt (Math_random w partNumber attempt) in
              emit (EvSleep delay) ;;;
              await w (AtSleep partNumber attempt) ;;;
              retry_loop fuel' w id meta chunkMeta (attempt + 1) (Some err)
        end
      else ret lastErr
  end.

(** The loop condition is tested at most [CHUNK_MAX_RETRIES + 2] times. *)
Definition retry_fuel : nat := Z.to_nat (CHUNK_MAX_RETRIES + 2).

(** The [for (let i = 0; i < meta.chunks.length; i++)] loop. *)
Fixpoint chunks_loop (fuel : nat) (w : World) (id : string) (i : nat)
    (meta : UploadFileMeta) : Pipe unit :=
  match fuel with
  | O => running
  | S fuel' =>
      if bool_decide (i < length (chunks meta))%nat then
        let* current := getUploads in
        match find_upload id current with
        | None => throw TypeError_
        | Some meta =>
            if bool_decide (status meta = Paused)
               || bool_decide (status meta = Canceled)
            then throw (Error_ "canceled")
            else
              match chunks meta !! i with
              | None => throw TypeError_
              | Some chunkMeta =>
                  if uploaded chunkMeta then
                    chunks_loop fuel' w id (S i) meta
                  else
                    let* lastErr :=
                      retry_loop retry_fuel w id meta chunkMeta 0 None in
                    match lastErr with
                    | Some err => throw err
                    | None => chunks_loop fuel' w id (S i) meta
                    end
              end
        end
      else ret tt
  end.

Definition uploadChunksSequentiallyWithRetry (w : World) (id : string)
    : Pipe unit :=
  let* current := getUploads in
  match find_upload id current with
  | None => ret tt
  | Some meta =>
      if negb (truthy_string (uploadId meta)) then
        throw (Error_ "Missing uploadId")
      else if negb (bool_decide (is_Some (file meta))) then
        throw (Error_ "Missing File; use 'Select file to resume'")
      else chunks_loop (S (length (chunks meta))) w id 0 meta
  end.

(** ** Session initiation and finalization (lines 1112-1173, 1344-1368) *)

Definition resumedUploadedBytes (chunks : list ChunkMeta) : Z :=
  foldl (λ sum c, sum + (end_ c - start c)) 0
    (filter (λ c, uploaded c = true) chunks).

Definition ensureUploadSession (w : World) (id : string) : Pipe unit :=
  let* current := getUploads in
  match find_upload id current with
  | None => ret tt
  | Some meta =>
      if negb (bool_decide (is_Some (file meta)))
         && negb (bool_decide (status meta = AwaitingFile))
      then throw (Error_ "File not available (needs user to reselect)")
      else if truthy_string (uploadId meta)
              && bool_decide (0 < length (chunks meta))%nat
      then ret tt
      else
        match file meta with
        | None => throw TypeError_
        | Some file =>
            emit (EvInitiate
                    (if bool_decide (fileName meta = "") then File.name file
                     else fileName meta)
                    (if bool_decide (File.type_ file = "")
                     then "application/octet-stream" else File.type_ file)
                    (File.size file)) ;;;
            await w AtInitiate ;;;
            match initiate_response w with
            | None => running
            | Some (inl err) => throw err
            | Some (inr init) =>
                if bool_decide (init_allowed init = Some false) then
                  throw (Error_ (if truthy_string (init_reason init)
                                 then default "" (init_reason init)
                                 else "Server rejected this file"))
                else if (if init_remainingBytes init is Some remaining
                         then remaining <? File.size file else false)
                then throw (Error_ "Insufficient quota to upload this file")
                else
                  let chunkSize :=
                    if truthy_number (init_chunkSize init)
                    then default 0 (init_chunkSize init)
                    else DEFAULT_CHUNK_SIZE in
                  match buildChunks (File.size file) chunkSize
                          (default [] (init_alreadyUploadedParts init))
                          (default ∅ (init_partsETags init)) with
                  | None => running
                  | Some chunks =>
                      setUploads
                        (update_upload id
                           (λ u, set_uploadedBytes (resumedUploadedBytes chunks)
                                   (set_chunks chunks
                                      (set_chunkSize chunkSize
                                         (set_uploadId
                                            (Some (init_uploadId init)) u)))))
                  end
            end
        end
  end.

(** The [parts] that [apiCompleteUpload] sends. *)
Definition complete_parts (chunks : list ChunkMeta) : list (Z * string) :=
  omap (λ c, if uploaded c && truthy_string (etag c)
             then Some (index c + 1, default "" (etag c)) else None) chunks.

Definition finalizeUpload (w : World) (id : string) : Pipe unit :=
  let* current := getUploads in
  match find_upload id current with
  | None => ret tt
  | Some meta =>
      if negb (truthy_string (uploadId meta)) then
        throw (Error_ "Missing uploadId")
      else if existsb (λ c, negb (uploaded c)) (chunks meta) then ret tt
      else
        setUploads (update_upload id (set_completing true)) ;;;
        emit (EvComplete (default "" (uploadId meta))
                (complete_parts (chunks meta))) ;;;
        await w AtComplete ;;;
        match complete_response w with
        | None => running
        | Some (inl err) => throw err
        | Some (inr url) =>
            setUploads
              (update_upload id
                 (λ u, set_completing false (set_fileUrl (Some url) u)))
        end
  end.

(** ** [startFileUpload] (source lines 1052-1109) *)

(** The [try] block of [startFileUpload]. *)
Definition startFileUpload_try (w : World) (id : string) : Pipe unit :=
  ensureUploadSession w id ;;;
  uploadChunksSequentiallyWithRetry w id ;;;
  finalizeUpload w id ;;;
  setUploads (startFileUpload_finish id) ;;;
  let* current := getUploads in
  let finishedName :=
    match find_upload id current with
    | Some u => if bool_decide (fileName u = "") then "file" else fileName u
    | None => "file"
    end in
  push ("✅ Uploaded " +:+ finishedName) SevSuccess.

Definition startFileUpload (w : World) (id : string) : Pipe unit :=
  setUploads (startFileUpload_begin id) ;;;
  try_catch (startFileUpload_try w id)
    (λ err s, (Normal tt,
               mkPState (startFileUpload_catch_at id err (ref s) (mgr s))
                 (ref s) (log s) (wire s))).

(** Running a pipeline that the promotion effect starts on the committed
    state [m]: the effect runs after the first effect of the same commit
    has set [uploadsRef.current] to that state. *)
Definition run {A} (p : Pipe A) (m : Manager) : Completion A * PState :=
  p (mkPState m (uploads m) [] []).

(** While one pipeline waits, another one runs, from start to end. *)
Definition pipeline_runs (p : Pipe unit) (s : PState) : PState :=
  let s' := (p (mkPState (mgr s) (ref s) [] (wire s))).2 in
  mkPState (mgr s') (ref s') (log s) (wire s').

(** The promotion effect of a commit (lines 1037-1049) as far as the record
    [id] goes: if the record is among [nextToStart] of the committed
    state, [startFileUpload(id)] is called; the pipeline it starts talks
    to the world [w]. *)
Definition promotes (w : World) (id : string) (s : PState) : PState :=
  if bool_decide (id ∈ id_ <$> nextToStart (ref s))
  then pipeline_runs (startFileUpload w id) s
  else s.

(** ** Reading a log *)

Definition is_failure (ev : Event) : bool :=
  match ev with EvFailed _ _ _ _ _ => true | _ => false end.


(** The values written to [uploadedBytes], in order. *)
Definition bytes_written (t : list Event) : list Z :=
  omap (λ ev, match ev with EvBytes n => Some n | _ => None end) t.

(** The retriable failures as the specification lists them: a stall, a hard
    timeout, an error that carries no HTTP response (a connection or
    transport error, or an exception raised before or after the transfer,
    such as the missing-etag integrity error), and an HTTP response with
    status 429, 408, 403 or 5xx. *)
Definition spec_retriable (didStall didTimeout : bool) (err : JsError) : Prop :=
  didStall = true ∨ didTimeout = true
  ∨ isAxiosError err = false
  ∨ response_status err = None ∨ response_status err = Some 0
  ∨ (∃ s, response_status err = Some s ∧ (s = 429 ∨ s = 408 ∨ s = 403))
  ∨ (∃ s, response_status err = Some s ∧ 500 ≤ s).

(** An HTTP error response (not a stall, not a timeout) with a 4xx status
    other than 429, 408 and 403. *)
Definition permanent_4xx (didStall didTimeout : bool) (err : JsError) : Prop :=
  didStall = false ∧ didTimeout = false ∧ isAxiosError err = true
  ∧ ∃ s, response_status err = Some s ∧ 400 ≤ s ≤ 499
         ∧ s ≠ 429 ∧ s ≠ 408 ∧ s ≠ 403.

(** The position-[i] chunk has index [i], as in every list [buildChunks]
    makes. *)
Definition well_indexed (chunks : list ChunkMeta) : Prop :=
  ∀ (i : nat) c, chunks !! i = Some c → index c = Z.of_nat i.

(** ** The shape of a log *)

(** The events of one transfer, if the attempt got as far as the PUT: the
    PUT of the chunk's byte range, then the byte counts written while it
    runs. *)
Definition transfer_events (c : ChunkMeta) (body : list Event) : Prop :=
  body = []
  ∨ ∃ bs : list Z,
      body = EvPut (index c) (start c) (end_ c) :: (EvBytes <$> bs).

(** What the retry loop of chunk [c], entered at attempt [a], can log, and
    how far it then gets: the attempt stores the part; or it fails for
    good; or it fails, sleeps, and the loop goes on from attempt [a + 1];
    or the part-URL request of the attempt never settles. *)
Inductive retry_trace (w : World) (c : ChunkMeta)
    : Z → Completion (option JsError) → list Event → Prop :=
  | rt_stored a bs etag :
      0 ≤ a ≤ CHUNK_MAX_RETRIES →
      retry_trace w c a (Normal None)
        (EvAttempt (index c + 1) a
           :: EvPut (index c) (start c) (end_ c)
           :: (EvBytes <$> bs) ++ [EvChunkUploaded (index c) etag])
  | rt_fatal a body didStall didTimeout err :
      0 ≤ a ≤ CHUNK_MAX_RETRIES →
      transfer_events c body →
      a = CHUNK_MAX_RETRIES ∨ retriable didStall didTimeout err = false →
      retry_trace w c a (Thrown err)
        (EvAttempt (index c + 1) a
           :: body ++ [EvFailed (index c + 1) a didStall didTimeout err])
  | rt_retry a body didStall didTimeout err r t :
      transfer_events c body →
      0 ≤ a < CHUNK_MAX_RETRIES →
      retriable didStall didTimeout err = true →
      retry_trace w c (a + 1) r t →
      retry_trace w c a r
        (EvAttempt (index c + 1) a
           :: body
           ++ [EvFailed (index c + 1) a didStall didTimeout err;
               EvSleep (backoff_delay a (Math_random w (index c + 1) a))]
           ++ t)
  | rt_hung a :
      0 ≤ a ≤ CHUNK_MAX_RETRIES →
      attempt_of w (index c + 1) a = PartUrlHangs →
      retry_trace w c a Running [EvAttempt (index c + 1) a].

(** What [uploadChunksSequentiallyWithRetry] can log: one retry loop after
    the other, each but the last ending with its part stored. *)
Inductive upload_trace (w : World) : Completion unit → list Event → Prop :=
  | ut_done : upload_trace w (Normal tt) []
  | ut_stopped err : upload_trace w (Thrown err) []
  | ut_running : upload_trace w Running []
  | ut_stored c t1 r t :
      retry_trace w c 0 (Normal None) t1 → upload_trace w r t →
      upload_trace w r (t1 ++ t)
  | ut_failed c err t1 :
      retry_trace w c 0 (Thrown err) t1 → upload_trace w (Thrown err) t1
  | ut_hung c t1 :
      retry_trace w c 0 Running t1 → upload_trace w Running t1.

(** Scanning a log for overlapping transfers: [busy] says whether a PUT has
    been issued whose outcome is not logged yet.  The scan fails ([None])
    at a PUT that is issued while another one is in flight. *)
Fixpoint scan_puts (busy : bool) (t : list Event) : option bool :=
  match t with
  | [] => Some busy
  | EvPut _ _ _ :: t' => if busy then None else scan_puts true t'
  | EvChunkUploaded _ _ :: t' => scan_puts false t'
  | EvFailed _ _ _ _ _ :: t' => scan_puts false t'
  | _ :: t' => scan_puts busy t'
  end.

(** The index of the chunk an event is about (part numbers are index + 1). *)
Definition event_chunk (ev : Event) : option Z :=
  match ev with
  | EvAttempt partNumber _ => Some (partNumber - 1)
  | EvPut index _ _ => Some index
  | EvChunkUploaded index _ => Some index
  | EvFailed partNumber _ _ _ _ => Some (partNumber - 1)
  | _ => None
  end.

(** ** Scenarios *)

Definition http_error (s : Z) : JsError :=
  mkError true (Some s) "Request failed".

(** While a pipeline waits, React re-renders and nothing else happens. *)
Definition nothing_else (pt : Point) : PState → PState := refresh.

Definition ten_bytes : File.t := File.mk "a.bin" 10 1 "".

(** A backend that plans one 10-byte part, lets the first PUT of every part
    reach 7 bytes and fail with HTTP 500, and stores the part on the second
    attempt. *)
Definition flaky_once : World :=
  mkWorld (Some (inr (mkInit "u1" (Some 10) None None None None None)))
    (λ _ attempt,
       if attempt =? 0
       then PutFails [mkProgress 7 (Some 10)] false false (http_error 500)
       else PutResponds [mkProgress 10 (Some 10)] (Some "e1"))
    nothing_else (λ _ _, 0) (Some (inr "https://cdn.example/a.bin")).

(** A 1 MiB file in four parts; part 3 fails with HTTP 500 three times and
    is stored on the fourth attempt. *)
Definition one_mib : File.t := File.mk "b.bin" 1048576 1 "".

Definition third_part_flaky : World :=
  mkWorld (Some (inr (mkInit "u2" (Some 262144) None None None None None)))
    (λ partNumber attempt,
       if (partNumber =? 3) && (attempt <? 3)
       then PutFails [] false false (http_error 500)
       else PutResponds [] (Some "e"))
    nothing_else (λ _ attempt, attempt * 2 ^ 51)
    (Some (inr "https://cdn.example/b.bin")).

(** The queue after the 1 MiB file was added and promoted, the record as
    the retry loop sees it, and the third of its four 256 KiB parts. *)
Definition one_mib_queue : Manager :=
  dispatch pretty (AddFiles [one_mib]) initial_manager.
Definition one_mib_meta : UploadFileMeta :=
  set_status Uploading (new_upload "0" one_mib).
Definition third_part : ChunkMeta := mkChunk 2 524288 786432 false None.

(** The queue right after a file was added: the state that the promotion
    effect reads when it starts the file's first pipeline. *)
Definition added (f : File.t) : Manager :=
  apply_action pretty (AddFiles [f]) initial_manager.

Definition ten_bytes_queue : Manager := added ten_bytes.

(** The queue in which the promotion effect starts a file's second
    pipeline: the file was added, its first pipeline has run in the world
    [w], and the user has clicked Resume. *)
Definition resumed (w : World) (f : File.t) : Manager :=
  apply_action pretty (Resume "0") (mgr (run (startFileUpload w "0") (added f)).2).


(** A 20-byte file in two parts, and two pipelines for it.  [steady]
    stores whatever is sent.  In [overtaken] the user pauses the file and
    resumes it while the first PUT of part 1 is in flight; the promotion
    effect of the commit that follows starts a second pipeline for the
    file, which talks to [steady]; the PUT that was in flight then fails
    with HTTP 500, and its retry is stored. *)
Definition twenty_bytes : File.t := File.mk "c.bin" 20 1 "".

Definition steady : World :=
  mkWorld (Some (inr (mkInit "u7" (Some 10) None None None None None)))
    (λ _ _, PutResponds [] (Some "e-second"))
    nothing_else (λ _ _, 0) (Some (inr "https://cdn.example/c.bin")).

(** A backend whose part-URL requests never settle. *)
Definition stuck : World :=
  mkWorld (Some (inr (mkInit "u7" (Some 10) None None None None None)))
    (λ _ _, PartUrlHangs) nothing_else (λ _ _, 0)
    (Some (inr "https://cdn.example/c.bin")).

Definition overtaken : World :=
  mkWorld (Some (inr (mkInit "u7" (Some 10) None None None None None)))
    (λ partNumber attempt,
       if (partNumber =? 1) && (attempt =? 0)
       then PutFails [] false false (http_error 500)
       else PutResponds [] (Some "e-first"))
    (λ pt, if bool_decide (pt = AtPut 1 0 0)
           then happen [user_does pretty (Pause "0"); refresh;
                        user_does pretty (Resume "0"); refresh;
                        promotes steady "0"; refresh]
           else refresh)
    (λ _ _, 0) (Some (inr "https://cdn.example/c.bin")).

(** ** Row controls and labels (source lines 578-736) *)

(** [statusLabel(status, completing)].  The [default] branch of the source
    echoes a value that is no [UploadStatus]; no value of the type reaches
    it. *)
Definition statusLabel (status : UploadStatus) (completing : bool) : string :=
  match status with
  | Queued => "Queued"
  | Uploading => if completing then "Finalizing…" else "Uploading…"
  | Paused => "Paused"
  | Done => "Done"
  | Error => "Error"
  | Canceled => "Canceled"
  | AwaitingFile => "Waiting for file…"
  end.

(** The three flags that [UploadRow] computes from its record. *)
Definition canPause (meta : UploadFileMeta) : bool :=
  bool_decide (status meta = Uploading) && negb (completing meta).
Definition canResume (meta : UploadFileMeta) : bool :=
  (bool_decide (status meta = Paused)
   || bool_decide (status meta = Error)
   || bool_decide (status meta = Queued))
  && negb (completing meta).
Definition canCancel (meta : UploadFileMeta) : bool :=
  negb (bool_decide (status meta = Done))
  && negb (bool_decide (status meta = Canceled))
  && negb (completing meta).

(** What the buttons of a row can dispatch: the pause button is rendered
    when [canPause], the resume button when [canResume && !canPause], the
    cancel button when [canCancel], and "Select file to resume" when the
    record is "awaiting-file" (the file dialog it opens is modal, the record
    is still as it was when the file comes back). *)
Definition row_offers (meta : UploadFileMeta) (a : Action) : bool :=
  match a with
  | Pause id => bool_decide (id = id_ meta) && canPause meta
  | Resume id =>
      bool_decide (id = id_ meta) && canResume meta && negb (canPause meta)
  | Cancel id => bool_decide (id = id_ meta) && canCancel meta
  | Recover id _ =>
      bool_decide (id = id_ meta) && bool_decide (status meta = AwaitingFile)
  | _ => false
  end.

(** ** Toolbar buttons (source lines 1417-1461) *)

(** "Pause all" and "Resume all": the calls their [forEach] makes. *)
Definition pauseAll (current : list UploadFileMeta) : list Action :=
  (λ u, Pause (id_ u)) <$> filter (λ u, status u = Uploading) current.
Definition resumeAll (current : list UploadFileMeta) : list Action :=
  (λ u, Resume (id_ u))
    <$> filter (λ u, status u = Paused ∨ status u = Error ∨ status u = Queued)
          current.

Section Session.

Context (createUUID : nat → string).

(** One event handler: its [setUploads] calls are applied in order in one
    commit, and the effects run once, after the commit. *)
Definition commit (acts : list Action) (m : Manager) : Manager :=
  promotion_effect (foldl (λ m a, apply_action createUUID a m) m acts).

(** What one user gesture can dispatch: a button of a row, a button of the
    toolbar, or a drop on the dropzone, which is disabled while the queue
    holds [MAX_FILES] records. *)
Inductive click (m : Manager) : list Action → Prop :=
  | click_row u a : u ∈ uploads m → row_offers u a = true → click m [a]
  | click_pause_all : click m (pauseAll (uploads m))
  | click_resume_all : click m (resumeAll (uploads m))
  | click_drop files :
      Z.of_nat (length (uploads m)) < MAX_FILES → click m [AddFiles files].

(** One step of a session: a user gesture, or the end of a pipeline. *)
Inductive session_step (m : Manager) : Manager → Prop :=
  | step_click acts : click m acts → session_step m (commit acts m)
  | step_done id : session_step m (dispatch createUUID (PipelineDone id) m)
  | step_failed id err :
      session_step m (dispatch createUUID (PipelineFailed id err) m).

End Session.

(** A record can be started: it is "queued" and holds its file. *)
Definition startable (u : UploadFileMeta) : Prop :=
  status u = Queued ∧ is_Some (file u).

(** What a record knows about its transfer. *)
Definition session_of (u : UploadFileMeta)
    : string * Z * Z * option string * Z * list ChunkMeta * option string :=
  (fileName u, fileSize u, uploadedBytes u, uploadId u, chunkSize u, chunks u,
   fileUrl u).

(** ** Persistence (source lines 819-898) *)

(** [interface PersistedUpload], as [JSON.parse] gives it back: a field
    that [JSON.stringify] dropped because it was [undefined], or that an
    older snapshot lacks, is [None].  The hydration code defends the fields
    [uploadedBytes], [chunkSize], [chunks] and [completing] against that. *)
Record PersistedUpload := mkPersisted {
  p_id : string;
  p_fileName : string;
  p_fileSize : Z;
  p_fileLastModified : option Z;
  p_status : UploadStatus;
  p_uploadedBytes : option Z;
  p_uploadId : option string;
  p_chunkSize : option Z;
  p_chunks : option (list ChunkMeta);
  p_completing : option bool;
  p_fileUrl : option string;
}.

#[global] Instance PersistedUpload_eq_dec : EqDecision PersistedUpload.
Proof. solve_decision. Defined.

(** The snapshot [toPersist] that the first effect writes. *)
Definition toPersist (uploads : list UploadFileMeta) : list PersistedUpload :=
  (λ u,
     mkPersisted (id_ u) (fileName u) (fileSize u) (fileLastModified u)
       (if file u is Some _ then status u
        else if bool_decide (status u = Done) then Done else AwaitingFile)
       (Some (uploadedBytes u)) (uploadId u) (Some (chunkSize u))
       (Some ((λ c, mkChunk (index c) (start c) (end_ c) (uploaded c) (etag c))
                <$> chunks u))
       (Some (completing u)) (fileUrl u))
    <$> filter (λ u, status u ≠ Done ∧ status u ≠ Canceled) uploads.

(** One element of [restored]. *)
Definition restore (p : PersistedUpload) : UploadFileMeta :=
  mkMeta (p_id p) None (p_fileName p) (p_fileSize p) (p_fileLastModified p)
    AwaitingFile
    (if truthy_number (p_uploadedBytes p) then default 0 (p_uploadedBytes p)
     else 0)
    (p_uploadId p)
    (if truthy_number (p_chunkSize p) then default 0 (p_chunkSize p)
     else DEFAULT_CHUNK_SIZE)
    (default [] (p_chunks p))
    None
    (default false (p_completing p))
    (p_fileUrl p).

(** [mergeRestored(prev, restored)]. *)
Definition mergeRestored (prev restored : list UploadFileMeta)
    : list UploadFileMeta :=
  let existingIds : gset string := list_to_set (id_ <$> prev) in
  foldl (λ merged r,
           if bool_decide (id_ r ∈ existingIds) then merged else merged ++ [r])
    prev restored.

(** What [localStorage] holds under [PERSIST_KEY]: [None] when there is no
    item, when the item is the empty string, when it does not parse, or when
    it parses to something that is no array; the parsed array otherwise. *)
Definition Stored : Type := option (list PersistedUpload).

(** The state change of the hydration effect. *)
Definition hydrate (raw : Stored) (prev : list UploadFileMeta)
    : list UploadFileMeta :=
  match raw with
  | None => prev
  | Some persisted =>
      let restored := restore <$> persisted in
      if bool_decide (0 < length restored)%nat
      then mergeRestored prev restored
      else prev
  end.

(** The component and the storage it persists to. *)
Record Page := mkPage {
  manager : Manager;
  localStorage_item : Stored;
}.

(** The first effect of [UploadManager] (it also refreshes [uploadsRef]),
    and the hydration effect. *)
Definition persist_effect (b : Page) : Page :=
  mkPage (manager b) (Some (toPersist (uploads (manager b)))).
Definition hydrate_effect (b : Page) : Page :=
  mkPage (with_uploads (hydrate (localStorage_item b)) (manager b))
    (localStorage_item b).

(** The effects of the first commit.  The first render has [uploads = []];
    React then runs the effects of the component in the order of their
    [useEffect] calls: the persisting effect, then the hydration effect
    (the promotion effect, which comes third, starts nothing in a queue
    whose records hold no file). *)
Definition mount (stored : Stored) : Page :=
  hydrate_effect (persist_effect (mkPage initial_manager stored)).

(** ** Toast queue (source lines 528-564) *)

Module SnackQueue.
Definition push (message : string) (severity : Severity) (q : list Snack)
    : list Snack :=
  q ++ [mkSnack message severity].
Definition close (q : list Snack) : list Snack := drop 1 q.
Definition current (q : list Snack) : option Snack := head q.
Definition autoHideDuration (q : list Snack) : Z :=
  if bool_decide (severity <$> current q = Some SevError) then 6000 else 3000.
End SnackQueue.

(** ** The expandable-rail grid (source lines 25-281) *)

Definition BASE_ROW_HEIGHT : Z := 52.
Definition RAIL_BUTTON_SIZE : Z := 32.
Definition RAIL_GAP : Z := 6.
Definition RAIL_BUTTON_COUNT : Z := 4.
Definition RAIL_INNER_PADDING_Y : Z := 6.
Definition RAIL_STACK_HEIGHT : Z :=
  RAIL_BUTTON_COUNT * RAIL_BUTTON_SIZE
  + (RAIL_BUTTON_COUNT - 1) * RAIL_GAP
  + RAIL_INNER_PADDING_Y * 2.
Definition ROW_EXPANDED_HEIGHT : Z := BASE_ROW_HEIGHT + RAIL_STACK_HEIGHT + 12.

Definition ACTION_FIELDS : list string := ["viewA"; "viewB"; "viewC"].

(** [makeKey(id, field)] for a numeric row id. *)
Definition makeKey (id : Z) (field : string) : string :=
  String_ id +:+ "__" +:+ field.

(** [s.split(sep)[0]]: what comes before the first occurrence of [sep]. *)
Fixpoint split_first (sep s : string) : string :=
  match s with
  | EmptyString => EmptyString
  | String a s' =>
      if String.prefix sep s then EmptyString
      else String a (split_first sep s')
  end.

(** The [expandedCells] state is an object from keys to booleans; a key
    that is absent reads as [undefined]. *)
Definition toggleCell (id : Z) (field : string) (prev : gmap string bool)
    : gmap string bool :=
  let key := makeKey id field in
  <[key := negb (default false (prev !! key))]> prev.

(** The keys of the [expandedRows] map (every value it holds is [true]). *)
Definition expandedRows (expandedCells : gmap string bool) : gset string :=
  list_to_set
    (omap (λ entry : string * bool,
             if entry.2 then Some (split_first "__" entry.1) else None)
       (map_to_list expandedCells)).

Definition getRowHeight (expandedCells : gmap string bool) (id : Z) : Z :=
  if bool_decide (String_ id ∈ expandedRows expandedCells)
  then ROW_EXPANDED_HEIGHT else BASE_ROW_HEIGHT.

(** [Boolean(expandedCells[makeKey(params.id, field)])] of [renderCell]. *)
Definition cell_expanded (expandedCells : gmap string bool) (id : Z)
    (field : string) : bool :=
  default false (expandedCells !! makeKey id field).

(** The state after a series of clicks on eye buttons. *)
Definition after_toggles (clicks : list (Z * string)) : gmap string bool :=
  foldl (λ cells click, toggleCell click.1 click.2 cells) ∅ clicks.

(** ** Vocabulary of the statements *)

(** A record can be started or not. *)
#[global] Instance startable_dec u : Decision (startable u).
Proof. unfold startable. apply _. Defined.

(** Every record of [us] is still in [us'], at its position, with its id
    and with what it knows about its transfer. *)
Definition stays (us us' : list UploadFileMeta) : Prop :=
  ∀ (i : nat) u, us !! i = Some u →
    ∃ u', us' !! i = Some u' ∧ id_ u' = id_ u ∧ session_of u' = session_of u.

(** The arguments of [apiInitiateUpload] in [ensureUploadSession]:
    [meta.fileName || file.name], [file.type || "application/octet-stream"]
    and [file.size]. *)
Definition initiate_event (meta : UploadFileMeta) (file : File.t) : Event :=
  EvInitiate
    (if bool_decide (fileName meta = "") then File.name file else fileName meta)
    (if bool_decide (File.type_ file = "") then "application/octet-stream"
     else File.type_ file)
    (File.size file).

(** [init.chunkSize || DEFAULT_CHUNK_SIZE]. *)
Definition session_chunkSize (init : InitResponse) : Z :=
  if truthy_number (init_chunkSize init) then default 0 (init_chunkSize init)
  else DEFAULT_CHUNK_SIZE.

(** [meta.uploadId && meta.chunks.length > 0]: the record has a session. *)
Definition has_session (meta : UploadFileMeta) : bool :=
  truthy_string (uploadId meta) && bool_decide (0 < length (chunks meta))%nat.

(** The update of the last [setUploads] of [ensureUploadSession]. *)
Definition with_session (init : InitResponse) (plan : list ChunkMeta)
    (u : UploadFileMeta) : UploadFileMeta :=
  set_uploadedBytes (resumedUploadedBytes plan)
    (set_chunks plan
       (set_chunkSize (session_chunkSize init)
          (set_uploadId (Some (init_uploadId init)) u))).

(** The message of the error that [ensureUploadSession] throws when the
    backend refuses the file or has too little quota left; [None] when it
    grants the session. *)
Definition refusal (init : InitResponse) (file : File.t) : option string :=
  if bool_decide (init_allowed init = Some false) then
    Some (if truthy_string (init_reason init) then default "" (init_reason init)
          else "Server rejected this file")
  else if (if init_remainingBytes init is Some remaining
           then remaining <? File.size file else false)
  then Some "Insufficient quota to upload this file"
  else None.

(** No character of the string is an underscore. *)
Fixpoint underscore_free (s : string) : Prop :=
  match s with
  | EmptyString => True
  | String a s' => a ≠ "_"%char ∧ underscore_free s'
  end.

(** The backend refuses the file. *)
Definition refusing : World :=
  mkWorld
    (Some (inr (mkInit "u6" None None None (Some false)
                  (Some "Too many uploads") None)))
    (λ _ _, PutResponds [] (Some "e"))
    nothing_else (λ _ _, 0) (Some (inr "https://cdn.example/a.bin")).

(* ================================================================== *)
(** * Properties of the chunk planner *)

Example buildChunks_test_split :
  buildChunks 25 10 [] ∅ =
  Some [mkChunk 0 0 10 false None; mkChunk 1 10 20 false None;
        mkChunk 2 20 25 false None].
Proof. reflexivity. Qed.

Example buildChunks_test_marks :
  buildChunks 30 10 [1; 3] (<["1" := "etag1"]> (<["3" := "etag3"]> ∅)) =
  Some [mkChunk 0 0 10 true (Some "etag1"); mkChunk 1 10 20 false None;
        mkChunk 2 20 30 true (Some "etag3")].
Proof. vm_compute. reflexivity. Qed.

Lemma ceil_div_spec a b :
  0 < b → (ceil_div a b - 1) * b < a ≤ ceil_div a b * b.
Proof.
  intros Hb. unfold ceil_div.
  pose proof (Z.div_mod (- a) b ltac:(lia)) as Hdm.
  pose proof (Z.mod_pos_bound (- a) b Hb) as Hr.
  nia.
Qed.

Lemma ceil_div_unique a b q :
  0 < b → (q - 1) * b < a ≤ q * b → ceil_div a b = q.
Proof.
  intros Hb Hq. pose proof (ceil_div_spec a b Hb) as Hc. nia.
Qed.

Lemma ceil_div_nonneg a b : 0 ≤ a → 0 < b → 0 ≤ ceil_div a b ≤ a.
Proof.
  intros Ha Hb. pose proof (ceil_div_spec a b Hb) as Hc. nia.
Qed.

(** Position [k] is inside the plan exactly when its start offset is below
    [size]. *)
Lemma plan_index_lt size chunkSize (k : nat) :
  0 ≤ size → 0 < chunkSize →
  (k < Z.to_nat (ceil_div size chunkSize))%nat ↔ Z.of_nat k * chunkSize < size.
Proof.
  intros Hs Hc. pose proof (ceil_div_spec size chunkSize Hc) as Hd.
  pose proof (ceil_div_nonneg size chunkSize Hs Hc) as Hn.
  split; intros H; [nia|].
  apply Nat2Z.inj_lt. rewrite Z2Nat.id by lia. nia.
Qed.

Lemma buildChunks_loop_closed size chunkSize parts etags :
  0 ≤ size → 0 < chunkSize →
  ∀ (m k fuel : nat) acc,
    (k + m = Z.to_nat (ceil_div size chunkSize))%nat → (m < fuel)%nat →
    buildChunks_loop fuel size chunkSize parts etags acc
      (Z.of_nat k) (Z.of_nat k * chunkSize)
    = Some (acc ++ (plan_chunk size chunkSize parts etags <$> seq k m)).
Proof.
  intros Hs Hc. induction m as [|m IH]; intros k fuel acc Hk Hf.
  - destruct fuel as [|fuel]; [lia|]. simpl.
    assert (¬ Z.of_nat k * chunkSize < size) as Hge.
    { rewrite <- plan_index_lt by done. lia. }
    destruct (Z.ltb_spec (Z.of_nat k * chunkSize) size); [lia|].
    by rewrite app_nil_r.
  - destruct fuel as [|fuel]; [lia|]. simpl.
    assert (Z.of_nat k * chunkSize < size) as Hlt.
    { rewrite <- plan_index_lt by done. lia. }
    destruct (Z.ltb_spec (Z.of_nat k * chunkSize) size); [|lia].
    replace (Z.of_nat k + 1) with (Z.of_nat (S k)) by lia.
    replace (Z.of_nat k * chunkSize + chunkSize)
      with (Z.of_nat (S k) * chunkSize) by lia.
    rewrite IH by lia. rewrite <- app_assoc. do 2 f_equal. simpl.
    unfold plan_chunk.
    replace (Z.of_nat k + 1) with (Z.of_nat (S k)) by lia.
    replace (Z.of_nat k * chunkSize + chunkSize)
      with (Z.of_nat (S k) * chunkSize) by lia.
    reflexivity.
Qed.

(** [buildChunks] returns, and what it returns is the closed-form plan. *)
Lemma buildChunks_closed size chunkSize parts etags :
  0 ≤ size → 0 < chunkSize →
  buildChunks size chunkSize parts etags
  = Some (plan_chunk size chunkSize parts etags
            <$> seq 0 (Z.to_nat (ceil_div size chunkSize))).
Proof.
  intros Hs Hc. unfold buildChunks, buildChunks_fuel.
  pose proof (ceil_div_nonneg size chunkSize Hs Hc) as Hn.
  apply (buildChunks_loop_closed size chunkSize parts etags Hs Hc
           (Z.to_nat (ceil_div size chunkSize)) 0%nat _ []); lia.
Qed.

(** More fuel never changes a result that was already reached. *)
Lemma buildChunks_loop_mono size chunkSize parts etags :
  ∀ (fuel fuel' : nat) acc i s l,
    buildChunks_loop fuel size chunkSize parts etags acc i s = Some l →
    (fuel ≤ fuel')%nat →
    buildChunks_loop fuel' size chunkSize parts etags acc i s = Some l.
Proof.
  induction fuel as [|fuel IH]; intros fuel' acc i s l H Hle; [done|].
  destruct fuel' as [|fuel']; [lia|]. simpl in *.
  destruct (s <? size); [|done]. apply IH; [done|lia].
Qed.

Lemma buildChunks_fuel_stable size chunkSize parts etags fuel1 fuel2 l1 l2 :
  buildChunks_fuel fuel1 size chunkSize parts etags = Some l1 →
  buildChunks_fuel fuel2 size chunkSize parts etags = Some l2 →
  l1 = l2.
Proof.
  unfold buildChunks_fuel. intros H1 H2.
  apply (buildChunks_loop_mono _ _ _ _ _ (fuel1 `max` fuel2)%nat) in H1; [|lia].
  apply (buildChunks_loop_mono _ _ _ _ _ (fuel1 `max` fuel2)%nat) in H2; [|lia].
  congruence.
Qed.

(** With a non-positive step the loop variable never reaches [size]. *)
Lemma buildChunks_loop_stuck size chunkSize parts etags :
  chunkSize ≤ 0 →
  ∀ (fuel : nat) acc i s,
    s < size → buildChunks_loop fuel size chunkSize parts etags acc i s = None.
Proof.
  intros Hc. induction fuel as [|fuel IH]; intros acc i s Hs; [done|].
  simpl. destruct (Z.ltb_spec s size); [|lia]. apply IH. lia.
Qed.

(** ** Tilings *)

Lemma chained_le lo hi l : chained lo hi l → lo ≤ hi.
Proof. induction 1; lia. Qed.

Lemma chained_head lo hi l c : chained lo hi l → head l = Some c → start c = lo.
Proof. destruct 1; simpl; congruence. Qed.

Lemma chained_last lo hi l c : chained lo hi l → last l = Some c → end_ c = hi.
Proof.
  induction 1 as [|c' hi l Hc Hl IH]; [done|].
  destruct l as [|c'' l]; simpl.
  - inversion Hl; subst. congruence.
  - intros H. apply IH. exact H.
Qed.

Lemma chained_adjacent lo hi l (i : nat) c c' :
  chained lo hi l → l !! i = Some c → l !! S i = Some c' → end_ c = start c'.
Proof.
  intros H. revert i. induction H as [|c0 hi l Hc Hl IH]; intros i; [done|].
  destruct i as [|i]; simpl.
  - intros [= ->] Hc'. symmetry. eapply chained_head; [exact Hl|].
    by destruct l; simplify_eq/=.
  - apply IH.
Qed.

Lemma chained_nonempty lo hi l c : chained lo hi l → c ∈ l → start c < end_ c.
Proof.
  induction 1 as [|c0 hi l Hc Hl IH]; intros Hin.
  - by apply elem_of_nil in Hin.
  - apply elem_of_cons in Hin as [->|Hin]; auto.
Qed.

(** Every offset of [[lo, hi)] lies in exactly one chunk of a tiling, every
    other offset in none. *)
Lemma chained_covering lo hi l :
  chained lo hi l →
  ∀ b, covering l b = if bool_decide (lo ≤ b < hi) then 1%nat else 0%nat.
Proof.
  unfold covering. induction 1 as [lo|c hi l Hc Hl IH]; intros b.
  - simpl. case_bool_decide; [lia|done].
  - pose proof (chained_le _ _ _ Hl) as Hle.
    rewrite filter_cons. specialize (IH b).
    destruct (decide (start c ≤ b < end_ c)) as [Hin|Hout]; simpl; rewrite IH;
      repeat case_bool_decide; lia.
Qed.

Lemma plan_chained size chunkSize parts etags :
  0 ≤ size → 0 < chunkSize →
  ∀ m k : nat,
    (k + m = Z.to_nat (ceil_div size chunkSize))%nat → (0 < m)%nat →
    chained (Z.of_nat k * chunkSize) size
      (plan_chunk size chunkSize parts etags <$> seq k m).
Proof.
  intros Hs Hc. induction m as [|m IH]; intros k Hk Hm; [lia|].
  assert (Z.of_nat k * chunkSize < size) as Hlt.
  { rewrite <- plan_index_lt by done. lia. }
  simpl.
  change (Z.of_nat k * chunkSize)
    with (start (plan_chunk size chunkSize parts etags k)) at 1.
  constructor; [simpl; lia|]. simpl.
  destruct m as [|m].
  - assert (¬ Z.of_nat (S k) * chunkSize < size) as Hge.
    { rewrite <- plan_index_lt by done. lia. }
    replace (Z.min (Z.of_nat k * chunkSize + chunkSize) size) with size by lia.
    constructor.
  - assert (Z.of_nat (S k) * chunkSize < size) as Hlt'.
    { rewrite <- plan_index_lt by done. lia. }
    replace (Z.min (Z.of_nat k * chunkSize + chunkSize) size)
      with (Z.of_nat (S k) * chunkSize) by lia.
    apply IH; lia.
Qed.

Lemma plan_lookup size chunkSize parts etags (n i : nat) c :
  (plan_chunk size chunkSize parts etags <$> seq 0 n) !! i = Some c →
  (i < n)%nat ∧ c = plan_chunk size chunkSize parts etags i.
Proof.
  rewrite list_lookup_fmap. intros H.
  destruct (seq 0 n !! i) as [j|] eqn:Hj; [|done].
  apply lookup_seq in Hj as [-> ?]. simpl in H. split; [done|congruence].
Qed.

(** C1.  For a file of [size >= 0] bytes and a part size [chunkSize > 0],
    [buildChunks] returns a list that partitions the byte range
    [[0, size)] exactly once: the first chunk starts at 0, every chunk ends
    where the next one starts, the last chunk ends at [size], no chunk is
    empty, and every byte offset of the range lies in exactly one chunk
    (offsets outside it in none).  The list has ceil(size / chunkSize)
    chunks, the chunk at position [i] has index [i], and every chunk but
    possibly the last is exactly [chunkSize] bytes long. *)
Theorem buildChunks_partition size chunkSize parts etags :
  0 ≤ size → 0 < chunkSize →
  ∃ chunks,
    buildChunks size chunkSize parts etags = Some chunks
    ∧ Z.of_nat (length chunks) = ceil_div size chunkSize
    ∧ (∀ c, head chunks = Some c → start c = 0)
    ∧ (∀ (i : nat) c c',
         chunks !! i = Some c → chunks !! S i = Some c' → end_ c = start c')
    ∧ (∀ c, last chunks = Some c → end_ c = size)
    ∧ (∀ c, c ∈ chunks → start c < end_ c)
    ∧ (∀ b, covering chunks b
            = if bool_decide (0 ≤ b < size) then 1%nat else 0%nat)
    ∧ (∀ (i : nat) c, chunks !! i = Some c →
         index c = Z.of_nat i
         ∧ end_ c - start c ≤ chunkSize
         ∧ ((S i < length chunks)%nat → end_ c - start c = chunkSize)).
Proof.
  intros Hs Hc. eexists. split; [by apply buildChunks_closed|].
  pose proof (ceil_div_nonneg size chunkSize Hs Hc) as Hn.
  set (n := Z.to_nat (ceil_div size chunkSize)).
  assert (chained 0 size (plan_chunk size chunkSize parts etags <$> seq 0 n))
    as Hch.
  { destruct (decide (n = 0%nat)) as [Hz|Hnz].
    - rewrite Hz. simpl.
      pose proof (ceil_div_spec size chunkSize Hc).
      replace size with 0 by lia. constructor.
    - change 0 with (Z.of_nat 0 * chunkSize) at 1.
      apply plan_chained; [done|done|done|lia]. }
  rewrite length_fmap, length_seq.
  split; [subst n; lia|].
  split; [intros c; by apply (chained_head 0 size)|].
  split; [intros i c c'; by apply (chained_adjacent 0 size)|].
  split; [intros c; by apply (chained_last 0 size)|].
  split; [intros c; by apply (chained_nonempty 0 size)|].
  split; [by apply chained_covering|].
  intros i c Hi. apply plan_lookup in Hi as [Hi ->]. simpl.
  split; [done|]. split; [lia|].
  intros Hnext.
  assert (Z.of_nat (S i) * chunkSize < size) as Hlt.
  { rewrite <- plan_index_lt by done. done. }
  lia.
Qed.

Lemma buildChunks_partition_witness :
  ∃ chunks,
    buildChunks 25 10 [2] {["2" := "e1"]} = Some chunks
    ∧ Z.of_nat (length chunks) = ceil_div 25 10
    ∧ (∀ c, head chunks = Some c → start c = 0)
    ∧ (∀ (i : nat) c c',
         chunks !! i = Some c → chunks !! S i = Some c' → end_ c = start c')
    ∧ (∀ c, last chunks = Some c → end_ c = 25)
    ∧ (∀ c, c ∈ chunks → start c < end_ c)
    ∧ (∀ b, covering chunks b
            = if bool_decide (0 ≤ b < 25) then 1%nat else 0%nat)
    ∧ (∀ (i : nat) c, chunks !! i = Some c →
         index c = Z.of_nat i
         ∧ end_ c - start c ≤ 10
         ∧ ((S i < length chunks)%nat → end_ c - start c = 10)).
Proof. apply (buildChunks_partition 25 10 [2] {["2" := "e1"]}); lia. Defined.

(** ** Resume *)

Lemma buildChunks_loop_resume size chunkSize parts etags :
  ∀ (fuel : nat) (acc : list ChunkMeta) i s,
    buildChunks_loop fuel size chunkSize parts etags
      (mark_uploaded parts etags <$> acc) i s
    = fmap (M:=list) (mark_uploaded parts etags)
        <$> buildChunks_loop fuel size chunkSize [] ∅ acc i s.
Proof.
  induction fuel as [|fuel IH]; intros acc i s; [done|].
  simpl. destruct (s <? size); [|done].
  rewrite <- IH, fmap_app. do 3 f_equal. simpl.
  unfold mark_uploaded. simpl. by destruct (includes parts (i + 1)).
Qed.

Lemma buildChunks_loop_fresh size chunkSize :
  ∀ (fuel : nat) acc i s l,
    Forall (λ c, uploaded c = false ∧ etag c = None) acc →
    buildChunks_loop fuel size chunkSize [] ∅ acc i s = Some l →
    Forall (λ c, uploaded c = false ∧ etag c = None) l.
Proof.
  induction fuel as [|fuel IH]; intros acc i s l Hacc H; [done|].
  simpl in H. destruct (s <? size); [|congruence].
  eapply IH; [|exact H]. apply Forall_app. split; [done|].
  by repeat constructor.
Qed.

(** C2.  For every file size, part size, list of already-uploaded part
    numbers and etag table, the plan is the fresh plan
    [buildChunks size chunkSize [] {}] (whose chunks all have
    [uploaded = false] and no etag) with the same indices, starts and ends,
    where exactly the chunks whose 1-based part number is in the
    already-uploaded list have [uploaded = true] and the etag the table
    supplies for that part number; [buildChunks 25 10 [2] {"2": "e1"}] is
    [{0,10,false}, {10,20,true,"e1"}, {20,25,false}]. *)
Theorem buildChunks_resume size chunkSize parts etags :
  buildChunks size chunkSize parts etags
  = fmap (M:=list) (mark_uploaded parts etags)
      <$> buildChunks size chunkSize [] ∅
  ∧ Forall (λ c, uploaded c = false ∧ etag c = None)
      (default [] (buildChunks size chunkSize [] ∅))
  ∧ Forall (λ c, index (mark_uploaded parts etags c) = index c
                 ∧ start (mark_uploaded parts etags c) = start c
                 ∧ end_ (mark_uploaded parts etags c) = end_ c
                 ∧ uploaded (mark_uploaded parts etags c)
                   = includes parts (index c + 1)
                 ∧ etag (mark_uploaded parts etags c)
                   = if includes parts (index c + 1)
                     then etags !! String_ (index c + 1) else None)
      (default [] (buildChunks size chunkSize [] ∅))
  ∧ buildChunks 25 10 [2] {["2" := "e1"]}
    = Some [mkChunk 0 0 10 false None; mkChunk 1 10 20 true (Some "e1");
            mkChunk 2 20 25 false None].
Proof.
  assert (Forall (λ c, uploaded c = false ∧ etag c = None)
            (default [] (buildChunks size chunkSize [] ∅))) as Hfresh.
  { destruct (buildChunks size chunkSize [] ∅) as [l|] eqn:Hl; [|constructor].
    simpl. eapply buildChunks_loop_fresh; [|exact Hl]. constructor. }
  split; [|split; [exact Hfresh|split]].
  - unfold buildChunks, buildChunks_fuel.
    apply (buildChunks_loop_resume size chunkSize parts etags _ [] 0 0).
  - eapply Forall_impl; [exact Hfresh|]. intros c [Hu He].
    unfold mark_uploaded. destruct (includes parts (index c + 1)); simpl; auto.
  - vm_compute. reflexivity.
Qed.

(** C9, evaluated where it fails: part 2 is reported as already uploaded but
    the etag table has no entry for it.  The chunk is marked
    [uploaded = true] and carries no etag. *)
Theorem buildChunks_uploaded_without_etag :
  buildChunks 25 10 [2] ∅
  = Some [mkChunk 0 0 10 false None; mkChunk 1 10 20 true None;
          mkChunk 2 20 25 false None]
  ∧ ∃ chunks c,
      buildChunks 25 10 [2] ∅ = Some chunks ∧ c ∈ chunks
      ∧ uploaded c = true ∧ has_etag c = false.
Proof.
  split; [reflexivity|].
  eexists _, (mkChunk 1 10 20 true None).
  split; [reflexivity|]. split; [|done]. set_solver.
Qed.

(** The half of C9 that the planner does keep: a chunk with an etag is a
    chunk marked uploaded. *)
Lemma buildChunks_etag_uploaded size chunkSize parts etags chunks c :
  buildChunks size chunkSize parts etags = Some chunks →
  c ∈ chunks → has_etag c = true → uploaded c = true.
Proof.
  intros Hb Hc He.
  pose proof (buildChunks_resume size chunkSize parts etags)
    as (Heq & Hfresh & _).
  rewrite Hb in Heq.
  destruct (buildChunks size chunkSize [] ∅) as [l|]; [|done].
  simpl in *. injection Heq as ->.
  apply list_elem_of_fmap in Hc as (c0 & -> & Hc0).
  rewrite Forall_forall in Hfresh. destruct (Hfresh _ Hc0) as [Hu He0].
  unfold mark_uploaded, has_etag in *.
  destruct (includes parts (index c0 + 1)); simpl in *; [done|].
  by rewrite He0 in He.
Qed.

(** ** Termination *)

(** C10.  [buildChunks] returns a (finite) chunk list for every
    [size >= 0] exactly when [chunkSize > 0].  For [size > 0] and
    [chunkSize <= 0] the loop variable never gets closer to [size]
    (the remaining range [size - start] does not shrink) and no amount of
    fuel makes the loop return. *)
Theorem buildChunks_terminates_iff chunkSize parts etags :
  ((∀ size, 0 ≤ size →
      ∃ fuel chunks,
        buildChunks_fuel fuel size chunkSize parts etags = Some chunks)
   ↔ 0 < chunkSize)
  ∧ (0 < chunkSize → ∀ size, 0 ≤ size →
       is_Some (buildChunks size chunkSize parts etags))
  ∧ (chunkSize ≤ 0 → ∀ size, 0 < size →
       (∀ start, size - start ≤ size - (start + chunkSize))
       ∧ (∀ fuel, buildChunks_fuel fuel size chunkSize parts etags = None)
       ∧ buildChunks size chunkSize parts etags = None).
Proof.
  assert (chunkSize ≤ 0 → ∀ size, 0 < size → ∀ fuel,
            buildChunks_fuel fuel size chunkSize parts etags = None) as Hstuck.
  { intros Hc size Hs fuel. by apply buildChunks_loop_stuck. }
  split; [split|split].
  - intros Hall. destruct (decide (0 < chunkSize)) as [|Hc]; [done|].
    destruct (Hall 1 ltac:(lia)) as (fuel & chunks & H).
    rewrite Hstuck in H by lia. done.
  - intros Hc size Hs. exists (S (Z.to_nat size)). eexists.
    by apply buildChunks_closed.
  - intros Hc size Hs. rewrite buildChunks_closed by done. by eexists.
  - intros Hc size Hs. split; [intros; lia|]. split; [by apply Hstuck|].
    by apply Hstuck.
Qed.

Lemma buildChunks_terminates_iff_witness :
  is_Some (buildChunks 25 10 [] ∅)
  ∧ (∀ fuel, buildChunks_fuel fuel 25 0 [] ∅ = None).
Proof.
  split.
  - apply (proj1 (proj2 (buildChunks_terminates_iff 10 [] ∅))); lia.
  - apply (proj2 (proj2 (buildChunks_terminates_iff 0 [] ∅))); lia.
Defined.

(* ================================================================== *)
(** * Properties of the upload queue *)

Implicit Types (us prev next : list UploadFileMeta) (m : Manager).
Implicit Types (id : string) (u : UploadFileMeta).

(** ** Maps over the records *)

Lemma fmap_preserves_ids (g : UploadFileMeta → UploadFileMeta) us :
  (∀ u, id_ (g u) = id_ u) → id_ <$> (g <$> us) = id_ <$> us.
Proof.
  intros Hg. rewrite <- list_fmap_compose. apply list_fmap_ext.
  intros i u _. apply Hg.
Qed.

Lemma update_upload_ids id f us :
  (∀ u, id_ (f u) = id_ u) → id_ <$> update_upload id f us = id_ <$> us.
Proof.
  intros Hf. apply fmap_preserves_ids. intros u. by case_bool_decide.
Qed.

Lemma update_upload_absent id f us :
  id ∉ id_ <$> us → update_upload id f us = us.
Proof.
  unfold update_upload. induction us as [|u us IH]; [done|].
  rewrite !fmap_cons, not_elem_of_cons. intros [Hne Hnin].
  rewrite bool_decide_eq_false_2 by congruence. by rewrite IH.
Qed.

Lemma alter_preserves_ids (g : UploadFileMeta → UploadFileMeta) us (i : nat) :
  (∀ u, id_ (g u) = id_ u) → id_ <$> alter g i us = id_ <$> us.
Proof.
  intros Hg. revert i. induction us as [|u us IH]; intros [|i]; simpl; [done..| |].
  - by rewrite Hg.
  - f_equal. apply IH.
Qed.

(** A map that never turns a record into an uploading one cannot raise the
    number of uploading records. *)
Lemma uploading_fmap_le (g : UploadFileMeta → UploadFileMeta) us :
  (∀ u, status (g u) = Uploading → status u = Uploading) →
  (length (filter (λ u, status u = Uploading) (g <$> us))
   ≤ length (filter (λ u, status u = Uploading) us))%nat.
Proof.
  intros Hg. induction us as [|u us IH]; [done|].
  rewrite fmap_cons, !filter_cons.
  destruct (decide (status (g u) = Uploading)) as [Hu|Hu].
  - rewrite decide_True by auto. simpl. lia.
  - case_decide; simpl; lia.
Qed.

Lemma uploading_alter_le (g : UploadFileMeta → UploadFileMeta) us (i : nat) :
  (∀ u, status (g u) = Uploading → status u = Uploading) →
  (length (filter (λ u, status u = Uploading) (alter g i us))
   ≤ length (filter (λ u, status u = Uploading) us))%nat.
Proof.
  intros Hg. revert i.
  induction us as [|u us IH]; intros [|i]; simpl; [done..| |].
  - rewrite !filter_cons.
    destruct (decide (status (g u) = Uploading)) as [Hu|Hu].
    + rewrite decide_True by auto. simpl. lia.
    + case_decide; simpl; lia.
  - rewrite !filter_cons. specialize (IH i).
    case_decide; simpl; [apply le_n_S|]; exact IH.
Qed.

(** ** Enqueue keeps ids distinct and starts nothing *)

Lemma addFiles_loop_invariant createUUID :
  Inj (=) (=) createUUID →
  ∀ files next pushed calls next' pushed' calls',
    addFiles_loop createUUID files next pushed calls = (next', pushed', calls') →
    NoDup (id_ <$> next) →
    (∀ k : nat, (calls ≤ k)%nat → createUUID k ∉ id_ <$> next) →
    NoDup (id_ <$> next')
    ∧ (∀ k : nat, (calls' ≤ k)%nat → createUUID k ∉ id_ <$> next')
    ∧ (length (filter (λ u, status u = Uploading) next')
       ≤ length (filter (λ u, status u = Uploading) next))%nat.
Proof.
  intros Hinj. induction files as [|file files IH];
    intros next pushed calls next' pushed' calls' Hrun Hnd Hfresh.
  { simpl in Hrun. by simplify_eq. }
  simpl in Hrun.
  destruct (Z.of_nat (length next) >=? MAX_FILES); [by simplify_eq|].
  destruct (File.size file >? MAX_FILE_SIZE_BYTES); [by eapply IH|].
  destruct (findIndex (placeholder_matches file) next) as [idx|].
  - apply IH in Hrun as (? & ? & Hc).
    + split_and!; [done..|]. etrans; [exact Hc|].
      apply uploading_alter_le. done.
    + by rewrite alter_preserves_ids.
    + intros k Hk. rewrite alter_preserves_ids by done. by apply Hfresh.
  - apply IH in Hrun as (? & ? & Hc).
    + split_and!; [done..|]. etrans; [exact Hc|].
      rewrite filter_app, length_app, filter_cons. simpl. lia.
    + rewrite fmap_app. apply NoDup_app. split_and!; [done| |].
      * intros x Hx ->%list_elem_of_singleton.
        by apply (Hfresh calls).
      * apply NoDup_singleton.
    + intros k Hk. rewrite fmap_app, not_elem_of_app. split.
      * apply Hfresh. lia.
      * simpl. rewrite list_elem_of_singleton. intros ?%Hinj. lia.
Qed.

(** ** No action but the promotion effect starts an upload *)

Lemma apply_action_invariant createUUID a m :
  Inj (=) (=) createUUID →
  ids_distinct createUUID m →
  ids_distinct createUUID (apply_action createUUID a m)
  ∧ (uploadingCount (apply_action createUUID a m) ≤ uploadingCount m)%nat.
Proof.
  intros Hinj [Hnd Hfresh]. unfold ids_distinct, uploadingCount.
  destruct a as [files|id|id|id|id f|id|id err]; simpl.
  - unfold addFilesToQueue.
    destruct (addFiles_loop createUUID files (uploads m) [] (uuid_calls m))
      as [[next pushed] calls] eqn:Hloop.
    simpl.
    destruct (addFiles_loop_invariant createUUID Hinj _ _ _ _ _ _ _
                Hloop Hnd Hfresh) as (? & ? & ?).
    done.
  - unfold pauseUpload. rewrite update_upload_ids by done.
    split; [done|]. apply uploading_fmap_le.
    intros u. repeat case_bool_decide; simpl; congruence.
  - unfold resumeUpload. rewrite fmap_preserves_ids.
    + split; [done|]. apply uploading_fmap_le.
      intros u. repeat case_bool_decide; simpl; congruence.
    + intros u. by destruct (_ && _).
  - unfold cancelUpload. rewrite update_upload_ids by done.
    split; [done|]. apply uploading_fmap_le.
    intros u. repeat case_bool_decide; simpl; congruence.
  - rewrite fmap_preserves_ids.
    + split; [done|]. apply uploading_fmap_le.
      intros u. destruct (_ && _); simpl; congruence.
    + intros u. by destruct (_ && _).
  - unfold startFileUpload_finish. rewrite fmap_preserves_ids.
    + split; [done|]. apply uploading_fmap_le.
      intros u. destruct (_ && _); simpl; congruence.
    + intros u. by destruct (_ && _).
  - unfold startFileUpload_catch, startFileUpload_catch_at. destruct (_ || _); [done|]. simpl.
    unfold startFileUpload_fail. rewrite update_upload_ids by done.
    split; [done|]. apply uploading_fmap_le.
    intros u. repeat case_bool_decide; simpl; congruence.
Qed.

(** With distinct ids, one [startFileUpload] moves at most one record to
    "uploading". *)
Lemma startFileUpload_begin_count id us :
  NoDup (id_ <$> us) →
  (length (filter (λ u, status u = Uploading) (startFileUpload_begin id us))
   ≤ S (length (filter (λ u, status u = Uploading) us)))%nat.
Proof.
  unfold startFileUpload_begin.
  induction us as [|x us IH]; [simpl; lia|].
  rewrite fmap_cons. intros [Hnin Hnd]%NoDup_cons.
  specialize (IH Hnd).
  set (f := λ u, set_error None (set_status Uploading u)) in *.
  change (update_upload id f (x :: us))
    with ((if bool_decide (id_ x = id) then f x else x)
            :: update_upload id f us).
  case_bool_decide as Hid.
  - subst id. rewrite update_upload_absent by done.
    rewrite !filter_cons. rewrite (decide_True _ _ (eq_refl : status (f x) = Uploading)).
    case_decide; simpl; lia.
  - rewrite !filter_cons. case_decide; simpl; lia.
Qed.

Lemma promotion_fold_count (targets : list UploadFileMeta) us :
  NoDup (id_ <$> us) →
  id_ <$> foldl (λ us u, startFileUpload_begin (id_ u) us) us targets
  = id_ <$> us
  ∧ (length (filter (λ u, status u = Uploading)
               (foldl (λ us u, startFileUpload_begin (id_ u) us) us targets))
     ≤ length (filter (λ u, status u = Uploading) us) + length targets)%nat.
Proof.
  revert us. induction targets as [|t targets IH]; intros us Hnd; simpl.
  { split; [done|lia]. }
  assert (id_ <$> startFileUpload_begin (id_ t) us = id_ <$> us) as Hids.
  { unfold startFileUpload_begin. by rewrite update_upload_ids. }
  destruct (IH (startFileUpload_begin (id_ t) us)) as [Hi Hc].
  { by rewrite Hids. }
  split; [by rewrite Hi|].
  pose proof (startFileUpload_begin_count (id_ t) us Hnd). lia.
Qed.

Lemma promotion_effect_invariant createUUID m :
  ids_distinct createUUID m →
  Z.of_nat (uploadingCount m) ≤ MAX_PARALLEL_FILES →
  ids_distinct createUUID (promotion_effect m)
  ∧ Z.of_nat (uploadingCount (promotion_effect m)) ≤ MAX_PARALLEL_FILES.
Proof.
  intros [Hnd Hfresh] Hc. unfold ids_distinct, uploadingCount in *. simpl.
  destruct (promotion_fold_count (nextToStart (uploads m)) (uploads m) Hnd)
    as [Hids Hcount].
  rewrite Hids. split; [done|].
  assert (Z.of_nat (length (nextToStart (uploads m)))
          ≤ MAX_PARALLEL_FILES
            - Z.of_nat (length (filter (λ u, status u = Uploading) (uploads m))))
    as Hlen.
  { unfold nextToStart. case_match eqn:Hcap; simpl; [lia|].
    rewrite length_take. apply Z.leb_gt in Hcap. lia. }
  lia.
Qed.

Lemma promotion_effect_full m :
  MAX_PARALLEL_FILES ≤ Z.of_nat (uploadingCount m) → promotion_effect m = m.
Proof.
  intros Hfull. unfold promotion_effect, nextToStart.
  fold (uploadingCount m).
  destruct (Z.leb_spec (MAX_PARALLEL_FILES - Z.of_nat (uploadingCount m)) 0);
    [|lia].
  by destruct m.
Qed.

Lemma history_invariant createUUID :
  Inj (=) (=) createUUID →
  ∀ acts m,
    ids_distinct createUUID m →
    Z.of_nat (uploadingCount m) ≤ MAX_PARALLEL_FILES →
    Forall (λ m, Z.of_nat (uploadingCount m) ≤ MAX_PARALLEL_FILES)
      (history createUUID acts m).
Proof.
  intros Hinj. induction acts as [|a acts IH]; intros m Hids Hc; simpl.
  { by repeat constructor. }
  destruct (apply_action_invariant createUUID a m Hinj Hids) as [Hids' Hc'].
  destruct (promotion_effect_invariant createUUID _ Hids' ltac:(lia))
    as [Hids'' Hc''].
  constructor; [done|]. constructor; [lia|]. by apply IH.
Qed.

(** ** One iteration of the enqueue loop *)

Lemma addFiles_loop_limit createUUID file files next pushed calls :
  MAX_FILES ≤ Z.of_nat (length next) →
  addFiles_loop createUUID (file :: files) next pushed calls
  = (next, pushed ++ [limit_snack], calls).
Proof.
  intros Hfull. simpl.
  by destruct (Z.geb_spec (Z.of_nat (length next)) MAX_FILES); [|lia].
Qed.

Lemma addFiles_loop_oversize createUUID file files next pushed calls :
  Z.of_nat (length next) < MAX_FILES →
  MAX_FILE_SIZE_BYTES < File.size file →
  addFiles_loop createUUID (file :: files) next pushed calls
  = addFiles_loop createUUID files next (pushed ++ [oversize_snack file]) calls.
Proof.
  intros Hroom Hbig. simpl.
  destruct (Z.geb_spec (Z.of_nat (length next)) MAX_FILES); [lia|].
  by destruct (Z.gtb_spec (File.size file) MAX_FILE_SIZE_BYTES); [|lia].
Qed.

Lemma addFiles_loop_new createUUID file files next pushed calls :
  Z.of_nat (length next) < MAX_FILES →
  File.size file ≤ MAX_FILE_SIZE_BYTES →
  findIndex (placeholder_matches file) next = None →
  addFiles_loop createUUID (file :: files) next pushed calls
  = addFiles_loop createUUID files
      (next ++ [new_upload (createUUID calls) file]) pushed (S calls).
Proof.
  intros Hroom Hsmall Hnone. simpl.
  destruct (Z.geb_spec (Z.of_nat (length next)) MAX_FILES); [lia|].
  destruct (Z.gtb_spec (File.size file) MAX_FILE_SIZE_BYTES); [lia|].
  by rewrite Hnone.
Qed.

Lemma addFiles_loop_resume createUUID file files next pushed calls idx :
  Z.of_nat (length next) < MAX_FILES →
  File.size file ≤ MAX_FILE_SIZE_BYTES →
  findIndex (placeholder_matches file) next = Some idx →
  addFiles_loop createUUID (file :: files) next pushed calls
  = addFiles_loop createUUID files (alter (attach_file file) idx next)
      (pushed ++ [resuming_snack file]) calls.
Proof.
  intros Hroom Hsmall Hsome. simpl.
  destruct (Z.geb_spec (Z.of_nat (length next)) MAX_FILES); [lia|].
  destruct (Z.gtb_spec (File.size file) MAX_FILE_SIZE_BYTES); [lia|].
  by rewrite Hsome.
Qed.

Ltac decide_ids createUUID Hinj :=
  repeat first
    [ rewrite (bool_decide_eq_true_2 (createUUID _ = createUUID _)) by done
    | rewrite (bool_decide_eq_false_2 (createUUID _ = createUUID _))
        by (intros ?%Hinj; lia)
    | progress cbn [id_ status new_upload set_status set_error set_completing] ].

Ltac decide_filters :=
  repeat (rewrite filter_cons;
          first [rewrite decide_True by (simpl; eauto)
                |rewrite decide_False by (simpl; intuition discriminate)]);
  rewrite !filter_nil.

Lemma enqueue_five createUUID f1 f2 f3 f4 f5 :
  Inj (=) (=) createUUID →
  Forall (λ f, File.size f ≤ MAX_FILE_SIZE_BYTES) [f1; f2; f3; f4; f5] →
  dispatch createUUID (AddFiles [f1; f2; f3; f4; f5]) initial_manager
  = mkManager
      [set_status Uploading (new_upload (createUUID 0%nat) f1);
       set_status Uploading (new_upload (createUUID 1%nat) f2);
       set_status Uploading (new_upload (createUUID 2%nat) f3);
       new_upload (createUUID 3%nat) f4; new_upload (createUUID 4%nat) f5]
      [] 5.
Proof.
  intros Hinj Hsz.
  repeat match goal with
         | H : Forall _ (_ :: _) |- _ => apply Forall_cons in H as [? H]
         end.
  unfold dispatch, apply_action, addFilesToQueue, initial_manager.
  cbn [uploads uuid_calls queue].
  do 5 (rewrite addFiles_loop_new;
        [|by (simpl; unfold MAX_FILES; lia)|done|done]).
  cbn [addFiles_loop app].
  unfold promotion_effect, nextToStart. cbn [uploads queue uuid_calls].
  decide_filters.
  change (MAX_PARALLEL_FILES - Z.of_nat (length []) <=? 0) with false.
  change (Z.to_nat (MAX_PARALLEL_FILES - Z.of_nat (length []))) with 3%nat.
  cbn [take foldl].
  unfold startFileUpload_begin, update_upload. cbn [fmap list_fmap].
  decide_ids createUUID Hinj.
  reflexivity.
Qed.

Lemma slot_freed createUUID f1 f2 f3 f4 f5 :
  Inj (=) (=) createUUID →
  status <$> uploads
    (dispatch createUUID (PipelineDone (createUUID 0%nat))
       (mkManager
          [set_status Uploading (new_upload (createUUID 0%nat) f1);
           set_status Uploading (new_upload (createUUID 1%nat) f2);
           set_status Uploading (new_upload (createUUID 2%nat) f3);
           new_upload (createUUID 3%nat) f4; new_upload (createUUID 4%nat) f5]
          [] 5))
  = [Done; Uploading; Uploading; Uploading; Queued].
Proof.
  intros Hinj.
  unfold dispatch, apply_action, with_uploads, startFileUpload_finish.
  cbn [uploads queue uuid_calls fmap list_fmap].
  decide_ids createUUID Hinj. cbn [andb].
  rewrite (bool_decide_eq_false_2 (Uploading = Paused)) by done.
  rewrite (bool_decide_eq_false_2 (Uploading = Canceled)) by done.
  cbn [andb negb].
  unfold promotion_effect, nextToStart. cbn [uploads queue uuid_calls].
  decide_filters.
  change (MAX_PARALLEL_FILES - Z.of_nat (length [_; _]) <=? 0) with false.
  change (Z.to_nat (MAX_PARALLEL_FILES - Z.of_nat (length [_; _])))
    with 1%nat.
  cbn [take foldl].
  unfold startFileUpload_begin, update_upload. cbn [fmap list_fmap].
  decide_ids createUUID Hinj.
  reflexivity.
Qed.

(** When the first update of every pipeline lands in the render that
    follows the effect which started it, and before anything else, as
    [dispatch] and [history] have it, every state the queue goes through
    has at most [MAX_PARALLEL_FILES] = 3 records with status "uploading",
    provided record ids are unique; while 3 records are uploading the
    promotion effect changes nothing; and when a pipeline ends the next
    queued record is promoted. *)
Lemma prompt_updates_keep_limit createUUID m0 acts :
  Inj (=) (=) createUUID →
  ids_distinct createUUID m0 →
  Z.of_nat (uploadingCount m0) ≤ MAX_PARALLEL_FILES →
  MAX_PARALLEL_FILES = 3
  ∧ Forall (λ m, Z.of_nat (uploadingCount m) ≤ MAX_PARALLEL_FILES)
      (history createUUID acts m0)
  ∧ (∀ m, MAX_PARALLEL_FILES ≤ Z.of_nat (uploadingCount m) →
          promotion_effect m = m)
  ∧ (∀ f1 f2 f3 f4 f5,
       Forall (λ f, File.size f ≤ MAX_FILE_SIZE_BYTES) [f1; f2; f3; f4; f5] →
       let m5 :=
         dispatch createUUID (AddFiles [f1; f2; f3; f4; f5]) initial_manager in
       status <$> uploads m5 = [Uploading; Uploading; Uploading; Queued; Queued]
       ∧ status <$> uploads
           (dispatch createUUID (PipelineDone (createUUID 0%nat)) m5)
         = [Done; Uploading; Uploading; Uploading; Queued]).
Proof.
  intros Hinj Hids Hc. split; [done|].
  split; [by apply history_invariant|].
  split; [apply promotion_effect_full|].
  intros f1 f2 f3 f4 f5 Hsz. cbv zeta.
  rewrite enqueue_five by done. split; [done|]. by apply slot_freed.
Qed.

(** ** Between renders *)

Lemma lands_all createUUID ids m cur :
  foldl (λ b t, tick createUUID t b) (mkBoard m cur ids)
    (replicate (length ids) Lands)
  = mkBoard
      (mkManager
         (foldl (λ us id, startFileUpload_begin id us) (uploads m) ids)
         (queue m) (uuid_calls m))
      cur [].
Proof.
  revert m. induction ids as [|id ids IH]; intros m.
  - by destruct m.
  - cbn [length replicate foldl tick starting].
    rewrite IH. by destruct m.
Qed.

(** [dispatch] is the schedule in which the effects run right after the
    action and every first update lands before anything else happens. *)
Lemma dispatch_ticks createUUID a m cur :
  let ids := id_ <$> nextToStart (uploads (apply_action createUUID a m)) in
  ticks createUUID (Does a :: Effects :: replicate (length ids) Lands)
    (mkBoard m cur [])
  = mkBoard (dispatch createUUID a m)
      (uploads (apply_action createUUID a m)) [].
Proof.
  cbv zeta.
  change (Does a :: Effects :: ?l) with ([Does a; Effects] ++ l).
  unfold ticks at 1. rewrite foldl_app.
  cbn [foldl tick landed current starting app].
  rewrite (lands_all createUUID). unfold dispatch, promotion_effect. f_equal. f_equal.
  generalize (uploads (apply_action createUUID a m)) at 1 3.
  induction (nextToStart (uploads (apply_action createUUID a m)))
    as [|u us IH]; intros l; [done|].
  cbn [fmap list_fmap foldl]. apply IH.
Qed.

(** C7.  Five files are enqueued and the effects of that commit call
    [startFileUpload] for the first three.  When the three updates land
    next, exactly the first three records are "uploading" and two are
    "queued".  When instead Cancel on the first record is committed before
    they land, its effects read four queued records and call
    [startFileUpload] for the second, third and fourth; the six updates then
    land, the first of them setting the canceled record to "uploading"
    (the update of lines 1053-1057 tests no status): four records are
    "uploading", one more than [MAX_PARALLEL_FILES] = 3. *)
Theorem uploading_exceeds_limit :
  let files := [File.mk "a" 10 1 ""; File.mk "b" 20 2 ""; File.mk "c" 30 3 "";
                File.mk "d" 40 4 ""; File.mk "e" 50 5 ""] in
  let fresh := mkBoard initial_manager [] [] in
  let decided := ticks pretty [Does (AddFiles files); Effects] fresh in
  let prompt := ticks pretty [Lands; Lands; Lands] decided in
  let canceled := ticks pretty [Does (Cancel "0"); Effects] decided in
  let late := ticks pretty [Lands; Lands; Lands; Lands; Lands; Lands] canceled in
  MAX_PARALLEL_FILES = 3
  ∧ id_ <$> uploads (landed decided) = ["0"; "1"; "2"; "3"; "4"]
  ∧ starting decided = ["0"; "1"; "2"]
  ∧ status <$> uploads (landed prompt)
    = [Uploading; Uploading; Uploading; Queued; Queued]
  ∧ starting prompt = []
  ∧ status <$> uploads (landed canceled)
    = [Canceled; Queued; Queued; Queued; Queued]
  ∧ starting canceled = ["0"; "1"; "2"; "1"; "2"; "3"]
  ∧ status <$> uploads (landed late)
    = [Uploading; Uploading; Uploading; Uploading; Queued]
  ∧ starting late = []
  ∧ uploadingCount (landed late) = 4%nat.
Proof. vm_compute. by repeat split. Qed.

(** ** Enqueue: limits and toasts *)







Lemma addFiles_loop_length createUUID :
  ∀ files next pushed calls,
    Z.of_nat (length (addFiles_loop createUUID files next pushed calls).1.1)
    ≤ Z.of_nat (length next) `max` MAX_FILES.
Proof.
  induction files as [|file files IH]; intros next pushed calls.
  { simpl. lia. }
  destruct (decide (MAX_FILES ≤ Z.of_nat (length next))) as [Hfull|Hroom].
  { rewrite addFiles_loop_limit by done. simpl. lia. }
  destruct (decide (MAX_FILE_SIZE_BYTES < File.size file)) as [Hbig|Hsmall].
  { rewrite addFiles_loop_oversize by lia. apply IH. }
  destruct (findIndex (placeholder_matches file) next) as [idx|] eqn:Hfind.
  - rewrite (addFiles_loop_resume _ _ _ _ _ _ idx) by (done || lia).
    etrans; [apply IH|]. rewrite length_alter. lia.
  - rewrite addFiles_loop_new by (done || lia).
    etrans; [apply IH|]. rewrite length_app. simpl. lia.
Qed.


Lemma addFiles_loop_toasts createUUID :
  ∀ files next pushed calls,
    (addFiles_loop createUUID files next pushed calls).1.2
    = pushed ++ (addFiles_loop createUUID files next [] calls).1.2.
Proof.
  induction files as [|file files IH]; intros next pushed calls.
  { simpl. by rewrite app_nil_r. }
  destruct (decide (MAX_FILES ≤ Z.of_nat (length next))) as [Hfull|Hroom].
  { by rewrite !addFiles_loop_limit by done. }
  destruct (decide (MAX_FILE_SIZE_BYTES < File.size file)) as [Hbig|Hsmall].
  { rewrite !addFiles_loop_oversize by lia.
    rewrite IH, (IH _ ([] ++ _)). by rewrite <- !app_assoc. }
  destruct (findIndex (placeholder_matches file) next) as [idx|] eqn:Hfind.
  - rewrite !(addFiles_loop_resume _ _ _ _ _ _ idx) by (done || lia).
    rewrite IH, (IH _ ([] ++ _)). by rewrite <- !app_assoc.
  - rewrite !addFiles_loop_new by (done || lia). apply IH.
Qed.





(* ================================================================== *)
(** * Properties of the retry loop *)

Implicit Types (st : PState) (w : World) (c chunkMeta : ChunkMeta).
Implicit Types (t body : list Event).

Ltac pipe_unfold :=
  unfold bind, ret, throw, running, emit, getUploads, setUploads, push,
    await in *; cbn [fst snd mgr ref log wire] in *.

(** ** What the code logs *)

Lemma report_progress_log w id pn attempt before (evts : list ProgressEvent) :
  ∀ (seen : nat) st,
    ∃ st' (bs : list Z),
      report_progress w id pn attempt before seen evts st = (Normal tt, st')
      ∧ log st' = log st ++ (EvBytes <$> bs).
Proof.
  induction evts as [|evt evts IH]; intros seen st; simpl.
  { exists st, []. pipe_unfold. by rewrite app_nil_r. }
  unfold onUploadProgress.
  destruct (negb (truthy_number (total evt))); pipe_unfold.
  - match goal with
    | |- context [report_progress _ _ _ _ _ _ _ ?s] =>
        destruct (IH (S seen) s) as (st' & bs & Hrun & Hlog)
    end.
    exists st', bs. by split.
  - match goal with
    | |- context [report_progress _ _ _ _ _ _ _ ?s] =>
        destruct (IH (S seen) s) as (st' & bs & Hrun & Hlog)
    end.
    exists st', ((before + loaded evt) :: bs). split; [done|].
    rewrite Hlog. simpl. by rewrite <- app_assoc.
Qed.

(** One pass through the [try] block: it logs the attempt and then the
    transfer, if it gets that far; it does not throw (what is thrown inside
    is caught and handed on as [Some _]); it stays unsettled only if the
    part-URL request does. *)
Lemma try_block_log w id meta c attempt st :
  ∃ r st' body,
    try_block w id meta c attempt st = (r, st')
    ∧ log st' = log st ++ EvAttempt (index c + 1) attempt :: body
    ∧ match r with
      | Normal None =>
          ∃ (bs : list Z) etag,
            body = EvPut (index c) (start c) (end_ c)
                     :: (EvBytes <$> bs) ++ [EvChunkUploaded (index c) etag]
      | Normal (Some _) => transfer_events c body
      | Running =>
          body = [] ∧ attempt_of w (index c + 1) attempt = PartUrlHangs
      | Thrown _ => False
      end.
Proof.
  unfold try_block, transfer_events. pipe_unfold.
  destruct (attempt_of w (index c + 1) attempt)
    as [|err|progress didStall didTimeout err|progress etagHeader].
  - eexists _, _, []. split; [done|]. split; [done|]. done.
  - eexists _, _, []. split; [done|]. split; [done|]. by left.
  - destruct (file meta); [|eexists _, _, []; split_and!; [done..|by left]].
    destruct (find_upload id _) as [u|];
      [|eexists _, _, []; split_and!; [done..|by left]].
    match goal with
    | |- context [report_progress w id ?p ?a ?b ?n progress ?s] =>
        destruct (report_progress_log w id p a b progress n s)
          as (st1 & bs & -> & Hlog)
    end.
    simpl in Hlog. eexists _, _, _. split; [done|].
    split; [rewrite Hlog, <- !app_assoc; reflexivity|]. right. by exists bs.
  - destruct (file meta); [|eexists _, _, []; split_and!; [done..|by left]].
    destruct (find_upload id _) as [u|];
      [|eexists _, _, []; split_and!; [done..|by left]].
    match goal with
    | |- context [report_progress w id ?p ?a ?b ?n progress ?s] =>
        destruct (report_progress_log w id p a b progress n s)
          as (st1 & bs & -> & Hlog)
    end.
    simpl in Hlog.
    destruct (truthy_string etagHeader); pipe_unfold.
    + eexists _, _, _. split; [done|]. simpl.
      split; [rewrite Hlog, <- !app_assoc; reflexivity|].
      exists (bs ++ [uploadedBytes u + (end_ c - start c)]),
        (default "" etagHeader).
      rewrite fmap_app, <- app_assoc. done.
    + eexists _, _, _. split; [done|].
      split; [rewrite Hlog, <- !app_assoc; reflexivity|]. right. by exists bs.
Qed.

(** The log of the retry loop has the shape [retry_trace] describes, and
    [retry_fuel] tests of the loop condition are enough: the loop is left
    unsettled only by a part-URL request that never settles. *)
Lemma retry_loop_trace w id meta c :
  ∀ (fuel : nat) a lastErr st,
    0 ≤ a ≤ CHUNK_MAX_RETRIES →
    (Z.to_nat (CHUNK_MAX_RETRIES - a) < fuel)%nat →
    ∃ r st' t,
      retry_loop fuel w id meta c a lastErr st = (r, st')
      ∧ log st' = log st ++ t
      ∧ retry_trace w c a r t.
Proof.
  induction fuel as [|fuel IH]; intros a lastErr st Ha Hfuel; [lia|].
  simpl. destruct (Z.leb_spec a CHUNK_MAX_RETRIES); [|lia].
  unfold bind at 1.
  destruct (try_block_log w id meta c a st)
    as (caught & st1 & body & -> & Hlog & Hbody).
  destruct caught as [[[[didStall didTimeout] err]|]|err|]; [| |done|].
  - pipe_unfold.
    destruct ((a >=? CHUNK_MAX_RETRIES) || negb (retriable didStall didTimeout err))
      eqn:Hstop.
    + eexists _, _, _. split; [done|]. simpl. rewrite Hlog.
      split; [rewrite <- app_assoc; reflexivity|].
      apply rt_fatal; [done|done|].
      apply orb_true_iff in Hstop as [Hge|Hnr].
      * left. apply Z.geb_le in Hge. lia.
      * right. by apply negb_true_iff.
    + apply orb_false_iff in Hstop as [Hlt Hr].
      rewrite Z.geb_leb in Hlt. apply Z.leb_gt in Hlt.
      apply negb_false_iff in Hr.
      match goal with
      | |- context [retry_loop fuel w id meta c (a + 1) (Some err) ?s] =>
          destruct (IH (a + 1) (Some err) s) as (r & st' & t & -> & Hlog' & Htr);
            [lia|lia|]
      end.
      eexists _, _, _. split; [done|]. rewrite Hlog'. simpl. rewrite Hlog.
      split; [rewrite <- !app_assoc; reflexivity|].
      apply (rt_retry w c a body didStall didTimeout err r t); [done|lia|done|done].
  - destruct Hbody as (bs & etag & ->). pipe_unfold.
    eexists _, _, _. split; [done|]. split; [exact Hlog|]. by apply rt_stored.
  - destruct Hbody as [-> Hhangs].
    eexists _, _, _. split; [done|]. split; [exact Hlog|]. by apply rt_hung.
Qed.

(** ** What a log of that shape tells *)

Lemma transfer_events_kinds c body ev :
  transfer_events c body → ev ∈ body →
  (ev = EvPut (index c) (start c) (end_ c)) ∨ ∃ n, ev = EvBytes n.
Proof.
  intros [->|(bs & ->)] Hin; [by apply elem_of_nil in Hin|].
  apply elem_of_cons in Hin as [->|Hin]; [by left|].
  apply list_elem_of_fmap in Hin as (n & -> & _). right. by exists n.
Qed.


Lemma retry_trace_head w c a r t :
  retry_trace w c a r t → ∃ t', t = EvAttempt (index c + 1) a :: t'.
Proof. destruct 1; eauto. Qed.

(** Attempts are numbered from [a] up to [CHUNK_MAX_RETRIES], failures
    likewise, and every event is about this chunk. *)
Ltac elem_cases H :=
  repeat first
    [ apply elem_of_nil in H; destruct H
    | apply elem_of_cons in H as [H|H]
    | apply elem_of_app in H as [H|H]
    | apply list_elem_of_fmap in H as (? & H & ?) ].

Ltac transfer_cases :=
  repeat match goal with
    | Hb : transfer_events ?c ?body, Hin : _ ∈ ?body |- _ =>
        destruct (transfer_events_kinds c body _ Hb Hin) as [?|[? ?]];
        clear Hin
    end.

Lemma retry_trace_numbers w c a r t :
  retry_trace w c a r t →
  (∀ p k, EvAttempt p k ∈ t → p = index c + 1 ∧ a ≤ k ≤ CHUNK_MAX_RETRIES)
  ∧ (∀ p k ds dt e, EvFailed p k ds dt e ∈ t →
       p = index c + 1 ∧ a ≤ k ≤ CHUNK_MAX_RETRIES)
  ∧ (∀ i s e, EvPut i s e ∈ t → i = index c ∧ s = start c ∧ e = end_ c)
  ∧ (∀ i e, EvChunkUploaded i e ∈ t → i = index c).
Proof.
  induction 1 as [a bs etag Ha|a body ds dt e Ha Hbody Hstop
                 |a body ds dt e r t Hbody Ha Hr Htr IH|a Ha].
  - split_and!; intros;
      match goal with H : _ ∈ _ |- _ => elem_cases H end;
      simplify_eq; (done || lia).
  - split_and!; intros;
      match goal with H : _ ∈ _ |- _ => elem_cases H end;
      transfer_cases; simplify_eq; (done || lia).
  - destruct IH as (IH1 & IH2 & IH3 & IH4).
    split_and!; intros;
      match goal with H : _ ∈ _ |- _ => elem_cases H end;
      transfer_cases; simplify_eq; try (done || lia).
    + match goal with H : _ ∈ t |- _ => apply IH1 in H end. lia.
    + match goal with H : _ ∈ t |- _ => apply IH2 in H end. lia.
    + match goal with H : _ ∈ t |- _ => by apply IH3 in H end.
    + match goal with H : _ ∈ t |- _ => by apply IH4 in H end.
  - split_and!; intros;
      match goal with H : _ ∈ _ |- _ => elem_cases H end;
      simplify_eq; (done || lia).
Qed.





(** A failed attempt is followed by another attempt exactly when retries are
    left and the failure is retriable. *)
Lemma retry_trace_retry_iff w c a r t :
  retry_trace w c a r t →
  ∀ k ds dt e,
    EvFailed (index c + 1) k ds dt e ∈ t →
    EvAttempt (index c + 1) (k + 1) ∈ t
    ↔ k < CHUNK_MAX_RETRIES ∧ retriable ds dt e = true.
Proof.
  induction 1 as [a bs etag Ha|a body ds' dt' e' Ha Hbody Hstop
                 |a body ds' dt' e' r t Hbody Ha Hr Htr IH|a Ha];
    intros k ds dt e Hin.
  - elem_cases Hin; simplify_eq.
  - elem_cases Hin; transfer_cases; simplify_eq. split.
    + intros Hnext. elem_cases Hnext; transfer_cases; simplify_eq. lia.
    + intros [Hlt Hret]. destruct Hstop; [lia|congruence].
  - destruct (retry_trace_head _ _ _ _ _ Htr) as [t' ->].
    elem_cases Hin; transfer_cases; simplify_eq.
    + split; [intros _; split; [lia|done]|]. intros _.
      apply elem_of_cons; right. apply elem_of_app; right. simpl.
      do 2 (apply elem_of_cons; right). apply elem_of_cons. by left.
    + pose proof (retry_trace_numbers _ _ _ _ _ Htr) as (_ & Hn & _).
      assert (EvFailed (index c + 1) k ds dt e
                ∈ EvAttempt (index c + 1) (a + 1) :: t') as Hin'
        by (by apply elem_of_cons; right).
      destruct (Hn _ _ _ _ _ Hin') as [_ Hk].
      rewrite <- (IH k ds dt e Hin'). split.
      * intros Hnext. elem_cases Hnext; transfer_cases; simplify_eq;
          try lia.
        by apply elem_of_cons; right.
      * intros Hnext. apply elem_of_cons; right.
        apply elem_of_app; right. simpl.
        by do 2 (apply elem_of_cons; right).
  - elem_cases Hin; simplify_eq.
Qed.

(** A failure that is not retried ends the loop on the spot: the loop throws
    that very error and logs nothing after it. *)
Lemma retry_trace_fatal w c a r t :
  retry_trace w c a r t →
  ∀ k ds dt e,
    EvFailed (index c + 1) k ds dt e ∈ t →
    k = CHUNK_MAX_RETRIES ∨ retriable ds dt e = false →
    r = Thrown e ∧ last t = Some (EvFailed (index c + 1) k ds dt e).
Proof.
  induction 1 as [a bs etag Ha|a body ds' dt' e' Ha Hbody Hstop
                 |a body ds' dt' e' r t Hbody Ha Hr Htr IH|a Ha];
    intros k ds dt e Hin Hfatal.
  - elem_cases Hin; simplify_eq.
  - elem_cases Hin; transfer_cases; simplify_eq. split; [done|].
    by rewrite app_comm_cons, last_snoc.
  - destruct (retry_trace_head _ _ _ _ _ Htr) as [t' ->].
    elem_cases Hin; transfer_cases; simplify_eq.
    + destruct Hfatal; [lia|congruence].
    + destruct (IH k ds dt e) as [-> Hlast];
        [by apply elem_of_cons; right|done|].
      split; [done|].
      rewrite app_comm_cons, !last_app, Hlast. done.
  - elem_cases Hin; simplify_eq.
Qed.



(** ** The classification *)

Lemma retriable_spec ds dt e :
  retriable ds dt e = true ↔ spec_retriable ds dt e.
Proof.
  unfold retriable, spec_retriable, truthy_number.
  destruct ds; [split; auto|]. destruct dt; [split; auto|].
  destruct (isAxiosError e); [|split; auto].
  destruct (response_status e) as [s|]; [|split; simpl; auto 10].
  simpl. rewrite !orb_true_iff, negb_involutive, Z.eqb_eq, Z.leb_le,
    !bool_decide_eq_true.
  split.
  - intros [[[[->|?]|?]|?]|?]; simplify_eq; eauto 15.
  - intros [?|[?|[?|[?|[?|[(s0 & ? & [?|[?|?]])|(s0 & ? & ?)]]]]]];
      simplify_eq; eauto 15.
Qed.

Lemma permanent_not_retriable ds dt e :
  permanent_4xx ds dt e → retriable ds dt e = false.
Proof.
  intros (-> & -> & Hax & s & Hs & Hrange & ? & ? & ?).
  apply not_true_iff_false. rewrite retriable_spec.
  unfold spec_retriable. rewrite Hax, Hs.
  intros [?|[?|[?|[?|[?|[(? & ? & ?)|(? & ? & ?)]]]]]]; simplify_eq; lia.
Qed.

(** C4.  In the retry loop of a chunk, a failed attempt that has retries
    left is followed by another attempt if and only if the failure is a
    stall, a hard timeout, an error without an HTTP response (connection or
    transport error; the missing-etag integrity error is one of these), or
    an HTTP response with status 429, 408, 403 or 500 and above; the code's
    [retriable] test is exactly this classification.  An HTTP response with
    any other 4xx status is never retried, whatever the attempt number: the
    loop throws that error at once and logs nothing after the failure. *)
Theorem retry_iff_retriable w id meta c m k ds dt e :
  let res := run (retry_loop retry_fuel w id meta c 0 None) m in
  EvFailed (index c + 1) k ds dt e ∈ log res.2 →
  (retriable ds dt e = true ↔ spec_retriable ds dt e)
  ∧ (k < CHUNK_MAX_RETRIES →
     EvAttempt (index c + 1) (k + 1) ∈ log res.2 ↔ spec_retriable ds dt e)
  ∧ (permanent_4xx ds dt e →
     res.1 = Thrown e
     ∧ last (log res.2) = Some (EvFailed (index c + 1) k ds dt e)
     ∧ EvAttempt (index c + 1) (k + 1) ∉ log res.2).
Proof.
  cbv zeta. unfold run.
  destruct (retry_loop_trace w id meta c retry_fuel 0 None
              (mkPState m (uploads m) [] [])) as (r & st' & t & -> & Hlog & Htr).
  { unfold CHUNK_MAX_RETRIES. lia. }
  { vm_compute. lia. }
  simpl in *. rewrite Hlog. intros Hin.
  pose proof (retry_trace_retry_iff _ _ _ _ _ Htr k ds dt e Hin) as Hiff.
  split; [apply retriable_spec|]. split.
  - intros Hk. rewrite Hiff, retriable_spec. tauto.
  - intros Hperm. pose proof (permanent_not_retriable _ _ _ Hperm) as Hnr.
    destruct (retry_trace_fatal _ _ _ _ _ Htr k ds dt e Hin) as [-> Hlast];
      [by right|].
    split_and!; [done..|]. rewrite Hiff. intros [_ ?]. congruence.
Qed.

Lemma retry_iff_retriable_witness :
  let res :=
    run (retry_loop retry_fuel third_part_flaky "0" one_mib_meta
           third_part 0 None) one_mib_queue in
  EvFailed 3 0 false false (http_error 500) ∈ log res.2
  ∧ (EvAttempt 3 1 ∈ log res.2 ↔ spec_retriable false false (http_error 500)).
Proof.
  assert (EvFailed 3 0 false false (http_error 500)
            ∈ log (run (retry_loop retry_fuel third_part_flaky "0"
                          one_mib_meta third_part 0 None) one_mib_queue).2)
    as Hin.
  { apply (@bool_decide_unpack _ (list_elem_of_dec _ _)).
    vm_compute. exact I. }
  split; [exact Hin|].
  apply (retry_iff_retriable third_part_flaky "0" one_mib_meta
           third_part one_mib_queue 0 false false (http_error 500) Hin).
  vm_compute. reflexivity.
Defined.

(* ================================================================== *)
(** * Properties of the pipeline *)

Lemma chunks_loop_unfold (fuel i : nat) w id meta :
  chunks_loop (S fuel) w id i meta
  = if bool_decide (i < length (chunks meta))%nat then
      let* current := getUploads in
      match find_upload id current with
      | None => throw TypeError_
      | Some meta =>
          if bool_decide (status meta = Paused)
             || bool_decide (status meta = Canceled)
          then throw (Error_ "canceled")
          else
            match chunks meta !! i with
            | None => throw TypeError_
            | Some chunkMeta =>
                if uploaded chunkMeta then
                  chunks_loop fuel w id (S i) meta
                else
                  let* lastErr :=
                    retry_loop retry_fuel w id meta chunkMeta 0 None in
                  match lastErr with
                  | Some err => throw err
                  | None => chunks_loop fuel w id (S i) meta
                  end
            end
      end
    else ret tt.
Proof. reflexivity. Qed.

Lemma retry_trace_result w c a r t :
  retry_trace w c a r t →
  r = Normal None ∨ (∃ err, r = Thrown err) ∨ r = Running.
Proof. induction 1; eauto. Qed.

(** ** What the chunk loop logs *)

Lemma chunks_loop_log w id :
  ∀ (fuel i : nat) meta st,
    ∃ r st' t,
      chunks_loop fuel w id i meta st = (r, st')
      ∧ log st' = log st ++ t
      ∧ upload_trace w r t.
Proof.
  induction fuel as [|fuel IH]; intros i meta st.
  { exists Running, st, []. rewrite app_nil_r. split_and!; [done..|constructor]. }
  rewrite chunks_loop_unfold. case_bool_decide.
  2:{ exists (Normal tt), st, []. rewrite app_nil_r.
      split_and!; [done..|constructor]. }
  pipe_unfold.
  destruct (find_upload id (ref st)) as [meta'|].
  2:{ eexists _, st, []. rewrite app_nil_r. split_and!; [done..|constructor]. }
  destruct (_ || _).
  { eexists _, st, []. rewrite app_nil_r. split_and!; [done..|constructor]. }
  destruct (chunks meta' !! i) as [c|].
  2:{ eexists _, st, []. rewrite app_nil_r. split_and!; [done..|constructor]. }
  destruct (uploaded c); [apply IH|].
  destruct (retry_loop_trace w id meta' c retry_fuel 0 None st)
    as (r1 & st1 & t1 & -> & Hlog1 & Htr1);
    [unfold CHUNK_MAX_RETRIES; lia|vm_compute; lia|].
  destruct (retry_trace_result _ _ _ _ _ Htr1) as [->|[[err ->]| ->]].
  - destruct (IH (S i) meta' st1) as (r & st' & t & -> & Hlog & Htr).
    exists r, st', (t1 ++ t). split; [done|].
    split; [by rewrite Hlog, Hlog1, app_assoc|]. by eapply ut_stored.
  - exists (Thrown err), st1, t1. split_and!; [done..|]. by eapply ut_failed.
  - exists Running, st1, t1. split_and!; [done..|]. by eapply ut_hung.
Qed.

Lemma uploadChunks_log w id st :
  ∃ r st' t,
    uploadChunksSequentiallyWithRetry w id st = (r, st')
    ∧ log st' = log st ++ t
    ∧ upload_trace w r t.
Proof.
  unfold uploadChunksSequentiallyWithRetry. pipe_unfold.
  destruct (find_upload id (ref st)) as [meta|].
  2:{ eexists _, st, []. rewrite app_nil_r. split_and!; [done..|constructor]. }
  destruct (negb (truthy_string (uploadId meta))).
  { eexists _, st, []. rewrite app_nil_r. split_and!; [done..|constructor]. }
  destruct (negb (bool_decide (is_Some (file meta)))).
  { eexists _, st, []. rewrite app_nil_r. split_and!; [done..|constructor]. }
  apply chunks_loop_log.
Qed.


(** ** What the other steps log *)

Lemma ensureUploadSession_log w id st :
  ∃ r st' pre,
    ensureUploadSession w id st = (r, st')
    ∧ log st' = log st ++ pre
    ∧ (∀ ev, ev ∈ pre → is_failure ev = false)
    ∧ ∀ busy, scan_puts busy pre = Some busy.
Proof.
  unfold ensureUploadSession. pipe_unfold.
  assert (∀ ev : Event, ev ∈ [] → is_failure ev = false) as Hnil
    by (intros ev Hin; by apply elem_of_nil in Hin).
  destruct (find_upload id (ref st)) as [meta|];
    [|eexists _, st, []; by rewrite app_nil_r].
  destruct (_ && _); [eexists _, st, []; by rewrite app_nil_r|].
  destruct (_ && _); [eexists _, st, []; by rewrite app_nil_r|].
  destruct (file meta) as [f|]; [|eexists _, st, []; by rewrite app_nil_r].
  cbn [mgr ref log wire].
  assert (∀ ev, ev ∈ [EvInitiate
                        (if bool_decide (fileName meta = "") then File.name f
                         else fileName meta)
                        (if bool_decide (File.type_ f = "")
                         then "application/octet-stream" else File.type_ f)
                        (File.size f)] → is_failure ev = false) as Hone
    by (by intros ev ->%list_elem_of_singleton).
  destruct (initiate_response w) as [[err|resp]|];
    [eexists _, _, _; split_and!; [reflexivity|reflexivity|exact Hone|done]|
    |eexists _, _, _; split_and!; [reflexivity|reflexivity|exact Hone|done]].
  destruct (bool_decide (init_allowed resp = Some false));
    [eexists _, _, _; split_and!; [reflexivity|reflexivity|exact Hone|done]|].
  destruct (match init_remainingBytes resp with Some _ => _ | None => _ end);
    [eexists _, _, _; split_and!; [reflexivity|reflexivity|exact Hone|done]|].
  destruct (buildChunks _ _ _ _);
    eexists _, _, _; (split_and!; [reflexivity|reflexivity|exact Hone|done]).
Qed.

Lemma after_upload_log id w st :
  ∃ r st' post,
    (finalizeUpload w id ;;;
     setUploads (startFileUpload_finish id) ;;;
     let* current := getUploads in
     push ("✅ Uploaded "
           +:+ match find_upload id current with
               | Some u =>
                   if bool_decide (fileName u = "") then "file" else fileName u
               | None => "file"
               end) SevSuccess) st = (r, st')
    ∧ log st' = log st ++ post
    ∧ (∀ ev, ev ∈ post → is_failure ev = false)
    ∧ ∀ busy, scan_puts busy post = Some busy.
Proof.
  unfold finalizeUpload. pipe_unfold.
  assert (∀ ev : Event, ev ∈ [] → is_failure ev = false) as Hnil
    by (intros ev Hin; by apply elem_of_nil in Hin).
  destruct (find_upload id (ref st)) as [meta|];
    [|eexists _, _, []; simpl; by rewrite app_nil_r].
  destruct (negb _); [eexists _, _, []; simpl; by rewrite app_nil_r|].
  destruct (existsb _ _); [eexists _, _, []; simpl; by rewrite app_nil_r|].
  destruct (complete_response w) as [[err|url]|];
    (eexists _, _, _; simpl; split_and!; [done|done| |done];
     by intros ev ->%list_elem_of_singleton).
Qed.

(** ** Where a thrown error ends up *)

Lemma find_upload_id id us u : find_upload id us = Some u → id_ u = id.
Proof.
  unfold find_upload. intros [_ H]%find_some. by apply bool_decide_eq_true in H.
Qed.

Lemma find_upload_fmap id (g : UploadFileMeta → UploadFileMeta) us :
  (∀ u, id_ (g u) = id_ u) →
  find_upload id (g <$> us) = g <$> find_upload id us.
Proof.
  intros Hg. unfold find_upload. induction us as [|u us IH]; [done|].
  simpl. rewrite Hg. by destruct (bool_decide (id_ u = id)).
Qed.

Lemma find_upload_update id f us u :
  (∀ u, id_ (f u) = id_ u) →
  find_upload id us = Some u →
  find_upload id (update_upload id f us) = Some (f u).
Proof.
  intros Hf Hu. unfold update_upload. rewrite find_upload_fmap.
  - rewrite Hu. simpl. by rewrite (find_upload_id _ _ _ Hu), bool_decide_eq_true_2.
  - intros u'. by case_bool_decide.
Qed.

(** The [catch] block of [startFileUpload]: a paused or canceled record is
    left alone, any other record becomes an errored one. *)
Lemma startFileUpload_catch_spec id err m u :
  find_upload id (uploads m) = Some u →
  (status u = Paused ∨ status u = Canceled →
   startFileUpload_catch id err m = m)
  ∧ (status u ≠ Paused → status u ≠ Canceled →
     ∃ u', find_upload id (uploads (startFileUpload_catch id err m)) = Some u'
           ∧ status u' = Error
           ∧ error u' = Some (failure_message err)
           ∧ queue (startFileUpload_catch id err m)
             = queue m ++ [mkSnack ("⚠️ " +:+ failure_message err) SevError]).
Proof.
  intros Hu. unfold startFileUpload_catch, startFileUpload_catch_at. rewrite Hu. simpl. split.
  - intros [->| ->]; by repeat case_bool_decide.
  - intros Hp Hc.
    rewrite !bool_decide_eq_false_2 by congruence. simpl.
    eexists. split.
    + unfold startFileUpload_fail. by apply find_upload_update.
    + done.
Qed.

(** The same, when the status is read from a snapshot [current] that need
    not be the state the block acts on. *)
Lemma startFileUpload_catch_at_spec id err (current : list UploadFileMeta) m :
  (∀ u, find_upload id current = Some u →
        status u = Paused ∨ status u = Canceled →
        startFileUpload_catch_at id err current m = m)
  ∧ ((∀ u, find_upload id current = Some u →
           status u ≠ Paused ∧ status u ≠ Canceled) →
     queue (startFileUpload_catch_at id err current m)
     = queue m ++ [mkSnack ("⚠️ " +:+ failure_message err) SevError]
     ∧ ∀ u1, find_upload id (uploads m) = Some u1 →
         ∃ u', find_upload id
                 (uploads (startFileUpload_catch_at id err current m))
               = Some u'
               ∧ status u' = Error
               ∧ error u' = Some (failure_message err)).
Proof.
  unfold startFileUpload_catch_at. split.
  - intros u -> Hst. simpl. destruct Hst as [Hst|Hst]; rewrite Hst;
      by repeat case_bool_decide.
  - intros Hseen.
    assert (bool_decide (status <$> find_upload id current = Some Paused)
            || bool_decide (status <$> find_upload id current = Some Canceled)
            = false) as ->.
    { destruct (find_upload id current) as [u|] eqn:Hu; [|done].
      destruct (Hseen u eq_refl). simpl.
      rewrite !bool_decide_eq_false_2; [done|congruence..]. }
    split; [done|]. intros u1 Hu1. eexists. split.
    + unfold startFileUpload_fail. simpl. by apply find_upload_update.
    + done.
Qed.


(** ** The retry policy *)




(** ** Byte counts *)

(** C6, evaluated where it fails.  A 10-byte file in one part.  The first
    pipeline of the file sets up the session and sends no part; the user
    clicks Resume.  In the second pipeline the first PUT reports 7 bytes
    and fails with HTTP 500, and the retry stores the part: the retry takes
    its snapshot [uploadedBytesBefore] after the 7 bytes of the failed
    attempt were written, so [uploadedBytes] is written 7, 17 and 17, and
    the record ends "done" with 17 uploaded bytes of a 10-byte file. *)
Theorem uploadedBytes_exceeds_fileSize :
  let first := run (startFileUpload flaky_once "0") (added ten_bytes) in
  let before := resumed flaky_once ten_bytes in
  let res := run (startFileUpload flaky_once "0") before in
  log first.2 = [EvInitiate "a.bin" "application/octet-stream" 10]
  ∧ (λ u, (status u, uploadId u, uploadedBytes u, chunks u))
      <$> uploads before
    = [(Queued, Some "u1", 0, [mkChunk 0 0 10 false None])]
  ∧ res.1 = Normal tt
  ∧ bytes_written (log res.2) = [7; 17; 17]
  ∧ (λ u, (status u, fileSize u, uploadedBytes u)) <$> uploads (mgr res.2)
    = [(Done, 10, 17)]
  ∧ ∃ u, find_upload "0" (uploads (mgr res.2)) = Some u
         ∧ fileSize u < uploadedBytes u.
Proof.
  vm_compute. split_and!; try reflexivity.
  eexists. split; [reflexivity|]. reflexivity.
Qed.

(* ================================================================== *)
(** * The parts of a file, one after the other *)

(** ** One pipeline *)

Lemma scan_puts_app busy t1 t2 :
  scan_puts busy (t1 ++ t2) = scan_puts busy t1 ≫= λ b, scan_puts b t2.
Proof.
  revert busy. induction t1 as [|ev t1 IH]; intros busy; [done|].
  destruct ev; simpl; try apply IH. by destruct busy.
Qed.

Lemma scan_puts_bytes busy (bs : list Z) :
  scan_puts busy (EvBytes <$> bs) = Some busy.
Proof. induction bs as [|b bs IH]; [done|]. exact IH. Qed.

(** No PUT of a retry loop is issued while another is in flight. *)
Lemma retry_trace_scan w c a r t :
  retry_trace w c a r t → scan_puts false t = Some false.
Proof.
  induction 1 as [a bs etag Ha|a body ds dt e Ha Hbody Hstop
                 |a body ds dt e r t Hbody Ha Hret Htr IH|a Ha Hhangs].
  - simpl. by rewrite scan_puts_app, scan_puts_bytes.
  - simpl. rewrite scan_puts_app.
    destruct Hbody as [->|(bs & ->)]; [done|].
    simpl. by rewrite scan_puts_bytes.
  - simpl. rewrite scan_puts_app.
    destruct Hbody as [->|(bs & ->)]; [done|].
    simpl. by rewrite scan_puts_bytes.
  - done.
Qed.

Lemma upload_trace_scan w r t :
  upload_trace w r t → scan_puts false t = Some false.
Proof.
  induction 1 as [|err| |c t1 r t Htr1 Hrest IH|c err t1 Htr1|c t1 Htr1];
    try done.
  - by rewrite scan_puts_app, (retry_trace_scan _ _ _ _ _ Htr1).
  - by apply (retry_trace_scan _ _ _ _ _ Htr1).
  - by apply (retry_trace_scan _ _ _ _ _ Htr1).
Qed.

(** Whatever the backend and the user do, one pipeline sends its parts one
    after the other: in the requests of one call of [startFileUpload], no
    PUT is issued while another PUT of that call has not settled (stored or
    failed), and at the end none is left in flight. *)
Theorem own_puts_in_turn w id m :
  scan_puts false (log (run (startFileUpload w id) m).2) = Some false.
Proof.
  unfold run, startFileUpload, try_catch, startFileUpload_try.
  unfold bind at 1. unfold setUploads at 1. cbn [mgr ref log wire].
  set (st0 := mkPState (with_uploads (startFileUpload_begin id) m)
                (uploads m) [] []).
  unfold bind at 1.
  destruct (ensureUploadSession_log w id st0)
    as (r1 & st1 & pre & -> & Hlog1 & _ & Hpre).
  simpl in Hlog1.
  destruct r1 as [[]|err1|]; [|by simpl; rewrite Hlog1..].
  unfold bind at 1.
  destruct (uploadChunks_log w id st1) as (r2 & st2 & t & -> & Hlog2 & Htr).
  rewrite Hlog1 in Hlog2.
  assert (scan_puts false (log st2) = Some false) as Hscan2.
  { rewrite Hlog2, scan_puts_app, Hpre. simpl.
    by apply (upload_trace_scan w r2). }
  destruct r2 as [[]|err2|]; [|done..].
  destruct (after_upload_log id w st2)
    as (r3 & st3 & post & -> & Hlog3 & _ & Hpost).
  assert (scan_puts false (log st3) = Some false) as Hscan3.
  { rewrite Hlog3, scan_puts_app, Hscan2. simpl. apply Hpost. }
  by destruct r3 as [[]|err3|].
Qed.

(** ** Two pipelines for one file *)

(** C3, evaluated where it fails.  A 20-byte file in two parts whose record
    has its session and is "queued": the promotion effect starts its
    pipeline.  While the first PUT of part 1 is in flight the user clicks
    Pause and then Resume.  Nothing stops the PUT: the [AbortController]
    that [pauseUpload] aborts (line 970) is the one stored at line 1186,
    and the PUT is given another one (lines 1216 and 1239); the pipeline
    looks at the status only between chunks (line 1195).  The record is
    "queued" again, so the promotion effect of the next commit starts a
    second pipeline for the file.  It sends part 1, whose first PUT is
    still in flight, and part 2.  The first PUT then fails, and the first
    pipeline sends part 1 once more, although the part is marked uploaded
    by now.  [log] holds the requests of the first pipeline, [wire] those
    of both. *)
Theorem second_pipeline_overlaps :
  let before := resumed steady twenty_bytes in
  let res := run (startFileUpload overtaken "0") before in
  (λ u, (status u, has_session u, uploaded <$> chunks u)) <$> uploads before
  = [(Queued, true, [false; false])]
  ∧ res.1 = Normal tt
  ∧ log res.2
    = [EvAttempt 1 0; EvPut 0 0 10;
       EvFailed 1 0 false false (http_error 500); EvSleep 800;
       EvAttempt 1 1; EvPut 0 0 10; EvBytes 30; EvChunkUploaded 0 "e-first";
       EvComplete "u7" [(1, "e-second"); (2, "e-second")]]
  ∧ wire res.2
    = [EvAttempt 1 0; EvPut 0 0 10;
       EvAttempt 1 0; EvPut 0 0 10; EvBytes 10; EvChunkUploaded 0 "e-second";
       EvAttempt 2 0; EvPut 1 10 20; EvBytes 20; EvChunkUploaded 1 "e-second";
       EvFailed 1 0 false false (http_error 500); EvSleep 800;
       EvAttempt 1 1; EvPut 0 0 10; EvBytes 30; EvChunkUploaded 0 "e-first";
       EvComplete "u7" [(1, "e-second"); (2, "e-second")]]
  ∧ scan_puts false (wire res.2) = None
  ∧ omap event_chunk (wire res.2) = [0; 0; 0; 0; 0; 1; 1; 1; 0; 0; 0; 0]
  ∧ (∃ t1 t2 etag,
       wire res.2 = t1 ++ EvPut 0 0 10 :: t2
       ∧ EvChunkUploaded 0 etag ∈ t1)
  ∧ (λ u, (status u, fileSize u, uploadedBytes u, etag <$> chunks u))
      <$> uploads (mgr res.2)
    = [(Done, 20, 30, [Some "e-first"; Some "e-second"])].
Proof.
  vm_compute. split_and!; try reflexivity.
  exists [EvAttempt 1 0; EvPut 0 0 10;
          EvAttempt 1 0; EvPut 0 0 10; EvBytes 10;
          EvChunkUploaded 0 "e-second";
          EvAttempt 2 0; EvPut 1 10 20; EvBytes 20;
          EvChunkUploaded 1 "e-second";
          EvFailed 1 0 false false (http_error 500); EvSleep 800;
          EvAttempt 1 1],
    [EvBytes 30; EvChunkUploaded 0 "e-first";
     EvComplete "u7" [(1, "e-second"); (2, "e-second")]], "e-second".
  split; [reflexivity|].
  apply (@bool_decide_unpack _ (list_elem_of_dec _ _)). vm_compute. exact I.
Qed.

(* ================================================================== *)
(** * Beyond the upload of one file *)

Implicit Types (restored : list UploadFileMeta).

(* ================================================================== *)
(** * The queue over a session *)

(** ** Records stay where they are *)

Lemma stays_refl us : stays us us.
Proof. intros i u Hu. eauto. Qed.

Lemma stays_trans us1 us2 us3 : stays us1 us2 → stays us2 us3 → stays us1 us3.
Proof.
  intros H1 H2 i u Hu. destruct (H1 i u Hu) as (u' & Hu' & Hid & Hs).
  destruct (H2 i u' Hu') as (u'' & Hu'' & Hid' & Hs').
  exists u''. split; [done|]. split; congruence.
Qed.

Lemma stays_fmap (h : UploadFileMeta → UploadFileMeta) us :
  (∀ u, id_ (h u) = id_ u) → (∀ u, session_of (h u) = session_of u) →
  stays us (h <$> us).
Proof.
  intros Hid Hs i u Hu. exists (h u). by rewrite list_lookup_fmap, Hu.
Qed.

Lemma stays_update id f us :
  (∀ u, id_ (f u) = id_ u) → (∀ u, session_of (f u) = session_of u) →
  stays us (update_upload id f us).
Proof. intros Hid Hs. apply stays_fmap; intros u; by case_bool_decide. Qed.

Lemma stays_alter (h : UploadFileMeta → UploadFileMeta) (idx : nat) us :
  (∀ u, id_ (h u) = id_ u) → (∀ u, session_of (h u) = session_of u) →
  stays us (alter h idx us).
Proof.
  intros Hid Hs i u Hu. destruct (decide (i = idx)) as [->|Hne].
  - exists (h u). by rewrite list_lookup_alter_eq, Hu.
  - exists u. by rewrite list_lookup_alter_ne.
Qed.

Lemma stays_app us (extra : list UploadFileMeta) : stays us (us ++ extra).
Proof. intros i u Hu. exists u. split; [by apply lookup_app_l_Some|done]. Qed.

Lemma stays_addFiles_loop createUUID :
  ∀ files next pushed calls,
    stays next (addFiles_loop createUUID files next pushed calls).1.1.
Proof.
  induction files as [|file files IH]; intros next pushed calls.
  { apply stays_refl. }
  simpl. destruct (_ >=? _); [apply stays_refl|].
  destruct (_ >? _); [apply IH|].
  destruct (findIndex _ _) as [idx|].
  - eapply stays_trans; [|apply IH]. by apply stays_alter.
  - eapply stays_trans; [|apply IH]. apply stays_app.
Qed.

Lemma stays_apply_action createUUID a m :
  stays (uploads m) (uploads (apply_action createUUID a m)).
Proof.
  destruct a as [files|id'|id'|id'|id' f|id'|id' err]; simpl.
  - unfold addFilesToQueue.
    pose proof (stays_addFiles_loop createUUID files (uploads m) []
                  (uuid_calls m)) as Ht.
    by destruct (addFiles_loop _ _ _ _ _) as [[??]?].
  - by apply stays_update.
  - apply stays_fmap; intros u; by destruct (_ && _).
  - by apply stays_update.
  - apply stays_fmap; intros u; by destruct (_ && _).
  - apply stays_fmap; intros u; by destruct (_ && _).
  - unfold startFileUpload_catch, startFileUpload_catch_at. destruct (_ || _); [apply stays_refl|].
    by apply stays_update.
Qed.

Lemma stays_promotion_effect m :
  stays (uploads m) (uploads (promotion_effect m)).
Proof.
  unfold promotion_effect. simpl.
  generalize (nextToStart (uploads m)). generalize (uploads m).
  intros us targets. revert us.
  induction targets as [|x targets IH]; intros us; [apply stays_refl|].
  simpl. eapply stays_trans; [|apply IH]. by apply stays_update.
Qed.

Lemma stays_batch createUUID acts m :
  stays (uploads m)
    (uploads (foldl (λ m a, apply_action createUUID a m) m acts)).
Proof.
  revert m. induction acts as [|a acts IH]; intros m; [apply stays_refl|].
  simpl. eapply stays_trans; [apply (stays_apply_action createUUID a)|apply IH].
Qed.

Lemma stays_session_step createUUID m m' :
  session_step createUUID m m' → stays (uploads m) (uploads m').
Proof.
  intros [acts _|id|id err].
  - eapply stays_trans; [apply (stays_batch createUUID acts)|].
    apply stays_promotion_effect.
  - eapply stays_trans; [apply (stays_apply_action createUUID)|].
    apply stays_promotion_effect.
  - eapply stays_trans; [apply (stays_apply_action createUUID)|].
    apply stays_promotion_effect.
Qed.

(** Whatever happens in a session (clicks on rows and on the toolbar, drops,
    pipelines that end), and whatever list of actions is dispatched, one by
    one or in one commit: a record of the queue is never removed and never
    moved, it keeps its id, and its file name, file size, byte count, upload
    id, chunk size, chunk list and file URL are left as they are. *)
Theorem records_stay createUUID m :
  (∀ m', rtc (session_step createUUID) m m' → stays (uploads m) (uploads m'))
  ∧ (∀ acts, stays (uploads m) (uploads (dispatch_all createUUID acts m)))
  ∧ (∀ acts, stays (uploads m) (uploads (commit createUUID acts m))).
Proof.
  split_and!.
  - induction 1 as [|m1 m2 m3 Hstep _ IH]; [apply stays_refl|].
    eapply stays_trans; [|exact IH]. by apply (stays_session_step createUUID).
  - intros acts. revert m.
    induction acts as [|a acts IH]; intros m; [apply stays_refl|].
    simpl. eapply stays_trans; [|apply IH].
    eapply stays_trans; [apply (stays_apply_action createUUID a)|].
    apply stays_promotion_effect.
  - intros acts. eapply stays_trans; [apply (stays_batch createUUID acts)|].
    apply stays_promotion_effect.
Qed.

(** ** The queue never outgrows its limit *)

Lemma length_apply_action createUUID a m :
  Z.of_nat (length (uploads (apply_action createUUID a m)))
  ≤ Z.of_nat (length (uploads m)) `max` MAX_FILES.
Proof.
  destruct a as [files|id'|id'|id'|id' f|id'|id' err]; simpl;
    rewrite ?length_fmap; try lia.
  - unfold addFilesToQueue.
    pose proof (addFiles_loop_length createUUID files (uploads m) []
                  (uuid_calls m)) as Ht.
    by destruct (addFiles_loop _ _ _ _ _) as [[??]?].
  - unfold pauseUpload, update_upload. rewrite length_fmap. lia.
  - unfold resumeUpload. rewrite length_fmap. lia.
  - unfold cancelUpload, update_upload. rewrite length_fmap. lia.
  - unfold startFileUpload_finish. rewrite length_fmap. lia.
  - unfold startFileUpload_catch, startFileUpload_catch_at. destruct (_ || _); [lia|]. simpl.
    unfold startFileUpload_fail, update_upload. rewrite length_fmap. lia.
Qed.

Lemma length_promotion_effect m :
  length (uploads (promotion_effect m)) = length (uploads m).
Proof.
  unfold promotion_effect. simpl.
  generalize (nextToStart (uploads m)). generalize (uploads m).
  intros us targets. revert us.
  induction targets as [|x targets IH]; intros us; [done|].
  simpl. rewrite IH. unfold startFileUpload_begin, update_upload.
  by rewrite length_fmap.
Qed.

Lemma ids_promotion_effect m :
  id_ <$> uploads (promotion_effect m) = id_ <$> uploads m.
Proof.
  unfold promotion_effect. simpl.
  generalize (nextToStart (uploads m)). generalize (uploads m).
  intros us targets. revert us.
  induction targets as [|x targets IH]; intros us; [done|].
  simpl. rewrite IH. unfold startFileUpload_begin. by rewrite update_upload_ids.
Qed.

Lemma ids_apply_action_full createUUID a m :
  MAX_FILES ≤ Z.of_nat (length (uploads m)) →
  id_ <$> uploads (apply_action createUUID a m) = id_ <$> uploads m.
Proof.
  intros Hfull. destruct a as [files|id'|id'|id'|id' f|id'|id' err]; simpl.
  - unfold addFilesToQueue. destruct files as [|file files]; [done|].
    by rewrite addFiles_loop_limit.
  - unfold pauseUpload. by rewrite update_upload_ids.
  - unfold resumeUpload. apply fmap_preserves_ids. intros u. by destruct (_ && _).
  - unfold cancelUpload. by rewrite update_upload_ids.
  - apply fmap_preserves_ids. intros u. by destruct (_ && _).
  - apply fmap_preserves_ids. intros u. by destruct (_ && _).
  - unfold startFileUpload_catch, startFileUpload_catch_at. destruct (_ || _); [done|]. simpl.
    unfold startFileUpload_fail. by rewrite update_upload_ids.
Qed.

(** A queue of at most [MAX_FILES] = 100 records holds at most 100 records
    in every state it goes through, whatever actions are dispatched.  As
    records are never removed, a queue that has reached 100 records takes
    no new record any more, also after uploads were canceled or are done:
    the ids in the queue stay the same for ever. *)
Theorem queue_never_outgrows_limit createUUID acts m :
  Z.of_nat (length (uploads m)) ≤ MAX_FILES →
  Forall (λ m', Z.of_nat (length (uploads m')) ≤ MAX_FILES)
    (history createUUID acts m)
  ∧ (Z.of_nat (length (uploads m)) = MAX_FILES →
     Forall (λ m', id_ <$> uploads m' = id_ <$> uploads m)
       (history createUUID acts m)).
Proof.
  intros Hle. split.
  - revert m Hle. induction acts as [|a acts IH]; intros m Hle; simpl.
    { by repeat constructor. }
    pose proof (length_apply_action createUUID a m) as Ha.
    constructor; [done|]. constructor; [lia|].
    apply IH. unfold dispatch. rewrite length_promotion_effect. lia.
  - clear Hle. intros Hfull.
    assert (∀ m', id_ <$> uploads m' = id_ <$> uploads m →
                  Forall (λ m'', id_ <$> uploads m'' = id_ <$> uploads m)
                    (history createUUID acts m')) as Hgen.
    { induction acts as [|a acts IH]; intros m' Hids; simpl.
      { by repeat constructor. }
      assert (MAX_FILES ≤ Z.of_nat (length (uploads m'))) as Hfull'.
      { rewrite <- (length_fmap id_), Hids, length_fmap. lia. }
      pose proof (ids_apply_action_full createUUID a m' Hfull') as Ha.
      constructor; [done|]. constructor; [congruence|].
      apply IH. unfold dispatch. rewrite ids_promotion_effect. congruence. }
    by apply Hgen.
Qed.

Lemma queue_never_outgrows_limit_witness :
  Forall (λ m', Z.of_nat (length (uploads m')) ≤ MAX_FILES)
    (history pretty
       [AddFiles (replicate 99 (File.mk "f" 1 0 "")); Cancel "0";
        AddFiles [File.mk "g" 1 0 ""; File.mk "h" 1 0 ""]]
       initial_manager).
Proof.
  apply (queue_never_outgrows_limit pretty). vm_compute. discriminate.
Defined.

(** ** Which records the promotion effect starts *)

Lemma foldl_update_upload (f : UploadFileMeta → UploadFileMeta)
    (ids : list string) us :
  (∀ u, id_ (f u) = id_ u) → (∀ u, f (f u) = f u) →
  foldl (λ us id, update_upload id f us) us ids
  = (λ u, if bool_decide (id_ u ∈ ids) then f u else u) <$> us.
Proof.
  intros Hid Hidem. revert us. induction ids as [|id ids IH]; intros us; simpl.
  { rewrite <- (list_fmap_id us) at 1. apply list_fmap_ext. intros i u _.
    done. }
  rewrite IH. unfold update_upload. rewrite <- list_fmap_compose.
  apply list_fmap_ext. intros i u _. simpl.
  destruct (decide (id_ u = id)) as [Heq|Hne].
  - rewrite (bool_decide_eq_true_2 (id_ u = id)) by done.
    rewrite (bool_decide_eq_true_2 (id_ u ∈ id :: ids)) by (subst; left).
    rewrite Hid. case_bool_decide; [apply Hidem|done].
  - rewrite (bool_decide_eq_false_2 (id_ u = id)) by done.
    destruct (decide (id_ u ∈ ids)) as [Hin|Hnin].
    + rewrite (bool_decide_eq_true_2 (id_ u ∈ ids)) by done.
      by rewrite (bool_decide_eq_true_2 (id_ u ∈ id :: ids)) by (by right).
    + rewrite (bool_decide_eq_false_2 (id_ u ∈ ids)) by done.
      rewrite (bool_decide_eq_false_2 (id_ u ∈ id :: ids)); [done|].
      rewrite elem_of_cons. tauto.
Qed.

Lemma NoDup_fmap_eq {A B} (f : A → B) (l : list A) x y :
  NoDup (f <$> l) → x ∈ l → y ∈ l → f x = f y → x = y.
Proof.
  intros Hnd [i Hi]%list_elem_of_lookup [j Hj]%list_elem_of_lookup Heq.
  assert (i = j) as ->; [|congruence].
  eapply NoDup_lookup; [exact Hnd| |].
  - by rewrite list_lookup_fmap, Hi.
  - by rewrite list_lookup_fmap, Hj, Heq.
Qed.

Lemma filter_none {A} (P : A → Prop) `{!∀ x, Decision (P x)} (l : list A) :
  (∀ x, x ∈ l → ¬ P x) → filter P l = [].
Proof.
  induction l as [|x l IH]; intros Hno; [done|].
  rewrite filter_cons, decide_False by (apply Hno; left).
  apply IH. intros y Hy. apply Hno. by right.
Qed.

Lemma filter_all {A} (P : A → Prop) `{!∀ x, Decision (P x)} (l : list A) :
  (∀ x, x ∈ l → P x) → filter P l = l.
Proof.
  induction l as [|x l IH]; intros Hall; [done|].
  rewrite filter_cons, decide_True by (apply Hall; left).
  f_equal. apply IH. intros y Hy. apply Hall. by right.
Qed.

(** In a list without duplicates, the element at position [i] is among the
    first [k] elements that satisfy [P] iff it satisfies [P] and fewer than
    [k] such elements precede it. *)
Lemma elem_of_take_filter {A} (P : A → Prop) `{!∀ x, Decision (P x)}
    (l : list A) :
  NoDup l →
  ∀ (i k : nat) x,
    l !! i = Some x →
    x ∈ take k (filter P l) ↔ P x ∧ (length (filter P (take i l)) < k)%nat.
Proof.
  induction 1 as [|y l Hy Hnd IH]; intros i k x Hi; [done|].
  destruct i as [|i]; simpl in Hi.
  - simplify_eq. simpl. rewrite filter_cons.
    destruct (decide (P x)) as [HP|HP].
    + destruct k as [|k]; simpl.
      * split; [by intros ?%elem_of_nil|lia].
      * split; [intros _; split; [done|lia]|intros _; left].
    + split; [|tauto]. intros Hin. apply (subseteq_take k) in Hin.
      apply list_elem_of_filter in Hin. tauto.
  - assert (x ≠ y) as Hne.
    { intros ->. apply Hy. by eapply list_elem_of_lookup_2. }
    rewrite firstn_cons, !filter_cons.
    destruct (decide (P y)) as [HP|HP].
    + destruct k as [|k]; simpl.
      * split; [by intros ?%elem_of_nil|lia].
      * rewrite elem_of_cons, (IH i k x Hi). split.
        -- intros [?|[? ?]]; [done|]. split; [done|lia].
        -- intros [? ?]. right. split; [done|lia].
    + apply IH. done.
Qed.

Lemma promotion_effect_fmap m :
  uploads (promotion_effect m)
  = (λ u, if bool_decide (id_ u ∈ id_ <$> nextToStart (uploads m))
          then set_error None (set_status Uploading u) else u)
      <$> uploads m.
Proof.
  unfold promotion_effect. simpl.
  rewrite <- (foldl_update_upload (λ u, set_error None (set_status Uploading u)))
    by done.
  generalize (nextToStart (uploads m)). generalize (uploads m).
  intros us targets. revert us.
  induction targets as [|x targets IH]; intros us; [done|]. simpl. apply IH.
Qed.

Lemma promotion_effect_at m (i : nat) u :
  NoDup (id_ <$> uploads m) →
  uploads m !! i = Some u →
  uploads (promotion_effect m) !! i
  = Some (if bool_decide
               (startable u
                ∧ Z.of_nat (length (filter startable (take i (uploads m))))
                  < MAX_PARALLEL_FILES - Z.of_nat (uploadingCount m))
          then set_error None (set_status Uploading u) else u).
Proof.
  intros Hnd Hi.
  rewrite promotion_effect_fmap, list_lookup_fmap, Hi. simpl. f_equal.
  apply NoDup_fmap_1 in Hnd as Hnd'. unfold nextToStart.
  fold (uploadingCount m).
  destruct (Z.leb_spec (MAX_PARALLEL_FILES - Z.of_nat (uploadingCount m)) 0)
    as [Hcap|Hcap].
  { rewrite (bool_decide_eq_false_2 (_ ∧ _)) by lia. done. }
  pose proof (elem_of_take_filter startable (uploads m) Hnd' i
                (Z.to_nat (MAX_PARALLEL_FILES - Z.of_nat (uploadingCount m)))
                u Hi) as Hiff.
  change (filter (λ u0, status u0 = Queued ∧ is_Some (file u0)) (uploads m))
    with (filter startable (uploads m)).
  destruct (decide (u ∈ take (Z.to_nat (MAX_PARALLEL_FILES
                                          - Z.of_nat (uploadingCount m)))
                       (filter startable (uploads m)))) as [Hin|Hnin].
  - rewrite bool_decide_eq_true_2.
    2:{ apply list_elem_of_fmap. by exists u. }
    rewrite bool_decide_eq_true_2; [done|].
    apply Hiff in Hin as [? ?]. split; [done|lia].
  - rewrite bool_decide_eq_false_2.
    2:{ intros (v & Hid & Hv)%list_elem_of_fmap. apply Hnin.
        assert (v = u) as ->; [|done].
        eapply (NoDup_fmap_eq id_); [exact Hnd| | |done].
        - apply (subseteq_take _ _) in Hv.
          apply list_elem_of_filter in Hv. tauto.
        - by eapply list_elem_of_lookup_2. }
    rewrite bool_decide_eq_false_2; [done|].
    intros [? ?]. apply Hnin, Hiff. split; [done|lia].
Qed.

(** The promotion effect is first come, first served.  With
    [capacity = MAX_PARALLEL_FILES - uploadingCount] free slots, the record
    at position [i] is started (made "uploading", its error cleared) iff it
    is "queued", holds its file, and fewer than [capacity] such records come
    before it in the queue; every other record is left as it is. *)
Theorem promotion_fifo m (i : nat) u :
  NoDup (id_ <$> uploads m) →
  uploads m !! i = Some u →
  let capacity := MAX_PARALLEL_FILES - Z.of_nat (uploadingCount m) in
  uploads (promotion_effect m) !! i
  = Some (if bool_decide
               (startable u
                ∧ Z.of_nat (length (filter startable (take i (uploads m))))
                  < capacity)
          then set_error None (set_status Uploading u) else u).
Proof. intros Hnd Hi. cbv zeta. by apply promotion_effect_at. Qed.

Lemma promotion_fifo_witness :
  let m := apply_action pretty
             (AddFiles [File.mk "a" 10 1 ""; File.mk "b" 20 2 "";
                        File.mk "c" 30 3 ""; File.mk "d" 40 4 ""])
             initial_manager in
  uploads (promotion_effect m) !! 3%nat
  = Some (new_upload "3" (File.mk "d" 40 4 "")).
Proof.
  cbv zeta.
  rewrite (promotion_fifo _ 3 (new_upload "3" (File.mk "d" 40 4 ""))).
  - reflexivity.
  - apply (@bool_decide_unpack _ (NoDup_dec _)). vm_compute. exact I.
  - reflexivity.
Defined.

(** ** "Pause all" *)

Lemma pause_batch createUUID (ids : list string) m :
  foldl (λ m a, apply_action createUUID a m) m (Pause <$> ids)
  = with_uploads (λ us, foldl (λ us id, pauseUpload id us) us ids) m.
Proof.
  revert m. induction ids as [|id ids IH]; intros m; simpl.
  { by destruct m. }
  by rewrite IH.
Qed.

Lemma length_filter_fmap {A} (P : A → Prop) `{!∀ x, Decision (P x)}
    (g : A → A) (l : list A) :
  (∀ x, P (g x) ↔ P x) →
  length (filter P (g <$> l)) = length (filter P l).
Proof.
  intros Hg. induction l as [|x l IH]; [done|].
  rewrite fmap_cons, !filter_cons.
  destruct (decide (P x)) as [HP|HP].
  - rewrite decide_True by by apply Hg. simpl. by rewrite IH.
  - rewrite decide_False by by rewrite Hg. done.
Qed.

(** "Pause all" pauses every uploading record and, in the same commit,
    hands the freed slots to the queue: each record that was "uploading"
    is "paused" afterwards, and the first three records that are "queued"
    and hold their file are started at once. *)
Theorem pause_all_starts_the_next createUUID m (i : nat) u :
  NoDup (id_ <$> uploads m) →
  uploads m !! i = Some u →
  uploads (commit createUUID (pauseAll (uploads m)) m) !! i
  = Some (if bool_decide (status u = Uploading) then set_status Paused u
          else if bool_decide
                    (startable u
                     ∧ (length (filter startable (take i (uploads m))) < 3)%nat)
               then set_error None (set_status Uploading u)
               else u).
Proof.
  intros Hnd Hi. unfold commit, pauseAll.
  rewrite (list_fmap_compose id_ Pause), pause_batch.
  set (g := λ u, if bool_decide (status u = Uploading)
                 then set_status Paused u else u).
  assert (foldl (λ us id, pauseUpload id us) (uploads m)
            (id_ <$> filter (λ u, status u = Uploading) (uploads m))
          = g <$> uploads m) as Hbatch.
  { unfold pauseUpload.
    rewrite (foldl_update_upload
               (λ u, set_status
                       (if bool_decide (status u = Done) then Done else Paused)
                       u)).
    - apply list_fmap_ext. intros j v Hj. unfold g.
      destruct (decide (status v = Uploading)) as [Hup|Hup].
      + rewrite bool_decide_eq_true_2.
        2:{ apply list_elem_of_fmap. exists v. split; [done|].
            apply list_elem_of_filter. split; [done|].
            by eapply list_elem_of_lookup_2. }
        rewrite (bool_decide_eq_true_2 (status v = Uploading)) by done.
        by rewrite bool_decide_eq_false_2 by congruence.
      + rewrite bool_decide_eq_false_2.
        2:{ intros (x & Hid & [Hx Hin]%list_elem_of_filter)%list_elem_of_fmap.
            apply Hup. assert (x = v) as ->; [|done].
            eapply (NoDup_fmap_eq id_); [exact Hnd|done| |done].
            by eapply list_elem_of_lookup_2. }
        by rewrite (bool_decide_eq_false_2 (status v = Uploading)).
    - done.
    - intros v. by repeat case_bool_decide. }
  unfold with_uploads. rewrite Hbatch.
  set (m1 := mkManager (g <$> uploads m) (queue m) (uuid_calls m)).
  assert (∀ v, id_ (g v) = id_ v) as Hgid
    by (intros v; unfold g; by case_bool_decide).
  assert (∀ v, startable (g v) ↔ startable v) as Hgst.
  { intros v. unfold g, startable. case_bool_decide as Hv; [|done].
    simpl. rewrite Hv. split; intros [? ?]; congruence. }
  assert (uploadingCount m1 = 0%nat) as Hcount.
  { unfold uploadingCount, m1. simpl. generalize (uploads m). intros l.
    induction l as [|x l IH]; [done|]. rewrite fmap_cons, filter_cons.
    rewrite decide_False; [done|]. unfold g. by case_bool_decide. }
  rewrite (promotion_effect_at m1 i (g u)).
  - rewrite Hcount. f_equal. unfold m1. simpl uploads.
    rewrite <- fmap_take, (length_filter_fmap startable g _ Hgst).
    destruct (decide (status u = Uploading)) as [Hup|Hup].
    + rewrite (bool_decide_eq_true_2 (status u = Uploading)) by done.
      rewrite bool_decide_eq_false_2.
      * unfold g. by rewrite bool_decide_eq_true_2.
      * intros [Hs _]. apply (proj1 (Hgst u)) in Hs. destruct Hs as [Hq _].
        congruence.
    + rewrite (bool_decide_eq_false_2 (status u = Uploading)) by done.
      assert (g u = u) as -> by (unfold g; by rewrite bool_decide_eq_false_2).
      apply (f_equal (λ b : bool, if b then _ else _)).
      apply bool_decide_ext. unfold MAX_PARALLEL_FILES.
      split; intros [? ?]; (split; [done|lia]).
  - unfold m1. simpl. by rewrite fmap_preserves_ids.
  - unfold m1. simpl. by rewrite list_lookup_fmap, Hi.
Qed.

Lemma pause_all_starts_the_next_witness :
  let m := dispatch pretty
             (AddFiles [File.mk "a" 10 1 ""; File.mk "b" 20 2 "";
                        File.mk "c" 30 3 ""; File.mk "d" 40 4 ""])
             initial_manager in
  status <$> uploads (commit pretty (pauseAll (uploads m)) m) !! 3%nat
  = Some Uploading.
Proof.
  cbv zeta.
  rewrite (pause_all_starts_the_next pretty _ 3
             (new_upload "3" (File.mk "d" 40 4 ""))).
  - reflexivity.
  - apply (@bool_decide_unpack _ (NoDup_dec _)). vm_compute. exact I.
  - reflexivity.
Defined.

(** ** Reselecting a file *)

Lemma fmap_at (k : UploadFileMeta → UploadFileMeta) us (i : nat) u :
  NoDup (id_ <$> us) → us !! i = Some u →
  (∀ v, id_ v ≠ id_ u → k v = v) →
  k <$> us = <[i := k u]> us.
Proof.
  intros Hnd Hi Hk. apply list_eq. intros j.
  rewrite list_lookup_fmap.
  destruct (decide (j = i)) as [->|Hne].
  - rewrite list_lookup_insert_eq by by eapply lookup_lt_Some.
    by rewrite Hi.
  - rewrite list_lookup_insert_ne by done.
    destruct (us !! j) as [v|] eqn:Hj; [|done]. simpl. f_equal. apply Hk.
    intros Heq. apply Hne. eapply NoDup_lookup; [exact Hnd| |].
    + by rewrite list_lookup_fmap, Hj.
    + by rewrite list_lookup_fmap, Hi, Heq.
Qed.

Lemma filter_at (P : UploadFileMeta → Prop) `{!∀ u, Decision (P u)}
    us (i : nat) u :
  NoDup (id_ <$> us) → us !! i = Some u →
  (∀ v, P v → id_ v = id_ u) →
  filter P us = if decide (P u) then [u] else [].
Proof.
  intros Hnd Hi HP.
  assert (∀ v, v ∈ us → P v → v = u) as Hone.
  { intros v Hv Hpv. eapply (NoDup_fmap_eq id_); [exact Hnd|done| |by apply HP].
    by eapply list_elem_of_lookup_2. }
  apply NoDup_fmap_1 in Hnd. clear HP. revert i Hi Hone.
  induction Hnd as [|x us Hx Hnd IH]; intros i Hi Hone; [done|].
  rewrite filter_cons. destruct i as [|i]; simpl in Hi.
  - simplify_eq. rewrite (filter_none P us).
    + by destruct (decide (P u)).
    + intros v Hv Hpv. apply Hx. rewrite <- (Hone v); [done|by right|done].
  - assert (¬ P x) as Hnx.
    { intros Hpx. apply Hx. rewrite (Hone x); [|by left|done].
      by eapply list_elem_of_lookup_2. }
    rewrite decide_False by done. apply (IH i Hi).
    intros v Hv. apply Hone. by right.
Qed.

(** [recoverMissingFile], once the user has picked a file, in a queue with
    distinct ids.  The file is taken iff its name and size are those of the
    record; its modification time is not compared, and the record's status
    is not looked at.  A file that is taken is attached to the record,
    which becomes "queued" with its error text cleared and the file's
    modification time; the record keeps its upload id, chunk list and byte
    count; no toast is pushed.  A file that is not taken changes nothing
    and pushes one error toast.  No other record is touched. *)
Theorem recover_takes_matching_file id f m (i : nat) u :
  NoDup (id_ <$> uploads m) →
  uploads m !! i = Some u →
  id_ u = id →
  let m' := recoverMissingFile id f m in
  let taken :=
    set_error None
      (set_status Queued
         (set_fileLastModified (Some (File.lastModified f))
            (set_file (Some f) u))) in
  (fileName u = File.name f ∧ fileSize u = File.size f →
   uploads m' = <[i := taken]> (uploads m)
   ∧ queue m' = queue m
   ∧ session_of taken = session_of u)
  ∧ (¬ (fileName u = File.name f ∧ fileSize u = File.size f) →
     uploads m' = uploads m ∧ queue m' = queue m ++ [mismatch_snack]).
Proof.
  intros Hnd Hi <-. cbv zeta. unfold recoverMissingFile. simpl.
  set (k := λ v,
         if bool_decide (id_ v = id_ u) && negb (recover_mismatch (id_ u) f v)
         then set_error None
                (set_status Queued
                   (set_fileLastModified (Some (File.lastModified f))
                      (set_file (Some f) v)))
         else v).
  assert (k <$> uploads m = <[i := k u]> (uploads m)) as Hmap.
  { apply fmap_at; [done..|]. intros v Hne. unfold k.
    by rewrite bool_decide_eq_false_2. }
  pose proof (filter_at (λ v, recover_mismatch (id_ u) f v = true) (uploads m)
                i u Hnd Hi) as Hfil.
  rewrite Hfil in *.
  2:{ intros v Hv. unfold recover_mismatch in Hv.
      apply andb_prop in Hv as [Hv _]. by apply bool_decide_eq_true in Hv. }
  clear Hfil.
  rewrite Hmap. unfold k, recover_mismatch.
  rewrite bool_decide_eq_true_2 by done. simpl. split.
  - intros [Hn Hs]. rewrite !bool_decide_eq_true_2 by done. simpl.
    by rewrite app_nil_r.
  - intros Hno.
    assert (negb (bool_decide (fileName u = File.name f))
            || negb (bool_decide (fileSize u = File.size f)) = true) as ->.
    { repeat case_bool_decide; try done. tauto. }
    simpl. split; [|done].
    by rewrite list_insert_id.
Qed.

Lemma recover_takes_matching_file_witness :
  let f := File.mk "a.bin" 10 7 "" in
  let u := set_status AwaitingFile (set_file None (new_upload "0" ten_bytes)) in
  uploads (recoverMissingFile "0" f (mkManager [u] [] 1))
  = [set_fileLastModified (Some 7) (new_upload "0" f)].
Proof.
  cbv zeta. etrans.
  - refine (proj1 (proj1 (recover_takes_matching_file "0"
                            (File.mk "a.bin" 10 7 "") (mkManager _ [] 1) 0 _
                            _ _ _) _)).
    + apply (@bool_decide_unpack _ (NoDup_dec _)). vm_compute. exact I.
    + reflexivity.
    + reflexivity.
    + split; reflexivity.
  - reflexivity.
Defined.

(** ** How the row actions compose *)

Ltac pointwise :=
  unfold pauseUpload, resumeUpload, cancelUpload, update_upload;
  rewrite <- ?list_fmap_compose; apply list_fmap_ext;
  intros ? [] _; unfold compose; simpl;
  repeat (case_bool_decide; simplify_eq/=; try done).

(** Pausing, resuming and canceling: doing one of them twice is the same
    as doing it once; resuming a record that was just paused is the same as
    resuming it, and canceling it the same as canceling it; and two of
    these actions on records with different ids can be done in either
    order. *)
Theorem row_actions_compose id id' us :
  pauseUpload id (pauseUpload id us) = pauseUpload id us
  ∧ resumeUpload id (resumeUpload id us) = resumeUpload id us
  ∧ cancelUpload id (cancelUpload id us) = cancelUpload id us
  ∧ resumeUpload id (pauseUpload id us) = resumeUpload id us
  ∧ cancelUpload id (pauseUpload id us) = cancelUpload id us
  ∧ (id ≠ id' →
     pauseUpload id (pauseUpload id' us) = pauseUpload id' (pauseUpload id us)
     ∧ pauseUpload id (resumeUpload id' us)
       = resumeUpload id' (pauseUpload id us)
     ∧ pauseUpload id (cancelUpload id' us)
       = cancelUpload id' (pauseUpload id us)
     ∧ resumeUpload id (resumeUpload id' us)
       = resumeUpload id' (resumeUpload id us)
     ∧ resumeUpload id (cancelUpload id' us)
       = cancelUpload id' (resumeUpload id us)
     ∧ cancelUpload id (cancelUpload id' us)
       = cancelUpload id' (cancelUpload id us)).
Proof.
  split_and!; [pointwise..|]. intros Hne. split_and!; pointwise.
Qed.

Lemma row_actions_compose_witness :
  let us := uploads ten_bytes_queue in
  pauseUpload "0" (cancelUpload "1" us) = cancelUpload "1" (pauseUpload "0" us).
Proof.
  cbv zeta.
  apply (proj2 (proj2 (proj2 (proj2 (proj2
           (row_actions_compose "0" "1" (uploads ten_bytes_queue))))))).
  discriminate.
Defined.

(** ** Labels *)

(** The label of a row tells its status: two records with the same label
    have the same status, and the label of an uploading record also tells
    whether it is being finalized. *)
Theorem statusLabel_tells_status s s' (completing completing' : bool) :
  statusLabel s completing = statusLabel s' completing' →
  s = s' ∧ (s = Uploading → completing = completing').
Proof.
  destruct s, s', completing, completing'; simpl; intros H;
    by (split; [|intros ?]); simplify_eq.
Qed.

Lemma statusLabel_tells_status_witness :
  Uploading = Uploading ∧ (Uploading = Uploading → true = true).
Proof. apply (statusLabel_tells_status Uploading Uploading true true). reflexivity. Defined.

(** ** Toasts *)

Lemma close_n (k : nat) (q : list Snack) :
  Nat.iter k SnackQueue.close q = drop k q.
Proof.
  induction k as [|k IH]; [done|].
  simpl. rewrite IH. unfold SnackQueue.close. rewrite drop_drop.
  f_equal. lia.
Qed.

(** Toasts are shown first in, first out, each one once.  After any
    toasts were pushed onto a queue, the toast shown once [k] toasts have
    been closed is the [k]-th of the old queue followed by the pushed
    toasts in the order of the pushes; once as many toasts were closed as
    there are, none is shown, and closing an empty queue changes
    nothing. *)
Theorem toasts_first_in_first_out (q pushed : list Snack) (k : nat) :
  let q' :=
    foldl (λ q s, SnackQueue.push (message s) (severity s) q) q pushed in
  SnackQueue.current (Nat.iter k SnackQueue.close q') = (q ++ pushed) !! k
  ∧ Nat.iter (length q') SnackQueue.close q' = []
  ∧ SnackQueue.close [] = [].
Proof.
  cbv zeta.
  assert (foldl (λ q s, SnackQueue.push (message s) (severity s) q) q pushed
          = q ++ pushed) as ->.
  { revert q. induction pushed as [|s pushed IH]; intros q; simpl.
    - by rewrite app_nil_r.
    - rewrite IH. unfold SnackQueue.push. destruct s. simpl.
      by rewrite <- app_assoc. }
  rewrite !close_n. split_and!.
  - unfold SnackQueue.current. rewrite head_lookup, lookup_drop.
    f_equal. lia.
  - by rewrite drop_all.
  - done.
Qed.

(* ================================================================== *)
(** * Setting up a session *)

(** ** Byte counts of a tiling *)

Lemma foldl_sizes_shift (a : Z) (l : list ChunkMeta) :
  foldl (λ sum c, sum + (end_ c - start c)) a l
  = a + foldl (λ sum c, sum + (end_ c - start c)) 0 l.
Proof.
  revert a. induction l as [|c l IH]; intros a; simpl; [lia|].
  rewrite (IH (a + _)), (IH (0 + _)). lia.
Qed.

Lemma resumedUploadedBytes_cons c (l : list ChunkMeta) :
  resumedUploadedBytes (c :: l)
  = (if uploaded c then end_ c - start c else 0) + resumedUploadedBytes l.
Proof.
  unfold resumedUploadedBytes. rewrite filter_cons.
  destruct (decide (uploaded c = true)) as [Hu|Hu].
  - rewrite Hu. simpl. by rewrite foldl_sizes_shift.
  - apply not_true_is_false in Hu. rewrite Hu. lia.
Qed.

(** The uploaded chunks of a tiling of [[lo, hi)] hold at most [hi - lo]
    bytes, and exactly that many when every chunk is uploaded. *)
Lemma chained_resumed lo hi (l : list ChunkMeta) :
  chained lo hi l →
  0 ≤ resumedUploadedBytes l ≤ hi - lo
  ∧ (Forall (λ c, uploaded c = true) l → resumedUploadedBytes l = hi - lo).
Proof.
  induction 1 as [lo|c hi l Hc Hl [IH1 IH2]].
  { unfold resumedUploadedBytes. simpl. split; [lia|intros _; lia]. }
  rewrite resumedUploadedBytes_cons.
  pose proof (chained_le _ _ _ Hl). split.
  - destruct (uploaded c); lia.
  - intros [Hu Hall]%Forall_cons. rewrite Hu, IH2 by done. lia.
Qed.

(** What [buildChunks] returns for a positive part size: a tiling of the
    file, indexed by position. *)
Lemma buildChunks_tiling size chunkSize parts etags :
  0 ≤ size → 0 < chunkSize →
  ∃ plan,
    buildChunks size chunkSize parts etags = Some plan
    ∧ chained 0 size plan ∧ well_indexed plan.
Proof.
  intros Hs Hc. rewrite buildChunks_closed by done. eexists. split; [done|].
  split.
  - pose proof (ceil_div_nonneg size chunkSize Hs Hc) as Hn.
    destruct (Z.to_nat (ceil_div size chunkSize)) as [|n] eqn:Hn'.
    + simpl. assert (size = 0) as ->; [|constructor].
      pose proof (ceil_div_spec size chunkSize Hc). nia.
    + apply (plan_chained size chunkSize parts etags Hs Hc (S n) 0); lia.
  - intros i c [_ ->]%plan_lookup. done.
Qed.

(** ** A session that the backend grants *)

Lemma ensureUploadSession_granted w id m u f init :
  find_upload id (uploads m) = Some u →
  file u = Some f →
  has_session u = false →
  initiate_response w = Some (inr init) →
  init_allowed init ≠ Some false →
  (∀ r, init_remainingBytes init = Some r → File.size f ≤ r) →
  0 < session_chunkSize init →
  0 ≤ File.size f →
  ∃ plan,
    buildChunks (File.size f) (session_chunkSize init)
      (default [] (init_alreadyUploadedParts init))
      (default ∅ (init_partsETags init)) = Some plan
    ∧ chained 0 (File.size f) plan
    ∧ well_indexed plan
    ∧ 0 ≤ resumedUploadedBytes plan ≤ File.size f
    ∧ (let s1 :=
         meanwhile w AtInitiate
           (mkPState m (uploads m) [initiate_event u f] [initiate_event u f]) in
       run (ensureUploadSession w id) m
       = (Normal tt,
          mkPState
            (with_uploads (update_upload id (with_session init plan)) (mgr s1))
            (ref s1) [initiate_event u f] (wire s1))
       ∧ ∀ u1, find_upload id (uploads (mgr s1)) = Some u1 →
           find_upload id
             (update_upload id (with_session init plan) (uploads (mgr s1)))
           = Some (with_session init plan u1))
    ∧ find_upload id (update_upload id (with_session init plan) (uploads m))
      = Some (with_session init plan u).
Proof.
  intros Hu Hf Hno Hresp Hallowed Hquota Hcs Hsize.
  destruct (buildChunks_tiling (File.size f) (session_chunkSize init)
              (default [] (init_alreadyUploadedParts init))
              (default ∅ (init_partsETags init)) Hsize Hcs)
    as (plan & Hplan & Htile & Hwi).
  exists plan. split; [done|]. split; [done|]. split; [done|].
  split.
  { pose proof (chained_resumed _ _ _ Htile) as [? _]. lia. }
  split; [|by apply find_upload_update].
  cbv zeta. split; [|intros u1 Hu1; by apply find_upload_update].
  unfold run, ensureUploadSession. pipe_unfold. rewrite Hu, Hf. simpl.
  unfold has_session in Hno. rewrite Hno. rewrite Hresp.
  rewrite bool_decide_eq_false_2 by done.
  assert ((if init_remainingBytes init is Some remaining
           then remaining <? File.size f else false) = false) as ->.
  { destruct (init_remainingBytes init) as [r|]; [|done].
    apply Z.ltb_ge. by apply Hquota. }
  unfold session_chunkSize in Hplan. rewrite Hplan. done.
Qed.

(** [ensureUploadSession] on a record that holds its file and has no
    session yet, when the backend answers, does not refuse the file, has
    quota for it and names no negative part size: one initiate request is
    sent (under the record's file name, with "application/octet-stream"
    for a file without a type); the plan is [buildChunks] of the file size,
    the backend's part size (the 10 MiB default if it names none), and the
    parts the backend reports as stored; the plan tiles the file and is
    indexed by position; the record gets the upload id, the part size, the
    plan, and the total size of the reported parts as its byte count, which
    lies between 0 and the file size; no other record and no toast is
    touched.  The one update is applied to the queue as it is when the
    backend's answer arrives, whatever happened while the request was
    out. *)
Theorem session_granted w id m u f init :
  find_upload id (uploads m) = Some u →
  file u = Some f →
  has_session u = false →
  initiate_response w = Some (inr init) →
  init_allowed init ≠ Some false →
  (∀ r, init_remainingBytes init = Some r → File.size f ≤ r) →
  0 < session_chunkSize init →
  0 ≤ File.size f →
  ∃ plan,
    buildChunks (File.size f) (session_chunkSize init)
      (default [] (init_alreadyUploadedParts init))
      (default ∅ (init_partsETags init)) = Some plan
    ∧ chained 0 (File.size f) plan
    ∧ well_indexed plan
    ∧ 0 ≤ resumedUploadedBytes plan ≤ File.size f
    ∧ (let s1 :=
         meanwhile w AtInitiate
           (mkPState m (uploads m) [initiate_event u f] [initiate_event u f]) in
       run (ensureUploadSession w id) m
       = (Normal tt,
          mkPState
            (with_uploads (update_upload id (with_session init plan)) (mgr s1))
            (ref s1) [initiate_event u f] (wire s1))
       ∧ ∀ u1, find_upload id (uploads (mgr s1)) = Some u1 →
           find_upload id
             (update_upload id (with_session init plan) (uploads (mgr s1)))
           = Some (with_session init plan u1))
    ∧ find_upload id (update_upload id (with_session init plan) (uploads m))
      = Some (with_session init plan u).
Proof. apply ensureUploadSession_granted. Qed.

Lemma session_granted_witness :
  ∃ plan,
    buildChunks 1048576 262144 [] ∅ = Some plan
    ∧ chained 0 1048576 plan
    ∧ well_indexed plan
    ∧ 0 ≤ resumedUploadedBytes plan ≤ 1048576
    ∧ (run (ensureUploadSession third_part_flaky "0") (added one_mib)
       = (Normal tt,
          mkPState
            (with_uploads
               (update_upload "0"
                  (with_session
                     (mkInit "u2" (Some 262144) None None None None None) plan))
               (added one_mib))
            (uploads (added one_mib))
            [initiate_event (new_upload "0" one_mib) one_mib]
            [initiate_event (new_upload "0" one_mib) one_mib])
       ∧ ∀ u1, find_upload "0" (uploads (added one_mib)) = Some u1 →
           find_upload "0"
             (update_upload "0"
                (with_session
                   (mkInit "u2" (Some 262144) None None None None None) plan)
                (uploads (added one_mib)))
           = Some (with_session
                     (mkInit "u2" (Some 262144) None None None None None)
                     plan u1))
    ∧ find_upload "0"
        (update_upload "0"
           (with_session (mkInit "u2" (Some 262144) None None None None None)
              plan)
           (uploads (added one_mib)))
      = Some (with_session (mkInit "u2" (Some 262144) None None None None None)
                plan (new_upload "0" one_mib)).
Proof.
  apply (session_granted third_part_flaky "0" (added one_mib)
           (new_upload "0" one_mib) one_mib
           (mkInit "u2" (Some 262144) None None None None None)).
  - reflexivity.
  - reflexivity.
  - reflexivity.
  - reflexivity.
  - discriminate.
  - intros r Hr. discriminate Hr.
  - reflexivity.
  - discriminate.
Defined.

(** ** A session that the backend refuses *)

Lemma refusal_not_empty init f msg : refusal init f = Some msg → msg ≠ "".
Proof.
  unfold refusal. case_bool_decide.
  - intros [= <-]. unfold truthy_string.
    destruct (init_reason init) as [r|]; simpl; [|done].
    by case_bool_decide.
  - destruct (match init_remainingBytes init with Some _ => _ | None => _ end);
      [|done].
    by intros [= <-].
Qed.

(** When the backend refuses a file ([allowed: false], or less quota left
    than the file needs), [startFileUpload] sends the initiate request and
    nothing else: no part is requested or sent, and the promise resolves.
    What becomes of the record is decided by [uploadsRef.current] at the
    moment the refusal arrives: if it shows the record "paused" or
    "canceled" (the user acted while the request was out), nothing is
    changed and no toast is pushed; otherwise the record becomes "error"
    with the backend's reason as its error text ("Server rejected this
    file" if the backend gives none, "Insufficient quota to upload this
    file" for the quota), and one error toast with that text is pushed. *)
Theorem refused_file_is_marked w id m u f init msg :
  find_upload id (uploads m) = Some u →
  file u = Some f →
  has_session u = false →
  initiate_response w = Some (inr init) →
  refusal init f = Some msg →
  let s1 :=
    meanwhile w AtInitiate
      (mkPState (with_uploads (startFileUpload_begin id) m) (uploads m)
         [initiate_event u f] [initiate_event u f]) in
  let res := run (startFileUpload w id) m in
  res.1 = Normal tt
  ∧ log res.2 = [initiate_event u f]
  ∧ ref res.2 = ref s1
  ∧ wire res.2 = wire s1
  ∧ (∀ u1, find_upload id (ref s1) = Some u1 →
       status u1 = Paused ∨ status u1 = Canceled →
       mgr res.2 = mgr s1)
  ∧ ((∀ u1, find_upload id (ref s1) = Some u1 →
        status u1 ≠ Paused ∧ status u1 ≠ Canceled) →
     mgr res.2
     = mkManager (startFileUpload_fail id msg (uploads (mgr s1)))
         (queue (mgr s1) ++ [mkSnack ("⚠️ " +:+ msg) SevError])
         (uuid_calls (mgr s1))
     ∧ ∀ u1, find_upload id (uploads (mgr s1)) = Some u1 →
         find_upload id (uploads (mgr res.2))
         = Some (set_completing false
                   (set_error (Some msg) (set_status Error u1)))).
Proof.
  intros Hu Hf Hno Hresp Hmsg. cbv zeta.
  pose proof (refusal_not_empty _ _ _ Hmsg) as Hne.
  set (s1 := meanwhile w AtInitiate _).
  assert (run (startFileUpload w id) m
          = (Normal tt,
             mkPState (startFileUpload_catch_at id (Error_ msg) (ref s1) (mgr s1))
               (ref s1) [initiate_event u f] (wire s1))) as ->.
  { unfold run, startFileUpload, try_catch, startFileUpload_try.
    unfold bind at 1. unfold setUploads at 1. cbn [mgr ref log wire].
    unfold bind at 1.
    assert (ensureUploadSession w id
              (mkPState (with_uploads (startFileUpload_begin id) m)
                 (uploads m) [] [])
            = (Thrown (Error_ msg),
               mkPState (mgr s1) (ref s1) [initiate_event u f] (wire s1)))
      as ->; [|done].
    unfold ensureUploadSession. pipe_unfold. rewrite Hu, Hf. simpl.
    unfold has_session in Hno. rewrite Hno, Hresp.
    unfold refusal in Hmsg. fold (initiate_event u f). fold s1.
    case_bool_decide.
    - by simplify_eq.
    - destruct (match init_remainingBytes init with Some _ => _ | None => _ end);
        [|done].
      by simplify_eq. }
  cbn [fst snd mgr ref log wire]. split_and!; try done.
  - intros u1 Hu1 Hst.
    by apply (proj1 (startFileUpload_catch_at_spec id (Error_ msg) (ref s1)
                       (mgr s1)) u1).
  - intros Hseen. unfold startFileUpload_catch_at.
    assert (bool_decide (status <$> find_upload id (ref s1) = Some Paused)
            || bool_decide (status <$> find_upload id (ref s1) = Some Canceled)
            = false) as ->.
    { destruct (find_upload id (ref s1)) as [u1|] eqn:Hu1; [|done].
      destruct (Hseen u1 eq_refl). simpl.
      rewrite !bool_decide_eq_false_2; [done|congruence..]. }
    unfold failure_message. simpl. rewrite bool_decide_eq_false_2 by done.
    split; [done|]. intros u1 Hu1. cbn [uploads].
    unfold startFileUpload_fail.
    by apply (find_upload_update id
                (λ u, set_completing false
                        (set_error (Some msg) (set_status Error u)))).
Qed.

Lemma refused_file_is_marked_witness :
  let res := run (startFileUpload refusing "0") (added ten_bytes) in
  res.1 = Normal tt
  ∧ log res.2 = [initiate_event (new_upload "0" ten_bytes) ten_bytes]
  ∧ mgr res.2
    = mkManager
        (startFileUpload_fail "0" "Too many uploads"
           (startFileUpload_begin "0" (uploads (added ten_bytes))))
        (queue (added ten_bytes)
         ++ [mkSnack ("⚠️ " +:+ "Too many uploads") SevError])
        (uuid_calls (added ten_bytes)).
Proof.
  pose proof (refused_file_is_marked refusing "0" (added ten_bytes)
                (new_upload "0" ten_bytes) ten_bytes
                (mkInit "u6" None None None (Some false)
                   (Some "Too many uploads") None)
                "Too many uploads"
                eq_refl eq_refl eq_refl eq_refl eq_refl)
    as (Hr & Hlog & _ & _ & _ & Herr).
  split; [exact Hr|]. split; [exact Hlog|].
  apply Herr. intros u1 Hu1. vm_compute in Hu1.
  injection Hu1 as <-. split; discriminate.
Defined.

(** ** When setting up a session does not return *)

Lemma buildChunks_None size chunkSize parts etags :
  buildChunks size chunkSize parts etags = None ↔ 0 < size ∧ chunkSize ≤ 0.
Proof.
  split.
  - intros Hnone. destruct (decide (0 < size)) as [Hs|Hs].
    + split; [done|]. destruct (decide (chunkSize ≤ 0)) as [|Hc]; [done|].
      rewrite buildChunks_closed in Hnone by lia. done.
    + unfold buildChunks, buildChunks_fuel in Hnone. simpl in Hnone.
      destruct (Z.ltb_spec 0 size); [lia|done].
  - intros [Hs Hc]. by apply buildChunks_loop_stuck.
Qed.

(** [ensureUploadSession] is left unsettled in two cases and no other: the
    initiate request never settles (the request has no timeout); or the
    backend grants a session for a non-empty file and names a negative part
    size, so that the loop of [buildChunks] never ends.  (A part size of 0
    is replaced by the 10 MiB default.) *)
Theorem session_setup_hangs_iff w id m :
  (run (ensureUploadSession w id) m).1 = Running
  ↔ ∃ u f,
      find_upload id (uploads m) = Some u
      ∧ file u = Some f
      ∧ has_session u = false
      ∧ (initiate_response w = None
         ∨ ∃ init cs,
             initiate_response w = Some (inr init)
             ∧ refusal init f = None
             ∧ init_chunkSize init = Some cs
             ∧ cs < 0
             ∧ 0 < File.size f).
Proof.
  unfold run, ensureUploadSession, refusal, has_session. pipe_unfold. split.
  - destruct (find_upload id (uploads m)) as [u|]; [|done].
    destruct (file u) as [f|] eqn:Hf; simpl.
    2:{ by repeat case_match. }
    destruct (_ && _) eqn:Hsess; [done|].
    destruct (initiate_response w) as [[err|init]|]; [done| |].
    2:{ intros _. exists u, f. split_and!; [done..|by left]. }
    destruct (bool_decide (init_allowed init = Some false)) eqn:Hallowed;
      [done|].
    destruct (match init_remainingBytes init with Some _ => _ | None => _ end)
      eqn:Hquota; [done|].
    destruct (buildChunks _ _ _ _) as [plan|] eqn:Hplan; [done|].
    intros _. apply buildChunks_None in Hplan as [Hs Hc].
    unfold truthy_number in Hc.
    destruct (init_chunkSize init) as [cs|] eqn:Hcs; simpl in Hc.
    2:{ unfold DEFAULT_CHUNK_SIZE in Hc. lia. }
    destruct (Z.eqb_spec cs 0); simpl in Hc.
    { unfold DEFAULT_CHUNK_SIZE in Hc. lia. }
    exists u, f. split_and!; [done..|]. right. exists init, cs.
    rewrite Hallowed, Hquota. split_and!; (done || lia).
  - intros (u & f & -> & -> & -> & [->|(init & cs & -> & Href & Hcs & Hneg & Hs)]);
      [done|].
    simpl. destruct (bool_decide (init_allowed init = Some false)); [done|].
    destruct (match init_remainingBytes init with Some _ => _ | None => _ end);
      [done|].
    rewrite Hcs. unfold truthy_number.
    destruct (Z.eqb_spec cs 0); [lia|]. simpl.
    assert (buildChunks (File.size f) cs
              (default [] (init_alreadyUploadedParts init))
              (default ∅ (init_partsETags init)) = None) as ->; [|done].
    apply buildChunks_None. lia.
Qed.

(* ================================================================== *)
(** * One pipeline, from start to end *)

(** ** Requests that never settle *)

Lemma retry_trace_hung w c a r t :
  retry_trace w c a r t →
  r = Running →
  ∃ a', a ≤ a' ≤ CHUNK_MAX_RETRIES
        ∧ attempt_of w (index c + 1) a' = PartUrlHangs.
Proof.
  induction 1 as [a bs etag Ha|a body ds dt err Ha Hb Hstop
                  |a body ds dt err r t Hb Ha Hr Htr IH|a Ha Hhangs];
    intros Hrun; try done.
  - destruct (IH Hrun) as (a' & Ha' & Hh). exists a'. split; [lia|done].
  - exists a. split; [lia|done].
Qed.

Lemma finalizeUpload_unsettled w id st :
  (finalizeUpload w id st).1 = Running
  ↔ complete_response w = None
    ∧ ∃ meta, find_upload id (ref st) = Some meta
              ∧ truthy_string (uploadId meta) = true
              ∧ existsb (λ c, negb (uploaded c)) (chunks meta) = false.
Proof.
  unfold finalizeUpload. pipe_unfold. split.
  - destruct (find_upload id (ref st)) as [meta|]; [|done].
    destruct (truthy_string (uploadId meta)) eqn:Hid; [|done]. simpl.
    destruct (existsb _ _) eqn:Hall; [done|].
    destruct (complete_response w) as [[err|url]|]; [done..|].
    intros _. split; [done|]. by exists meta.
  - intros [-> (meta & -> & -> & ->)]. done.
Qed.

Lemma startFileUpload_never_throws w id st err :
  (startFileUpload w id st).1 ≠ Thrown err.
Proof.
  unfold startFileUpload, try_catch. unfold bind at 1.
  unfold setUploads at 1.
  by destruct (startFileUpload_try w id _) as [[[]|err'|] st'].
Qed.

(** What can keep a pipeline from settling.  [startFileUpload] never
    rejects: its [catch] block takes every error.  The retry loop of a
    chunk is left unsettled only by a part-URL request that never settles
    (the PUT has its watchdogs; the request for the URL is awaited before
    they are armed and has no timeout), and [finalizeUpload] exactly when
    it sends the complete request and that never settles.  When the
    part-URL request of the first attempt never settles, the pipeline has
    logged that attempt and nothing else, and the record stays
    "uploading". *)
Theorem unsettled_requests w id :
  (∀ m err, (run (startFileUpload w id) m).1 ≠ Thrown err)
  ∧ (∀ meta c st,
       (retry_loop retry_fuel w id meta c 0 None st).1 = Running →
       ∃ a, 0 ≤ a ≤ CHUNK_MAX_RETRIES
            ∧ attempt_of w (index c + 1) a = PartUrlHangs)
  ∧ (∀ st,
       (finalizeUpload w id st).1 = Running
       ↔ complete_response w = None
         ∧ ∃ meta, find_upload id (ref st) = Some meta
                   ∧ truthy_string (uploadId meta) = true
                   ∧ existsb (λ c, negb (uploaded c)) (chunks meta) = false)
  ∧ (let before := resumed steady twenty_bytes in
     let res := run (startFileUpload stuck "0") before in
     (λ u, (status u, has_session u)) <$> uploads before = [(Queued, true)]
     ∧ res.1 = Running
     ∧ log res.2 = [EvAttempt 1 0]
     ∧ status <$> uploads (mgr res.2) = [Uploading]).
Proof.
  split; [intros m err; apply startFileUpload_never_throws|].
  split.
  { intros meta c st Hrun.
    destruct (retry_loop_trace w id meta c retry_fuel 0 None st)
      as (r & st' & t & Heq & _ & Htr);
      [unfold CHUNK_MAX_RETRIES; lia|vm_compute; lia|].
    rewrite Heq in Hrun. simpl in Hrun.
    exact (retry_trace_hung _ _ _ _ _ Htr Hrun). }
  split; [apply finalizeUpload_unsettled|].
  vm_compute. by repeat split.
Qed.

(** ** The first pipeline of a record *)

(** The first pipeline of a record sends no part.  The record has no
    upload id; the backend grants the session and [ensureUploadSession]
    asks React to store it; [uploadChunksSequentiallyWithRetry] then reads
    the record from [uploadsRef.current], which no commit has refreshed
    since, finds no upload id and throws "Missing uploadId".  So unless
    [uploadsRef.current] shows an upload id for the record, or shows it
    paused or canceled, when the backend's answer arrives: the only request
    is the initiate request; the record gets its session and is marked
    "error" with the text "Missing uploadId", and that error toast is
    pushed.  (Resume then starts a second pipeline, which finds the
    session.) *)
Theorem first_pipeline_misses_uploadId w id m u f init u1 :
  find_upload id (uploads m) = Some u →
  file u = Some f →
  has_session u = false →
  initiate_response w = Some (inr init) →
  refusal init f = None →
  0 < session_chunkSize init →
  0 ≤ File.size f →
  let s1 :=
    meanwhile w AtInitiate
      (mkPState (with_uploads (startFileUpload_begin id) m) (uploads m)
         [initiate_event u f] [initiate_event u f]) in
  find_upload id (ref s1) = Some u1 →
  truthy_string (uploadId u1) = false →
  status u1 ≠ Paused →
  status u1 ≠ Canceled →
  ∃ plan,
    buildChunks (File.size f) (session_chunkSize init)
      (default [] (init_alreadyUploadedParts init))
      (default ∅ (init_partsETags init)) = Some plan
    ∧ let res := run (startFileUpload w id) m in
      res.1 = Normal tt
      ∧ log res.2 = [initiate_event u f]
      ∧ mgr res.2
        = mkManager
            (startFileUpload_fail id "Missing uploadId"
               (update_upload id (with_session init plan) (uploads (mgr s1))))
            (queue (mgr s1) ++ [mkSnack "⚠️ Missing uploadId" SevError])
            (uuid_calls (mgr s1)).
Proof.
  intros Hu Hf Hno Hresp Href Hcs Hsize s1 Hu1 Hid Hp Hc.
  destruct (buildChunks_tiling (File.size f) (session_chunkSize init)
              (default [] (init_alreadyUploadedParts init))
              (default ∅ (init_partsETags init)) Hsize Hcs)
    as (plan & Hplan & _ & _).
  exists plan. split; [done|]. cbv zeta.
  assert (run (startFileUpload w id) m
          = (Normal tt,
             mkPState
               (startFileUpload_catch_at id (Error_ "Missing uploadId") (ref s1)
                  (with_uploads (update_upload id (with_session init plan))
                     (mgr s1)))
               (ref s1) [initiate_event u f] (wire s1))) as ->.
  { unfold run, startFileUpload, try_catch, startFileUpload_try.
    unfold bind at 1. unfold setUploads at 1. cbn [mgr ref log wire].
    unfold bind at 1.
    assert (ensureUploadSession w id
              (mkPState (with_uploads (startFileUpload_begin id) m)
                 (uploads m) [] [])
            = (Normal tt,
               mkPState
                 (with_uploads (update_upload id (with_session init plan))
                    (mgr s1))
                 (ref s1) [initiate_event u f] (wire s1))) as ->.
    { unfold ensureUploadSession. pipe_unfold. rewrite Hu, Hf. simpl.
      unfold has_session in Hno. rewrite Hno, Hresp.
      unfold refusal in Href. fold (initiate_event u f). fold s1.
      destruct (bool_decide (init_allowed init = Some false)); [done|].
      destruct (match init_remainingBytes init with Some _ => _ | None => _ end);
        [done|].
      unfold session_chunkSize in Hplan. rewrite Hplan. done. }
    unfold bind at 1.
    unfold uploadChunksSequentiallyWithRetry. pipe_unfold.
    rewrite Hu1, Hid. done. }
  cbn [fst snd mgr ref log wire]. split; [done|]. split; [done|].
  unfold startFileUpload_catch_at. rewrite Hu1. simpl.
  by rewrite !bool_decide_eq_false_2 by congruence.
Qed.

Lemma first_pipeline_misses_uploadId_witness :
  let res := run (startFileUpload steady "0") (added twenty_bytes) in
  ∃ plan,
    buildChunks 20 10 [] ∅ = Some plan
    ∧ res.1 = Normal tt
    ∧ log res.2 = [EvInitiate "c.bin" "application/octet-stream" 20]
    ∧ mgr res.2
      = mkManager
          (startFileUpload_fail "0" "Missing uploadId"
             (update_upload "0"
                (with_session
                   (mkInit "u7" (Some 10) None None None None None) plan)
                (startFileUpload_begin "0" (uploads (added twenty_bytes)))))
          [mkSnack "⚠️ Missing uploadId" SevError] 1.
Proof.
  apply (first_pipeline_misses_uploadId steady "0" (added twenty_bytes)
           (new_upload "0" twenty_bytes) twenty_bytes
           (mkInit "u7" (Some 10) None None None None None)
           (set_error None (set_status Uploading (new_upload "0" twenty_bytes))));
    (reflexivity || discriminate).
Defined.

(** ** The second pipeline of a record *)


(* ================================================================== *)
(** * Persistence *)

(** ** Merging restored records *)

Lemma mergeRestored_closed prev restored :
  mergeRestored prev restored
  = prev ++ filter (λ r, id_ r ∉ id_ <$> prev) restored.
Proof.
  unfold mergeRestored.
  set (existingIds := list_to_set (id_ <$> prev) : gset string).
  assert (∀ merged,
            foldl (λ merged r,
                     if bool_decide (id_ r ∈ existingIds) then merged
                     else merged ++ [r]) merged restored
            = merged ++ filter (λ r, id_ r ∉ id_ <$> prev) restored) as Hgen.
  { induction restored as [|r restored IH]; intros merged; simpl.
    { by rewrite app_nil_r. }
    rewrite IH, filter_cons. unfold existingIds.
    case_bool_decide as Hin.
    - apply elem_of_list_to_set in Hin. by rewrite decide_False by tauto.
    - rewrite elem_of_list_to_set in Hin. rewrite decide_True by done.
      by rewrite <- app_assoc. }
  apply Hgen.
Qed.

(** [mergeRestored] keeps the records of the state, in place and
    unchanged, and appends the restored records whose id is not in the
    state: a record of the state wins over a restored one with its id.
    Merging the same records a second time changes nothing, and ids stay
    distinct if they are distinct in the state and among the restored
    records. *)
Theorem mergeRestored_spec prev restored :
  mergeRestored prev restored
  = prev ++ filter (λ r, id_ r ∉ id_ <$> prev) restored
  ∧ mergeRestored (mergeRestored prev restored) restored
    = mergeRestored prev restored
  ∧ (NoDup (id_ <$> prev) → NoDup (id_ <$> restored) →
     NoDup (id_ <$> mergeRestored prev restored)).
Proof.
  split; [apply mergeRestored_closed|]. split.
  - rewrite (mergeRestored_closed (mergeRestored prev restored)).
    rewrite filter_none; [by rewrite app_nil_r|].
    intros r Hr Hnin. apply Hnin. rewrite mergeRestored_closed, fmap_app.
    apply elem_of_app.
    destruct (decide (id_ r ∈ id_ <$> prev)) as [Hin|Hout]; [by left|].
    right. apply list_elem_of_fmap. exists r. split; [done|].
    by apply list_elem_of_filter.
  - intros Hp Hr. rewrite mergeRestored_closed, fmap_app.
    apply NoDup_app. split_and!; [done| |].
    + intros x Hx (r & -> & [Hnin _]%list_elem_of_filter)%list_elem_of_fmap.
      done.
    + apply (sublist_NoDup _ (id_ <$> restored)); [exact Hr|].
      apply fmap_sublist, sublist_filter.
Qed.

Lemma mergeRestored_spec_witness :
  let a := new_upload "a" (File.mk "a.bin" 10 1 "") in
  let b := new_upload "b" (File.mk "b.bin" 20 2 "") in
  NoDup (id_ <$> mergeRestored [a] [set_status AwaitingFile a; b]).
Proof.
  cbv zeta.
  apply (proj2 (proj2 (mergeRestored_spec _ _)));
    apply (@bool_decide_unpack _ (NoDup_dec _)); vm_compute; exact I.
Defined.

(** ** What a reload brings back *)

Lemma chunk_copy (l : list ChunkMeta) :
  (λ c, mkChunk (index c) (start c) (end_ c) (uploaded c) (etag c)) <$> l = l.
Proof.
  rewrite <- (list_fmap_id l) at 2. apply list_fmap_ext. by intros i [] _.
Qed.

Lemma hydrate_empty (ps : list PersistedUpload) :
  hydrate (Some ps) [] = restore <$> ps.
Proof.
  unfold hydrate. case_bool_decide as Hlen.
  - rewrite mergeRestored_closed. simpl. apply filter_all.
    intros x _. apply not_elem_of_nil.
  - destruct ps; [done|]. simpl in Hlen. lia.
Qed.

Lemma restore_persisted u :
  restore
    (mkPersisted (id_ u) (fileName u) (fileSize u) (fileLastModified u)
       (if file u is Some _ then status u
        else if bool_decide (status u = Done) then Done else AwaitingFile)
       (Some (uploadedBytes u)) (uploadId u) (Some (chunkSize u))
       (Some ((λ c, mkChunk (index c) (start c) (end_ c) (uploaded c) (etag c))
                <$> chunks u))
       (Some (completing u)) (fileUrl u))
  = mkMeta (id_ u) None (fileName u) (fileSize u) (fileLastModified u)
      AwaitingFile (uploadedBytes u) (uploadId u)
      (if bool_decide (chunkSize u = 0) then DEFAULT_CHUNK_SIZE else chunkSize u)
      (chunks u) None (completing u) (fileUrl u).
Proof.
  unfold restore. simpl. rewrite chunk_copy. f_equal.
  - destruct (Z.eqb_spec (uploadedBytes u) 0) as [->|]; done.
  - destruct (Z.eqb_spec (chunkSize u) 0) as [Heq|Hne]; simpl.
    + by rewrite bool_decide_eq_true_2.
    + by rewrite bool_decide_eq_false_2.
Qed.

(** What a reload brings back from a snapshot of the queue: the records
    that were neither "done" nor "canceled", in their order, each with its
    id, file name, size and modification time, byte count, upload id, chunk
    list, "completing" flag and file URL as they were; without its file,
    "awaiting-file", and with no error text; with its part size, or with
    the 10 MiB default if that was 0. *)
Theorem reload_round_trip us :
  Forall2
    (λ u r,
       id_ r = id_ u ∧ fileName r = fileName u ∧ fileSize r = fileSize u
       ∧ fileLastModified r = fileLastModified u
       ∧ uploadedBytes r = uploadedBytes u ∧ uploadId r = uploadId u
       ∧ chunks r = chunks u ∧ completing r = completing u
       ∧ fileUrl r = fileUrl u
       ∧ chunkSize r
         = (if bool_decide (chunkSize u = 0) then DEFAULT_CHUNK_SIZE
            else chunkSize u)
       ∧ file r = None ∧ status r = AwaitingFile ∧ error r = None)
    (filter (λ u, status u ≠ Done ∧ status u ≠ Canceled) us)
    (hydrate (Some (toPersist us)) []).
Proof.
  rewrite hydrate_empty. unfold toPersist.
  generalize (filter (λ u, status u ≠ Done ∧ status u ≠ Canceled) us).
  intros l. rewrite <- list_fmap_compose. apply Forall2_fmap_r, Forall_Forall2_diag.
  apply Forall_forall. intros u _. unfold compose.
  by rewrite restore_persisted.
Qed.

(** A second reload, with nothing done in between, brings back the same
    queue as the first. *)
Theorem reload_twice (ps : list PersistedUpload) :
  hydrate (Some (toPersist (hydrate (Some ps) []))) [] = hydrate (Some ps) [].
Proof.
  rewrite !hydrate_empty. unfold toPersist.
  rewrite filter_all.
  2:{ by intros u (p & -> & _)%list_elem_of_fmap. }
  rewrite <- !list_fmap_compose. apply list_fmap_ext. intros i p _.
  unfold compose. rewrite restore_persisted. unfold restore. simpl. f_equal.
  unfold truthy_number. destruct (p_chunkSize p) as [cs|]; simpl; [|done].
  destruct (Z.eqb_spec cs 0); simpl; [done|].
  by rewrite bool_decide_eq_false_2.
Qed.

Lemma hydrate_own_snapshot us : hydrate (Some (toPersist us)) us = us.
Proof.
  unfold hydrate. case_bool_decide; [|done].
  rewrite mergeRestored_closed. rewrite filter_none; [by rewrite app_nil_r|].
  intros r [p [-> Hp]]%list_elem_of_fmap Hout. apply Hout.
  unfold toPersist in Hp.
  apply list_elem_of_fmap in Hp as [u [-> Hu]].
  apply list_elem_of_filter in Hu as [_ Hu]. simpl.
  by apply list_elem_of_fmap_2.
Qed.

(** The hydration effect never sees the snapshot of an earlier session.
    The persisting effect comes before the hydration effect, so by the time
    the storage is read it holds the snapshot of the component's own queue,
    and merging that snapshot adds nothing: whatever the storage held, the
    queue is unchanged and the storage holds the queue's snapshot.  On
    mount the queue is empty: it stays empty, and the storage holds the
    empty snapshot. *)
Theorem mount_overwrites_snapshot (stored : Stored) m :
  hydrate_effect (persist_effect (mkPage m stored))
  = mkPage m (Some (toPersist (uploads m)))
  ∧ mount stored = mkPage initial_manager (Some []).
Proof.
  split; [|reflexivity].
  unfold hydrate_effect, persist_effect, with_uploads.
  cbn [manager localStorage_item]. rewrite hydrate_own_snapshot. by destruct m.
Qed.

(* ================================================================== *)
(** * The expandable-rail grid *)

(** ** Keys *)

Lemma split_first_cons (a : ascii) (s : string) :
  split_first "__" (String a s)
  = if Ascii.ascii_dec "_" a
    then if String.prefix "_" s then "" else String a (split_first "__" s)
    else String a (split_first "__" s).
Proof.
  change (split_first "__" (String a s))
    with (if (if Ascii.ascii_dec "_" a then String.prefix "_" s else false)
          then "" else String a (split_first "__" s)).
  by destruct (Ascii.ascii_dec "_" a).
Qed.

Lemma split_first_app (s field : string) :
  underscore_free s → split_first "__" (s +:+ "__" +:+ field) = s.
Proof.
  induction s as [|a s IH].
  { intros _. by destruct field. }
  intros [Ha Hs].
  change (String a s +:+ "__" +:+ field)
    with (String a (s +:+ "__" +:+ field)).
  rewrite split_first_cons.
  destruct (Ascii.ascii_dec "_" a) as [Heq|_]; [by destruct Ha|].
  by rewrite IH.
Qed.

Lemma app_underscore (s s' field field' : string) :
  underscore_free s → underscore_free s' →
  s +:+ "__" +:+ field = s' +:+ "__" +:+ field' → s = s' ∧ field = field'.
Proof.
  intros Hs Hs' Heq.
  assert (s = s') as <-.
  { by rewrite <- (split_first_app s field), Heq, split_first_app. }
  split; [done|]. apply (inj (String.app s)) in Heq. by simplify_eq.
Qed.

Lemma pretty_N_char_underscore (x : N) : pretty_N_char x ≠ "_"%char.
Proof. unfold pretty_N_char. by repeat case_match. Qed.

Lemma pretty_N_go_underscore (x : N) :
  ∀ s, underscore_free s → underscore_free (pretty_N_go x s).
Proof.
  induction (N.lt_wf_0 x) as [x _ IH]. intros s Hs.
  destruct (decide (x = 0%N)) as [->|Hx]; [by rewrite pretty_N_go_0|].
  rewrite pretty_N_go_step by lia. apply IH.
  - apply N.div_lt; lia.
  - split; [apply pretty_N_char_underscore|done].
Qed.

Lemma pretty_N_underscore (x : N) : underscore_free (pretty x).
Proof.
  unfold pretty, pretty_N. case_decide; [done|].
  by apply pretty_N_go_underscore.
Qed.

Lemma String_underscore (row : Z) : underscore_free (String_ row).
Proof.
  unfold String_, pretty, pretty_Z. destruct row as [|p|p]; [done|..].
  - apply pretty_N_underscore.
  - split; [done|]. apply pretty_N_underscore.
Qed.

Lemma makeKey_inj row field row' field' :
  makeKey row field = makeKey row' field' → row = row' ∧ field = field'.
Proof.
  unfold makeKey. intros [Hid Hf]%app_underscore;
    [|apply String_underscore..].
  split; [|done]. by apply (inj pretty).
Qed.

Lemma split_first_makeKey row field :
  split_first "__" (makeKey row field) = String_ row.
Proof. apply split_first_app, String_underscore. Qed.

(** ** Eyes *)

(** The eye cells are independent.  A click on the eye of row [row] in
    column [field] opens that cell if it was closed and closes it if it was
    open, and leaves every other cell, of that row and of the other rows,
    as it was. *)
Theorem eye_cells_are_independent (cells : gmap string bool) row field row' field' :
  cell_expanded (toggleCell row field cells) row' field'
  = if bool_decide (row' = row ∧ field' = field)
    then negb (cell_expanded cells row field)
    else cell_expanded cells row' field'.
Proof.
  unfold cell_expanded, toggleCell. case_bool_decide as Heq.
  - destruct Heq as [-> ->]. by rewrite lookup_insert_eq.
  - rewrite lookup_insert_ne; [done|].
    intros [-> ->]%makeKey_inj. by apply Heq.
Qed.

(** ** Row heights *)

Lemma after_toggles_keys (clicks : list (Z * string)) key (b : bool) :
  after_toggles clicks !! key = Some b → ∃ row field, key = makeKey row field.
Proof.
  unfold after_toggles.
  assert (∀ cells : gmap string bool,
            (∀ k b, cells !! k = Some b → ∃ row field, k = makeKey row field) →
            ∀ k b,
              foldl (λ cells click, toggleCell click.1 click.2 cells) cells clicks
                !! k = Some b →
              ∃ row field, k = makeKey row field) as Hgen.
  { induction clicks as [|[row field] clicks IH]; intros cells Hinv; [done|].
    simpl. apply IH. intros k b'. unfold toggleCell.
    destruct (decide (k = makeKey row field)) as [->|Hne]; [by eauto|].
    rewrite lookup_insert_ne by done. apply Hinv. }
  apply Hgen. intros k b'. by rewrite lookup_empty.
Qed.

Lemma elem_of_expandedRows (cells : gmap string bool) (rowId : string) :
  rowId ∈ expandedRows cells
  ↔ ∃ key, cells !! key = Some true ∧ split_first "__" key = rowId.
Proof.
  unfold expandedRows. rewrite elem_of_list_to_set, list_elem_of_omap. split.
  - intros ([key open] & Hin%elem_of_map_to_list & Hsome). simpl in *.
    destruct open; [|done]. exists key. split; [done|]. by simplify_eq.
  - intros (key & Hkey & <-). exists (key, true). split; [|done].
    by apply elem_of_map_to_list.
Qed.

(** A row is tall iff one of its eyes is open.  After any series of clicks
    on eye buttons, [getRowHeight] gives a row the expanded height, 222 px
    (the base height, the four rail buttons with their gaps and padding, and
    12 px of room), iff at least one eye cell of that row is expanded, and
    the base height of 52 px iff none is. *)
Theorem row_height_follows_eyes (clicks : list (Z * string)) row :
  let cells := after_toggles clicks in
  (getRowHeight cells row = ROW_EXPANDED_HEIGHT
   ↔ ∃ field, cell_expanded cells row field = true)
  ∧ (getRowHeight cells row = BASE_ROW_HEIGHT
     ↔ ∀ field, cell_expanded cells row field = false)
  ∧ BASE_ROW_HEIGHT = 52 ∧ ROW_EXPANDED_HEIGHT = 222.
Proof.
  cbv zeta.
  assert (String_ row ∈ expandedRows (after_toggles clicks)
          ↔ ∃ field, cell_expanded (after_toggles clicks) row field = true)
    as Hiff.
  { rewrite elem_of_expandedRows. unfold cell_expanded. split.
    - intros (key & Hkey & Hrow).
      destruct (after_toggles_keys _ _ _ Hkey) as (row' & field & ->).
      rewrite split_first_makeKey in Hrow. apply (inj pretty) in Hrow as ->.
      exists field. by rewrite Hkey.
    - intros (field & Hopen). exists (makeKey row field).
      split; [|apply split_first_makeKey].
      destruct (after_toggles clicks !! makeKey row field) as [[]|]; done. }
  unfold getRowHeight. split_and!; [| |done..].
  - case_bool_decide as Hin.
    + split; [intros _; by apply Hiff|done].
    + split; [done|]. intros Hex. by apply Hiff in Hex.
  - case_bool_decide as Hin.
    + split; [done|]. intros Hall. apply Hiff in Hin as [field Hf].
      by rewrite Hall in Hf.
    + split; [|done]. intros _ field.
      destruct (cell_expanded _ row field) eqn:Hf; [|done].
      exfalso. apply Hin, Hiff. by exists field.
Qed.
